(** * Storyboard generator: the scene-chaining pipeline of [src/App.tsx]

    A shallow embedding of the script parser ([parsePrompts]), of the three
    generation procedures ([handleGenerate], [handleRegenerateAll],
    [handleRegenerate]) and of the text helpers they use, of the editors and
    the download button of [App], of the character registry
    ([components/CharacterManager.tsx]) and of the adapter
    ([services/GeminiService.ts]), followed by the properties of the
    specification that were checked against them and by further properties
    of the code.

    JavaScript strings are sequences of UTF-16 code units; they are modelled
    as [list N].  Literals of the source are written as Rocq strings (UTF-8)
    and decoded by [utf16]. *)

From Stdlib Require Import NArith Ascii Decimal.
From stdpp Require Import base list strings.
From Stdlib Require DecimalN.
From stdpp Require Import sorting.

(** ** JavaScript strings *)

Module Js.

Abbreviation jsstring := (list N).

Definition emit (cp : N) : jsstring :=
  if (cp <? 65536)%N then [cp]
  else [(55296 + (cp - 65536) / 1024)%N; (56320 + (cp - 65536) mod 1024)%N].

(** UTF-8 decoder, one byte at a time: [pending] holds the bits read so far
    and [need] the number of continuation bytes still expected. *)
Fixpoint utf16_go (pending : N) (need : nat) (s : string) : jsstring :=
  match s with
  | EmptyString => []
  | String a r =>
      let b := N_of_ascii a in
      match need with
      | 0 =>
          if (b <? 128)%N then b :: utf16_go 0 0 r
          else if (b <? 224)%N then utf16_go (b - 192) 1 r
          else if (b <? 240)%N then utf16_go (b - 224) 2 r
          else utf16_go (b - 240) 3 r
      | 1 => emit (pending * 64 + (b - 128)) ++ utf16_go 0 0 r
      | S n => utf16_go (pending * 64 + (b - 128)) n r
      end
  end.

Definition utf16 (s : string) : jsstring := utf16_go 0 0 s.

Arguments utf16 : simpl never.

(** [\d] *)
Definition isDigit (c : N) : bool := (48 <=? c)%N && (c <=? 57)%N.

(** LineTerminator: LF, CR, LS, PS. *)
Definition isLineTerminator (c : N) : bool :=
  (c =? 10)%N || (c =? 13)%N || (c =? 8232)%N || (c =? 8233)%N.

(** [\s], which is also the set removed by [String.prototype.trim]:
    WhiteSpace (TAB, VT, FF, SP, NBSP, ZWNBSP and the Unicode space
    separators) together with LineTerminator. *)
Definition isWhiteSpace (c : N) : bool :=
  (c =? 9)%N || (c =? 11)%N || (c =? 12)%N || (c =? 32)%N || (c =? 160)%N
  || (c =? 65279)%N || (c =? 5760)%N || ((8192 <=? c)%N && (c <=? 8202)%N)
  || (c =? 8239)%N || (c =? 8287)%N || (c =? 12288)%N || isLineTerminator c.

(** [span f s]: the longest prefix of [s] whose characters satisfy [f], and
    what follows it (a greedy [f*] that never has to give anything back). *)
Fixpoint span (f : N -> bool) (s : jsstring) : jsstring * jsstring :=
  match s with
  | [] => ([], [])
  | c :: r => if f c then let '(a, b) := span f r in (c :: a, b) else ([], s)
  end.

(** [strip_prefix p s = Some r] when [s] is [p] followed by [r]. *)
Fixpoint strip_prefix (p s : jsstring) : option jsstring :=
  match p, s with
  | [], _ => Some s
  | _ :: _, [] => None
  | a :: p', b :: s' => if (a =? b)%N then strip_prefix p' s' else None
  end.

Definition startsWith (s p : jsstring) : bool :=
  match strip_prefix p s with Some _ => true | None => false end.

(** First occurrence of [p] in [s]: the text before it and the text after. *)
Fixpoint find_sub (p s : jsstring) : option (jsstring * jsstring) :=
  match strip_prefix p s with
  | Some r => Some ([], r)
  | None =>
      match s with
      | [] => None
      | c :: s' =>
          match find_sub p s' with
          | Some (before, after) => Some (c :: before, after)
          | None => None
          end
      end
  end.

Definition includes (s p : jsstring) : bool :=
  match find_sub p s with Some _ => true | None => false end.

Definition trimStart (s : jsstring) : jsstring := snd (span isWhiteSpace s).
Definition trimEnd (s : jsstring) : jsstring := reverse (trimStart (reverse s)).
Definition trim (s : jsstring) : jsstring := trimEnd (trimStart s).

(** [parseInt(ds, 10)] on a run of decimal digits.  JavaScript numbers are
    doubles: from 2^53 on [parseInt] rounds, and it returns [Infinity] for
    runs too long for a double.  The embedding keeps the exact value, which
    is what JavaScript computes for every scene number below 2^53. *)
Definition digitsValue (ds : jsstring) : N :=
  foldl (fun acc d => (acc * 10 + (d - 48))%N) 0%N ds.

(** [String(n)] for a non-negative integer below 10^21, where JavaScript
    writes all the digits; the program applies it to scene numbers, and the
    properties that depend on it take them below 2^53. *)
Fixpoint uintDigits (u : Decimal.uint) : jsstring :=
  match u with
  | Nil => []
  | D0 u => 48%N :: uintDigits u
  | D1 u => 49%N :: uintDigits u
  | D2 u => 50%N :: uintDigits u
  | D3 u => 51%N :: uintDigits u
  | D4 u => 52%N :: uintDigits u
  | D5 u => 53%N :: uintDigits u
  | D6 u => 54%N :: uintDigits u
  | D7 u => 55%N :: uintDigits u
  | D8 u => 56%N :: uintDigits u
  | D9 u => 57%N :: uintDigits u
  end.

Definition numberToString (n : N) : jsstring := uintDigits (N.to_uint n).

(** Truthiness of a string: non-empty. *)
Definition truthy (s : jsstring) : bool :=
  match s with [] => false | _ :: _ => true end.

End Js.

Import Js.

(** ** Data model ([types.ts]) *)

Inductive AspectRatio := Ratio1x1 | Ratio4x3 | Ratio16x9 | Ratio9x16.

Record Character := {
  c_id : jsstring;
  c_name : jsstring;
  imageBase64 : jsstring;
  mimeType : jsstring
}.

Record Scene := {
  s_prompt : jsstring;
  characterName : jsstring;
  fullText : jsstring;
  sceneNumber : N
}.

Record GeneratedImage := {
  id : jsstring;
  prompt : jsstring;
  src : jsstring;
  isLoading : bool;
  characterRefId : option jsstring;
  isSelected : bool;
  sceneName : jsstring;
  sceneScript : jsstring
}.

(** ** The script parser *)

Module Parser.

Definition CANH : jsstring := Eval vm_compute in utf16 "Cảnh ".
Definition COLON : N := 58%N.
Definition PROMPT_LABEL : jsstring := Eval vm_compute in utf16 "Prompt (Câu lệnh tiếng Anh):".
Definition NHAN_VAT : jsstring := Eval vm_compute in utf16 "Nhân vật:".
Definition KHONG : jsstring := Eval vm_compute in utf16 "Không".
Definition NL_NHAN_VAT : jsstring := Eval vm_compute in 10%N :: NHAN_VAT.
Definition NL_THOI_LUONG : jsstring := Eval vm_compute in 10%N :: utf16 "Thời lượng ảnh:".
Definition NL_KEN_BURNS : jsstring := Eval vm_compute in 10%N :: utf16 "Ken Burns Effect:".

(** [/Cảnh (\d+):/] anchored at the start of [s]: the digits and the text
    after the colon. *)
Definition matchHeader (s : jsstring) : option (jsstring * jsstring) :=
  match strip_prefix CANH s with
  | Some r =>
      match span isDigit r with
      | ((_ :: _) as ds, c :: rest) => if (c =? COLON)%N then Some (ds, rest) else None
      | _ => None
      end
  | None => None
  end.

Definition isHeader (s : jsstring) : bool :=
  match matchHeader s with Some _ => true | None => false end.

(** [s.search(/Cảnh \d+:/)] and [s.match(/Cảnh (\d+):/)]: the leftmost header,
    as (text before it, its digits). *)
Fixpoint searchHeader (s : jsstring) : option (jsstring * jsstring) :=
  match matchHeader s with
  | Some (ds, _) => Some ([], ds)
  | None =>
      match s with
      | [] => None
      | c :: r =>
          match searchHeader r with
          | Some (before, ds) => Some (c :: before, ds)
          | None => None
          end
      end
  end.

(** [text.match(/(Cảnh \d+:[\s\S]*?)(?=Cảnh \d+:|$)/g) || []].

    A match starts at a header and its lazy body stops in front of the next
    header or at the end of the text; the next match is searched from there.
    No header begins inside another one ([header_no_overlap] below), so the
    text is cut in front of every header.  [cut s] returns the text of [s] in
    front of its first header and the blocks from that header on. *)
Fixpoint cut (s : jsstring) : jsstring * list jsstring :=
  match s with
  | [] => ([], [])
  | c :: r =>
      let '(pre, blocks) := cut r in
      if isHeader s then ([], (c :: pre) :: blocks) else (c :: pre, blocks)
  end.

Definition sceneBlocks (text : jsstring) : list jsstring := (cut text).2.

(** The lookahead [(?=\nNhân vật:|\nThời lượng ảnh:|\nKen Burns Effect:|$)]. *)
Definition promptStop (s : jsstring) : bool :=
  match s with
  | [] => true
  | _ => startsWith s NL_NHAN_VAT || startsWith s NL_THOI_LUONG || startsWith s NL_KEN_BURNS
  end.

(** A lazy [[\s\S]*?] followed by a lookahead: the shortest prefix after
    which [stop] holds, [stop] holding at the end of the text. *)
Fixpoint lazyUntil (stop : jsstring -> bool) (s : jsstring) : jsstring :=
  match s with
  | [] => []
  | c :: r => if stop s then [] else c :: lazyUntil stop r
  end.

(** [block.match(promptRegex)], group 1.  The regular expression succeeds at
    the first occurrence of the label: [\s*] takes all the white space there
    and the lazy group can always grow to the end of the block, where [$]
    holds, so nothing is ever given back. *)
Definition promptMatch (block : jsstring) : option jsstring :=
  match find_sub PROMPT_LABEL block with
  | Some (_, after) => Some (lazyUntil promptStop (span isWhiteSpace after).2)
  | None => None
  end.

(** [(.*?)(?:\n|$)] at [s]: [.] does not match a line terminator, so the
    group is the text up to the first line terminator, and the match fails
    when that terminator is not a line feed. *)
Definition lineCapture (s : jsstring) : option jsstring :=
  match span (fun c => negb (isLineTerminator c)) s with
  | (cap, []) => Some cap
  | (cap, c :: _) => if (c =? 10)%N then Some cap else None
  end.

(** [\s*(.*?)(?:\n|$)] at [s], where [s] starts with [k] characters that
    [\s*] may take: greedy, giving back one character at a time. *)
Fixpoint afterLabel (k : nat) (s : jsstring) : option jsstring :=
  match lineCapture (drop k s) with
  | Some cap => Some cap
  | None => match k with 0 => None | S k' => afterLabel k' s end
  end.

(** [block.match(/Nhân vật:\s*(.*?)(?:\n|$)/)], group 1: the leftmost
    occurrence of the label at which the rest of the expression matches. *)
Fixpoint characterMatch (s : jsstring) : option jsstring :=
  match s with
  | [] => None
  | _ :: r =>
      match strip_prefix NHAN_VAT s with
      | Some after =>
          match afterLabel (length (span isWhiteSpace after).1) after with
          | Some cap => Some cap
          | None => characterMatch r
          end
      | None => characterMatch r
      end
  end.

(** The body of the loop of [parsePrompts] for one block: the scene pushed,
    if any.  [sceneNumberMatch] is never null: a block starts with a header. *)
Definition parseBlock (sceneBlock : jsstring) : option Scene :=
  match searchHeader sceneBlock, promptMatch sceneBlock with
  | Some (_, ds), Some p =>
      if truthy p then
        Some {| s_prompt := trim p;
                characterName :=
                  match characterMatch sceneBlock with
                  | Some ((_ :: _) as c) => trim c
                  | _ => KHONG
                  end;
                fullText := trim sceneBlock;
                sceneNumber := digitsValue ds |}
      else None
  | _, _ => None
  end.

Definition parsePrompts (text : jsstring) : list Scene :=
  omap parseBlock (sceneBlocks text).

End Parser.

Import Parser.

(** ** The application: state, host and handlers of [App] *)

Module App.

Definition MAX_ATTEMPTS : nat := 3.
Definition ERROR : jsstring := Eval vm_compute in utf16 "error".
Definition CANCELLED : jsstring := Eval vm_compute in utf16 "cancelled".
Definition DATA_IMAGE : jsstring := Eval vm_compute in utf16 "data:image".
Definition DATA_URL_PREFIX : jsstring := Eval vm_compute in utf16 "data:image/png;base64,".
Definition SPEAKING : jsstring := Eval vm_compute in utf16 "(nhân vật đang nói)".
Definition NO_PROMPT_FOUND : jsstring :=
  Eval vm_compute in utf16 "Không tìm thấy prompt hợp lệ nào. Vui lòng kiểm tra định dạng đầu vào.".

(** The arguments of one call of [generateImage]. *)
Record CallArgs := {
  a_prompt : jsstring;
  a_storyContext : jsstring;
  a_artStyle : jsstring;
  a_aspectRatio : AspectRatio;
  a_characterRef : option Character;
  a_previousImage : option jsstring;
  a_isVariant : bool
}.

(** What an observer of a run sees, in order: the calls of the adapter with
    their outcome ([None] for a rejected promise), the pauses, and every
    content given to [setGeneratedImages].  A call and a pause carry the loop
    index [i] of the image being generated and a call also the attempt
    counter, as the log lines of the source do. *)
Inductive Event :=
| EvCall (scene attempt : nat) (args : CallArgs) (result : option jsstring)
| EvSleep (scene : nat) (ms : N)
| EvPublish (images : list GeneratedImage).

(** The host of a run: the adapter ([generateImage] of
    [services/GeminiService.ts], an opaque network call: its [k]-th
    invocation resolves with a payload or rejects), the user (who may press
    the stop button while the controller is suspended at its [k]-th [await]),
    [crypto.randomUUID] and [String.prototype.toLowerCase]. *)
Record Env := {
  generateImage : nat -> CallArgs -> option jsstring;
  stopPressed : nat -> bool;
  randomUUID : nat -> jsstring;
  toLowerCase : jsstring -> jsstring
}.

(** The values a handler closes over when it is created. *)
Record Props := {
  storyContext : jsstring;
  artStyle : jsstring;
  promptsText : jsstring;
  aspectRatio : AspectRatio;
  batchSize : nat;
  characters : list Character
}.

(** The mutable state: the React state written by the handlers, the ref
    [isStoppingRef.current], the counters of the host and the trace. *)
Record State := {
  generatedImages : list GeneratedImage;
  isGenerating : bool;
  error : option jsstring;
  isStopping : bool;
  calls : nat;
  awaits : nat;
  uuids : nat;
  trace : list Event
}.

(** [{ ...img, src: s, isLoading: l }] *)
Definition withSrc (s : jsstring) (l : bool) (img : GeneratedImage) : GeneratedImage :=
  {| id := id img; prompt := prompt img; src := s; isLoading := l;
     characterRefId := characterRefId img; isSelected := isSelected img;
     sceneName := sceneName img; sceneScript := sceneScript img |}.

(** [{ ...img, isLoading: l }] *)
Definition withLoading (l : bool) (img : GeneratedImage) : GeneratedImage :=
  withSrc (src img) l img.

(** The object an out-of-range [{ ...newImages[i], ... }] spreads: nothing. *)
Definition blankImage : GeneratedImage :=
  {| id := []; prompt := []; src := []; isLoading := false; characterRefId := None;
     isSelected := false; sceneName := []; sceneScript := [] |}.

(** [a[i] = v] on a JavaScript array: in range it replaces the cell, past the
    end the array grows, the cells in between reading as [hole]. *)
Definition assign {A} (hole : A) (i : nat) (v : A) (a : list A) : list A :=
  if i <? length a then <[i := v]> a
  else a ++ replicate (i - length a) hole ++ [v].

(** [newImages[i] = f newImages[i]] on a copy of the store. *)
Definition assignImage (i : nat) (f : GeneratedImage -> GeneratedImage)
    (images : list GeneratedImage) : list GeneratedImage :=
  assign blankImage i (f (default blankImage (images !! i))) images.

Definition setGeneratedImages (f : list GeneratedImage -> list GeneratedImage)
    (st : State) : State :=
  {| generatedImages := f (generatedImages st); isGenerating := isGenerating st;
     error := error st; isStopping := isStopping st; calls := calls st;
     awaits := awaits st; uuids := uuids st;
     trace := trace st ++ [EvPublish (f (generatedImages st))] |}.

Definition setIsGenerating (b : bool) (st : State) : State :=
  {| generatedImages := generatedImages st; isGenerating := b; error := error st;
     isStopping := isStopping st; calls := calls st; awaits := awaits st;
     uuids := uuids st; trace := trace st |}.

Definition setError (e : option jsstring) (st : State) : State :=
  {| generatedImages := generatedImages st; isGenerating := isGenerating st; error := e;
     isStopping := isStopping st; calls := calls st; awaits := awaits st;
     uuids := uuids st; trace := trace st |}.

Definition setIsStopping (b : bool) (st : State) : State :=
  {| generatedImages := generatedImages st; isGenerating := isGenerating st;
     error := error st; isStopping := b; calls := calls st; awaits := awaits st;
     uuids := uuids st; trace := trace st |}.

Definition takeUUIDs (n : nat) (st : State) : State :=
  {| generatedImages := generatedImages st; isGenerating := isGenerating st;
     error := error st; isStopping := isStopping st; calls := calls st;
     awaits := awaits st; uuids := uuids st + n; trace := trace st |}.

(** An [await]: the controller is suspended and [handleStop] may run. *)
Definition suspend (env : Env) (ev : Event) (newCalls : nat) (st : State) : State :=
  {| generatedImages := generatedImages st; isGenerating := isGenerating st;
     error := error st;
     isStopping := isStopping st || stopPressed env (awaits st);
     calls := calls st + newCalls; awaits := S (awaits st); uuids := uuids st;
     trace := trace st ++ [ev] |}.

(** [await generateImage(...)] *)
Definition awaitGenerateImage (env : Env) (scene attempt : nat) (args : CallArgs)
    (st : State) : option jsstring * State :=
  let r := generateImage env (calls st) args in
  (r, suspend env (EvCall scene attempt args r) 1 st).

(** [await sleep(ms)] *)
Definition sleep (env : Env) (scene : nat) (ms : N) (st : State) : State :=
  suspend env (EvSleep scene ms) 0 st.

(** [cleanStoryContext] *)
Definition cleanStoryContext (text : jsstring) : jsstring :=
  match searchHeader text with
  | Some (before, _) => trim before
  | None => text
  end.

(** [s.replace(/q[^q]{15,}q/g, SPEAKING)] for a quote character [q]: at a
    quote followed by at least 15 other characters and a closing quote the
    whole span is replaced and the scan goes on after it; [skip] counts the
    characters of the span still to be dropped. *)
Fixpoint replaceQuoted (q : N) (skip : nat) (s : jsstring) : jsstring :=
  match s with
  | [] => []
  | c :: r =>
      match skip with
      | S skip' => replaceQuoted q skip' r
      | 0 =>
          if (c =? q)%N then
            match span (fun x => negb (x =? q)%N) r with
            | (run, _ :: _) =>
                if 15 <=? length run
                then SPEAKING ++ replaceQuoted q (S (length run)) r
                else c :: replaceQuoted q 0 r
            | (_, []) => c :: replaceQuoted q 0 r
            end
          else c :: replaceQuoted q 0 r
      end
  end.

(** [removeDialogue] *)
Definition removeDialogue (p : jsstring) : jsstring :=
  replaceQuoted 34 0 (replaceQuoted 39 0 p).

(** [characters.find(c => c.id === refId)], [refId] possibly undefined. *)
Definition findCharacter (cs : list Character) (refId : option jsstring) : option Character :=
  match refId with
  | Some r => List.find (fun c => bool_decide (c_id c = r)) cs
  | None => None
  end.

(** [characters.find(c => name.toLowerCase().includes(c.name.toLowerCase()))?.id] *)
Definition resolveCharacter (env : Env) (cs : list Character) (name : jsstring) : option jsstring :=
  c_id <$> List.find (fun c => includes (toLowerCase env name) (toLowerCase env (c_name c))) cs.

Definition dataUrl (base64 : jsstring) : jsstring := DATA_URL_PREFIX ++ base64.

(** The retry loop shared, word for word, by [handleGenerate] and
    [handleRegenerateAll]:
    [for (attempt = 1; attempt <= MAX_ATTEMPTS && !success; attempt++)].
    [remaining] is [MAX_ATTEMPTS + 1 - attempt].  The result is
    [generatedBase64], which is assigned exactly when [success] is. *)
Fixpoint attemptLoop (env : Env) (scene : nat) (args : CallArgs)
    (remaining attempt : nat) (st : State) : option jsstring * State :=
  match remaining with
  | 0 => (None, st)
  | S remaining' =>
      let '(r, st1) := awaitGenerateImage env scene attempt args st in
      match r with
      | Some base64 => (Some base64, st1)
      | None =>
          let st2 := if attempt <? MAX_ATTEMPTS then sleep env scene 5000 st1 else st1 in
          attemptLoop env scene args remaining' (S attempt) st2
      end
  end.

Definition callArgs (env : Env) (props : Props) (image : GeneratedImage)
    (referenceImage : option jsstring) (isVariant : bool) : CallArgs :=
  {| a_prompt := removeDialogue (prompt image);
     a_storyContext := cleanStoryContext (storyContext props);
     a_artStyle := artStyle props;
     a_aspectRatio := aspectRatio props;
     a_characterRef := findCharacter (characters props) (characterRefId image);
     a_previousImage := referenceImage;
     a_isVariant := isVariant |}.

(** [currentImages.map((img, index) => index >= i ? f img : img)] *)
Definition mapFrom (i : nat) (f : GeneratedImage -> GeneratedImage)
    (images : list GeneratedImage) : list GeneratedImage :=
  imap (fun index img => if i <=? index then f img else img) images.

(** *** [handleGenerate] *)

(** One iteration of the loop over [initialImages]: [inr] is a [break]. *)
Definition generateStep (env : Env) (props : Props) (i : nat) (image : GeneratedImage)
    (sceneImages : list (option jsstring)) (st : State)
    : State * list (option jsstring) + State :=
  if isStopping st then
    inr (setGeneratedImages (mapFrom i (withSrc CANCELLED false)) st)
  else
    let referenceImage := if 0 <? i then mjoin (sceneImages !! (i - 1)) else None in
    let '(generatedBase64, st1) :=
      attemptLoop env i (callArgs env props image referenceImage false) MAX_ATTEMPTS 1 st in
    if isStopping st1 then
      inr (setGeneratedImages (mapFrom i (withSrc CANCELLED false)) st1)
    else
      match generatedBase64 with
      | Some ((_ :: _) as base64) =>
          let newSrc := dataUrl base64 in
          inl (setGeneratedImages (assignImage i (withSrc newSrc false)) st1,
               assign None i (Some newSrc) sceneImages)
      | _ =>
          inl (setGeneratedImages (assignImage i (withSrc ERROR false)) st1,
               assign None i None sceneImages)
      end.

Fixpoint generateLoop (env : Env) (props : Props) (todo : list GeneratedImage) (i : nat)
    (sceneImages : list (option jsstring)) (st : State) : State :=
  match todo with
  | [] => st
  | image :: todo' =>
      match generateStep env props i image sceneImages st with
      | inl (st', sceneImages') => generateLoop env props todo' (S i) sceneImages' st'
      | inr st' => st'
      end
  end.

Definition initialImage (env : Env) (props : Props) (firstUUID : nat) (k : nat)
    (scene : Scene) : GeneratedImage :=
  {| id := randomUUID env (firstUUID + k);
     prompt := s_prompt scene;
     sceneName := CANH ++ numberToString (sceneNumber scene);
     src := [];
     isLoading := true;
     characterRefId := resolveCharacter env (characters props) (characterName scene);
     isSelected := false;
     sceneScript := fullText scene |}.

Definition handleGenerate (env : Env) (props : Props) (st : State) : State :=
  let st := setIsStopping false st in
  let st := setIsGenerating true st in
  let st := setError None st in
  let st := setGeneratedImages (fun _ => []) st in
  let scenes := take (batchSize props) (parsePrompts (promptsText props)) in
  match scenes with
  | [] => setIsGenerating false (setError (Some NO_PROMPT_FOUND) st)
  | _ =>
      let initialImages := imap (initialImage env props (uuids st)) scenes in
      let st := takeUUIDs (length scenes) st in
      let st := setGeneratedImages (fun _ => initialImages) st in
      let sceneImages := replicate (length scenes) None in
      setIsGenerating false (generateLoop env props initialImages 0 sceneImages st)
  end.

(** *** [handleRegenerateAll] *)

(** One iteration of the loop over [originalImages]: [inr] is a [break]. *)
Definition regenerateAllStep (env : Env) (props : Props) (i : nat) (image : GeneratedImage)
    (newImageSrcs : list (option jsstring)) (st : State)
    : State * list (option jsstring) + State :=
  if isStopping st then
    inr (setGeneratedImages (mapFrom i (withLoading false)) st)
  else
    let referenceImage := if 0 <? i then mjoin (newImageSrcs !! (i - 1)) else None in
    let '(generatedBase64, st1) :=
      attemptLoop env i (callArgs env props image referenceImage true) MAX_ATTEMPTS 1 st in
    if isStopping st1 then
      inr (setGeneratedImages (mapFrom i (withLoading false)) st1)
    else
      match generatedBase64 with
      | Some ((_ :: _) as base64) =>
          let newSrc := dataUrl base64 in
          inl (setGeneratedImages (alter (withSrc newSrc false) i) st1,
               assign None i (Some newSrc) newImageSrcs)
      | _ =>
          inl (setGeneratedImages (alter (withSrc ERROR false) i) st1,
               assign None i (Some ERROR) newImageSrcs)
      end.

Fixpoint regenerateAllLoop (env : Env) (props : Props) (todo : list GeneratedImage) (i : nat)
    (newImageSrcs : list (option jsstring)) (st : State) : State :=
  match todo with
  | [] => st
  | image :: todo' =>
      match regenerateAllStep env props i image newImageSrcs st with
      | inl (st', newImageSrcs') => regenerateAllLoop env props todo' (S i) newImageSrcs' st'
      | inr st' => st'
      end
  end.

Definition handleRegenerateAll (env : Env) (props : Props) (st : State) : State :=
  if isGenerating st || bool_decide (generatedImages st = []) then st
  else
    let originalImages := generatedImages st in
    let st := setIsStopping false st in
    let st := setIsGenerating true st in
    let st := setError None st in
    let st := setGeneratedImages (fmap (withLoading true)) st in
    let newImageSrcs :=
      (fun img => if startsWith (src img) DATA_IMAGE then Some (src img) else None)
        <$> originalImages in
    setIsGenerating false (regenerateAllLoop env props originalImages 0 newImageSrcs st).

(** *** [handleRegenerate] *)

(** [name.match(/Cảnh (\d+)/)], group 1: the digits after the leftmost
    [Cảnh ] that is followed by a digit. *)
Fixpoint matchSceneName (name : jsstring) : option jsstring :=
  match name with
  | [] => None
  | _ :: r =>
      match strip_prefix CANH name with
      | Some after =>
          match (span isDigit after).1 with
          | (_ :: _) as ds => Some ds
          | [] => matchSceneName r
          end
      | None => matchSceneName r
      end
  end.

(** [a.findIndex(f)], [None] for -1. *)
Fixpoint findIndex {A} (f : A -> bool) (a : list A) : option nat :=
  match a with
  | [] => None
  | x :: a' => if f x then Some 0 else S <$> findIndex f a'
  end.

(** The continuity reference of a single-scene regeneration, computed from
    the script text and the images the handler closes over.  Scene numbers
    are compared as exact integers and written with all their digits, as
    JavaScript does below 2^53. *)
Definition regenerateReference (props : Props) (images : list GeneratedImage)
    (imageToRegen : GeneratedImage) : option jsstring :=
  match matchSceneName (sceneName imageToRegen) with
  | None => None
  | Some ds =>
      let scenes := parsePrompts (promptsText props) in
      match findIndex (fun s => (sceneNumber s =? digitsValue ds)%N) scenes with
      | Some (S k) =>
          match scenes !! k with
          | Some prevSceneInfo =>
              let prevSceneLabel := CANH ++ numberToString (sceneNumber prevSceneInfo) in
              src <$> List.find (fun img =>
                        startsWith (sceneName img) prevSceneLabel
                        && truthy (src img) && negb (bool_decide (src img = ERROR)))
                      images
          | None => None
          end
      | _ => None
      end
  end.

(** The replacement text of [String.prototype.replace]: [$$], [$&], [$`]
    and [$'] are expanded; the expression has no group, so every other use
    of [$] stands for itself. *)
Fixpoint getSubstitution (matched before after replacement : jsstring) : jsstring :=
  match replacement with
  | [] => []
  | c :: r =>
      if (c =? 36)%N then
        match r with
        | d :: r' =>
            if (d =? 36)%N then 36%N :: getSubstitution matched before after r'
            else if (d =? 38)%N then matched ++ getSubstitution matched before after r'
            else if (d =? 96)%N then before ++ getSubstitution matched before after r'
            else if (d =? 39)%N then after ++ getSubstitution matched before after r'
            else c :: getSubstitution matched before after r
        | [] => [c]
        end
      else c :: getSubstitution matched before after r
  end.

(** [script.replace(/Prompt \(Câu lệnh tiếng Anh\):.*/s, `Prompt (Câu lệnh
    tiếng Anh): ${promptOverride}`)]: with the [s] flag the dot matches
    every character, so the match runs from the first label to the end. *)
Definition replacePromptField (script promptOverride : jsstring) : jsstring :=
  match find_sub PROMPT_LABEL script with
  | Some (before, after) =>
      before ++ getSubstitution (PROMPT_LABEL ++ after) before []
                  (PROMPT_LABEL ++ 32%N :: promptOverride)
  | None => script
  end.

(** [prev.map(img => img.id === imageId ? f img : img)] *)
Definition mapId (imageId : jsstring) (f : GeneratedImage -> GeneratedImage)
    (images : list GeneratedImage) : list GeneratedImage :=
  (fun img => if decide (id img = imageId) then f img else img) <$> images.

(** The image written when an attempt of [handleRegenerate] succeeds. *)
Definition regenerated (imageToRegen : GeneratedImage) (promptOverride : option jsstring)
    (imageBase64 : jsstring) (img : GeneratedImage) : GeneratedImage :=
  {| id := id img;
     src := dataUrl imageBase64;
     isLoading := false;
     prompt := default (prompt imageToRegen) promptOverride;
     sceneScript :=
       match promptOverride with
       | Some ((_ :: _) as p) => replacePromptField (sceneScript imageToRegen) p
       | _ => sceneScript imageToRegen
       end;
     characterRefId := characterRefId img;
     isSelected := isSelected img;
     sceneName := sceneName img |}.

Fixpoint regenerateLoop (env : Env) (imageIndex : nat) (imageToRegen : GeneratedImage)
    (promptOverride : option jsstring) (args : CallArgs)
    (remaining attempt : nat) (st : State) : State :=
  match remaining with
  | 0 => st
  | S remaining' =>
      let '(r, st1) := awaitGenerateImage env imageIndex attempt args st in
      match r with
      | Some imageBase64 =>
          setGeneratedImages
            (mapId (id imageToRegen) (regenerated imageToRegen promptOverride imageBase64)) st1
      | None =>
          let st2 :=
            if attempt =? MAX_ATTEMPTS
            then setGeneratedImages (mapId (id imageToRegen) (withSrc ERROR false)) st1
            else sleep env imageIndex 5000 st1 in
          regenerateLoop env imageIndex imageToRegen promptOverride args
            remaining' (S attempt) st2
      end
  end.

(** [images] is the [generatedImages] the callback closes over; the store
    itself is only reached through the updaters of [setGeneratedImages]. *)
Definition handleRegenerate (env : Env) (props : Props) (images : list GeneratedImage)
    (imageId : jsstring) (promptOverride : option jsstring) (st : State) : State :=
  match findIndex (fun img => bool_decide (id img = imageId)) images with
  | None => st
  | Some imageIndex =>
      match images !! imageIndex with
      | None => st
      | Some imageToRegen =>
          let st := setGeneratedImages (mapId imageId (withLoading true)) st in
          let referenceImage := regenerateReference props images imageToRegen in
          let finalPrompt := default (prompt imageToRegen) promptOverride in
          let args :=
            {| a_prompt := removeDialogue finalPrompt;
               a_storyContext := cleanStoryContext (storyContext props);
               a_artStyle := artStyle props;
               a_aspectRatio := aspectRatio props;
               a_characterRef := findCharacter (characters props) (characterRefId imageToRegen);
               a_previousImage := referenceImage;
               a_isVariant := true |} in
          regenerateLoop env imageIndex imageToRegen promptOverride args MAX_ATTEMPTS 1 st
      end
  end.

(** [handlePromptEditSave], for the image [editingPromptImage] being edited:
    the store is updated, then [handleRegenerate] runs with the images of the
    render in which the editor was opened. *)
Definition handlePromptEditSave (env : Env) (props : Props)
    (editingPromptImage : GeneratedImage) (newScript : jsstring) (st : State) : State :=
  let newPrompt :=
    match promptMatch newScript with
    | Some ((_ :: _) as p) => trim p
    | _ => newScript
    end in
  let imageId := id editingPromptImage in
  let images := generatedImages st in
  let st :=
    setGeneratedImages
      (mapId imageId (fun img =>
         {| id := id img; prompt := newPrompt; src := src img; isLoading := isLoading img;
            characterRefId := characterRefId img; isSelected := isSelected img;
            sceneName := sceneName img; sceneScript := newScript |})) st in
  handleRegenerate env props images imageId (Some newPrompt) st.

End App.

Import App.

(** ** Further string operations of JavaScript *)

Module JsText.

(** [s.split(sep)] for a separator of one character; the result is never
    empty. *)
Fixpoint split (sep : N) (s : jsstring) : list jsstring :=
  match s with
  | [] => [[]]
  | c :: r =>
      if (c =? sep)%N then [] :: split sep r
      else
        match split sep r with
        | piece :: pieces => (c :: piece) :: pieces
        | [] => [[c]]
        end
  end.

(** [s.lastIndexOf(c)], [None] for -1. *)
Fixpoint lastIndexOf (c : N) (s : jsstring) : option nat :=
  match s with
  | [] => None
  | x :: r =>
      match lastIndexOf c r with
      | Some i => Some (S i)
      | None => if (x =? c)%N then Some 0 else None
      end
  end.

(** [[a-z0-9]] under the [i] flag: without the [u] flag no character
    outside ASCII is folded onto an ASCII letter. *)
Definition isAlnum (c : N) : bool :=
  ((97 <=? c)%N && (c <=? 122)%N) || ((65 <=? c)%N && (c <=? 90)%N) || isDigit c.

(** [s.replace(/\s+/g, '_')]: every maximal run of white space becomes one
    underscore; [inRun] tells that the character before was white space. *)
Fixpoint underscoreRuns (inRun : bool) (s : jsstring) : jsstring :=
  match s with
  | [] => []
  | c :: r =>
      if isWhiteSpace c
      then (if inRun then underscoreRuns true r else 95%N :: underscoreRuns true r)
      else c :: underscoreRuns false r
  end.

End JsText.

Import JsText.

(** ** The image editor and the download button of [App] *)

Module Editor.

Definition EDITED : jsstring := Eval vm_compute in utf16 " (đã chỉnh sửa)".
Definition DOT_PNG : jsstring := Eval vm_compute in utf16 ".png".

(** [handleSaveAsNew]; the second component is the new [editingImage]. *)
Definition handleSaveAsNew (env : Env) (editingImage : option GeneratedImage)
    (editedSrc : jsstring) (st : State) : State * option GeneratedImage :=
  match editingImage with
  | None => (st, editingImage)
  | Some e =>
      let newImage :=
        {| id := randomUUID env (uuids st);
           prompt := prompt e;
           src := editedSrc;
           isLoading := isLoading e;
           characterRefId := characterRefId e;
           isSelected := false;
           sceneName := sceneName e ++ EDITED;
           sceneScript := sceneScript e |} in
      (setGeneratedImages (fun prev => prev ++ [newImage]) (takeUUIDs 1 st), None)
  end.

(** The file name [downloadImage] gives to the link:
    [`${name.toLowerCase().replace(/[^a-z0-9\s]/gi, '').replace(/\s+/g, '_')}.png`]. *)
Definition downloadName (env : Env) (name : jsstring) : jsstring :=
  underscoreRuns false
    (List.filter (fun c => isAlnum c || isWhiteSpace c) (toLowerCase env name))
  ++ DOT_PNG.

End Editor.

Import Editor.

(** ** The character registry ([components/CharacterManager.tsx]) *)

Module CharacterManager.

Definition UNNAMED : jsstring := Eval vm_compute in utf16 "Chưa đặt tên".

(** The name [handleFileChange] gives to the character made from a file:
    the file name up to its last dot, when that dot is not the first
    character, and a fixed name when this leaves nothing. *)
Definition fileCharacterName (fileName : jsstring) : jsstring :=
  let characterName :=
    match lastIndexOf 46 fileName with
    | Some (S lastDotIndex) => take (S lastDotIndex) fileName
    | _ => fileName
    end in
  if truthy characterName then characterName else UNNAMED.

(** [updateCharacterName]: the registry given to [onCharactersChange]. *)
Definition updateCharacterName (characters : list Character) (id name : jsstring)
    : list Character :=
  (fun c =>
     if decide (c_id c = id)
     then {| c_id := c_id c; c_name := name; imageBase64 := imageBase64 c;
             mimeType := mimeType c |}
     else c) <$> characters.

(** [deleteCharacter]: the registry given to [onCharactersChange]. *)
Definition deleteCharacter (characters : list Character) (id : jsstring) : list Character :=
  List.filter (fun c => negb (bool_decide (c_id c = id))) characters.

End CharacterManager.

Import CharacterManager.

(** ** The adapter ([services/GeminiService.ts]) *)

Module GeminiService.

Definition IMAGE_PNG : jsstring := Eval vm_compute in utf16 "image/png".
Definition MODEL : jsstring := Eval vm_compute in utf16 "gemini-2.5-flash-image".
Definition FAILED : jsstring :=
  Eval vm_compute in utf16 "Failed to generate image. Check console for details.".

(** The pieces of the instruction text, in the order of the source. *)

Definition ROLE_AND_CONTEXT : jsstring := Eval vm_compute in
  utf16 "**VAI TRÒ & NHIỆM VỤ (QUAN TRỌNG NHẤT):**
BẠN LÀ một họa sĩ storyboard kỳ cựu cho các hãng phim hoạt hình hàng đầu thế giới, một bậc thầy về kể chuyện bằng hình ảnh. Nhiệm vụ của bạn không phải là "
  ++ [34%N]
  ++ utf16 "tạo ảnh"
  ++ [34%N]
  ++ utf16 ", mà là **"
  ++ [34%N]
  ++ utf16 "đạo diễn từng khung hình"
  ++ [34%N]
  ++ utf16 "** để lột tả cảm xúc và câu chuyện một cách sâu sắc nhất.

---

**Bối cảnh câu chuyện tổng thể:**
".

Definition SUPREME_HEADER : jsstring := Eval vm_compute in
  utf16 "

--- MỆNH LỆNH TỐI THƯỢỢNG (TUÂN THỦ TUYỆT ĐỐI) ---
".

Definition ART_QUALITY : jsstring := Eval vm_compute in
  utf16 ". **CHẤT LƯỢNG NGHỆ THUẬT & ĐIỆN ẢNH:**
   - **Tư duy như đạo diễn:** Mỗi khung hình phải là một tác phẩm nghệ thuật, không phải ảnh stock.
   - **Bố cục (Composition):** Sử dụng các quy tắc điện ảnh (một phần ba, đường dẫn, khung trong khung) để tạo chiều sâu và hướng sự chú ý.
   - **Ánh sáng (Lighting):** Dùng ánh sáng để điêu khắc nhân vật, tạo không khí (mood), và dẫn dắt cảm xúc. Ánh sáng phải có mục đích.
   - **Màu sắc (Color):** Bảng màu phải củng cố cảm xúc của cảnh (ấm, lạnh, tương phản...).
   - **Diễn xuất nhân vật (Character Acting):** Biểu cảm và ngôn ngữ cơ thể phải tinh tế, chân thực, và có hồn. Lột tả nội tâm nhân vật.
   - **Không khí (Atmosphere):** Hình ảnh phải có không khí mơ mộng, nghệ thuật, giàu cảm xúc.
".

Definition ART_STYLE_OPEN : jsstring := Eval vm_compute in
  utf16 ". **PHONG CÁCH NGHỆ THUẬT BẮT BUỘC:** Toàn bộ hình ảnh phải tuân thủ nghiêm ngặt theo phong cách sau đây: **".

Definition ART_STYLE_CLOSE : jsstring := Eval vm_compute in
  utf16 "**. Đây là chỉ dẫn quan trọng nhất về mặt thẩm mỹ.
".

Definition CLEAN_IMAGE : jsstring := Eval vm_compute in
  utf16 ". **MỆNH LỆNH BẤT KHẢ XÂM PHẠM: HÌNH ẢNH SẠCH TUYỆT ĐỐI:**
   - **QUY TẮC VÀNG: KHÔNG VĂN BẢN:** Hình ảnh KHÔNG ĐƯỢC PHÉP chứa BẤT KỲ loại văn bản, chữ cái, hay ký tự nào. Đây là luật lệ tối cao và không có ngoại lệ.
   - **CHUYỂN HÓA LỜI THOẠI:** Nếu prompt chứa lời thoại (trong dấu "
  ++ [34%N]
  ++ utf16 "..."
  ++ [34%N]
  ++ utf16 " hoặc '...'), nhiệm vụ của bạn là **CHUYỂN HÓA** nó thành **BIỂU CẢM VÀ HÀNH ĐỘNG**. Ví dụ: thay vì viết chữ "
  ++ [34%N]
  ++ utf16 "Cứu!"
  ++ [34%N]
  ++ utf16 ", hãy vẽ nhân vật đang hét lên với vẻ mặt hoảng sợ. **TUYỆT ĐỐI KHÔNG VIẾT CHỮ LÊN ẢNH.**
   - **CẤM LOGO, WATERMARK, CHỮ KÝ:** TUYỆT ĐỐI không vẽ bất kỳ logo (kể cả logo Gemini), watermark, hay chữ ký nghệ sĩ nào.
   - **HẬU QUẢ:** Việc xuất hiện dù chỉ một ký tự hay logo trên ảnh sẽ bị coi là một thất bại hoàn toàn.
".

Definition SCENE_PROGRESSION : jsstring := Eval vm_compute in
  utf16 ".  **ƯU TIÊN SỰ TIẾN TRIỂN CẢNH:** Hình ảnh phải thể hiện một khoảnh khắc **HOÀN TOÀN MỚI**. Phải ưu tiên tuyệt đối cho câu lệnh của cảnh hiện tại. Bố cục, góc máy và hành động phải khác biệt rõ rệt so với cảnh trước. **KHÔNG ĐƯỢC LẶP LẠI BỐ CỤC CẢNH TRƯỚC.**
".

Definition EXACT_ACTION : jsstring := Eval vm_compute in
  utf16 ".  **HÀNH ĐỘNG CHÍNH XÁC 100%:** Phải phân tích kỹ và thể hiện chính xác tuyệt đối hành động được mô tả trong câu lệnh (ví dụ: "
  ++ [34%N]
  ++ utf16 "nhìn"
  ++ [34%N]
  ++ utf16 " khác với "
  ++ [34%N]
  ++ utf16 "ôm"
  ++ [34%N]
  ++ utf16 ").

".

Definition CONSISTENCY_HEADER : jsstring := Eval vm_compute in
  utf16 "--- QUY TẮC NHẤT QUÁN (ÁP DỤNG SAU KHI ĐÃ TUÂN THỦ MỆNH LỆNH TỐI THƯỢỢNG) ---

".

Definition TWO_REFERENCES_OPEN : jsstring := Eval vm_compute in
  utf16 "**LUẬT VỀ HÌNH ẢNH THAM CHIẾU (CỰC KỲ QUAN TRỌNG):** Bạn được cung cấp HAI (2) hình ảnh tham chiếu đi kèm câu lệnh này.
- **HÌNH 1 (THAM CHIẾU NHÂN VẬT):** Đây là hình ảnh GỐC định nghĩa ngoại hình chuẩn của nhân vật **'".

Definition TWO_REFERENCES_CLOSE : jsstring := Eval vm_compute in
  utf16 "'**. TUYỆT ĐỐI giữ nguyên 100% các đặc điểm nhận dạng (khuôn mặt, kiểu tóc, màu da, và đặc biệt là **TRANG PHỤC**"
  ++ utf16 "). Trang phục trong hình tham chiếu là **LUẬT BẤT BIẾN** và việc thay đổi nó bị coi là một lỗi nghiêm trọng.
- **HÌNH 2 (THAM CHIẾU PHONG CÁCH):** Đây là hình ảnh của cảnh LIỀN KỀ TRƯỚC ĐÓ. BẮT BUỘC phải sao chép và áp dụng y hệt **PHONG CÁCH NGHỆ THUẬT, TÔNG MÀU, VÀ KHÔNG KHÍ ÁNH SÁNG** từ hình ảnh này. Mục tiêu là tạo ra sự liền mạch tuyệt đối, như thể hai cảnh phim được cắt từ cùng một bộ phim.
**VIỆC THAY ĐỔI NHÂN VẬT HOẶC PHONG CÁCH SO VỚI HAI HÌNH THAM CHIẾU NÀY BỊ COI LÀ LỖI NGHIÊM TRỌNG NHẤT.**

".

Definition CHARACTER_REFERENCE_OPEN : jsstring := Eval vm_compute in
  utf16 "**LUẬT VỀ HÌNH ẢNH THAM CHIẾU (CỰC KỲ QUAN TRỌNG):** Bạn được cung cấp MỘT (1) hình ảnh tham chiếu GỐC của nhân vật **'".

Definition CHARACTER_REFERENCE_CLOSE : jsstring := Eval vm_compute in
  utf16 "'**. TUYỆT ĐỐI giữ nguyên 100% các đặc điểm nhận dạng (khuôn mặt, kiểu tóc, màu da, và đặc biệt là **TRANG PHỤC**"
  ++ utf16 "). Trang phục trong hình tham chiếu là **LUẬT BẤT BIẾN** và việc thay đổi nó bị coi là một lỗi nghiêm trọng.

".

Definition PREVIOUS_REFERENCE : jsstring := Eval vm_compute in
  utf16 "**LUẬT VỀ HÌNH ẢNH THAM CHIẾU (CỰC KỲ QUAN TRỌNG):** Bạn được cung cấp MỘT (1) hình ảnh tham chiếu là cảnh LIỀN KỀ TRƯỚC ĐÓ. BẮT BUỘC phải sao chép và áp dụng y hệt **PHONG CÁCH NGHỆ THUẬT, TÔNG MÀU, VÀ KHÔNG KHÍ ÁNH SÁNG** từ hình ảnh này để đảm bảo sự liền mạch.

".

Definition REMEMBER_SETTING : jsstring := Eval vm_compute in
  utf16 "- **GHI NHỚ BỐI CẢNH:** Khi một địa điểm đã được thiết lập (ví dụ: một căn phòng có cái đèn), các yếu tố kiến trúc và đồ đạc chính của nó **BẮT BUỘC PHẢI ĐƯỢC GIỮ NGUYÊN** trong các cảnh sau diễn ra tại cùng địa điểm.
".

Definition TIME_AND_PLACE : jsstring := Eval vm_compute in
  utf16 "- **LOGIC THỜI GIAN VÀ ĐỊA ĐIỂM:** Phải duy trì sự liên tục và hợp lý. **Hãy phân tích và tuân thủ chặt chẽ các chi tiết về thời gian (sáng, tối, ngày, đêm) và địa điểm được cung cấp.**

".

Definition SCENE_PROMPT_HEADER : jsstring := Eval vm_compute in
  utf16 "--- PROMPT CỤ THỂ CHO CẢNH NÀY ---
".

(** A part of a request or of a response: a text, or inline data. *)
Record Blob := {
  b_mimeType : jsstring;
  b_data : option jsstring
}.

Record Part := {
  p_text : option jsstring;
  p_inlineData : option Blob
}.

Definition textPart (text : jsstring) : Part :=
  {| p_text := Some text; p_inlineData := None |}.

Definition inlineDataPart (mime : jsstring) (data : option jsstring) : Part :=
  {| p_text := None; p_inlineData := Some {| b_mimeType := mime; b_data := data |} |}.

(** The request given to [models.generateContent]; the response modality is
    always [Modality.IMAGE]. *)
Record Request := {
  r_model : jsstring;
  r_parts : list Part;
  r_aspectRatio : AspectRatio
}.

Record Content := { parts : option (list Part) }.
Record Candidate := { content : option Content }.
Record Response := { candidates : option (list Candidate) }.

(** The host of the adapter: [process.env.API_KEY] (empty when not set) and
    the service, which answers a request with a response or rejects. *)
Record Host := {
  API_KEY : jsstring;
  generateContent : jsstring -> Request -> option Response
}.

(** A settled promise of [generateImage]. *)
Inductive Result :=
| Resolved (data : option jsstring)
| Rejected (message : jsstring).

(** [getAiInstance]: the module keeps the instance it made, here the key it
    was made with; [None] is the thrown error. *)
Definition getAiInstance (host : Host) (ai : option jsstring) : option jsstring :=
  match ai with
  | Some key => Some key
  | None => if truthy (API_KEY host) then Some (API_KEY host) else None
  end.

(** Truthiness of [previousImageBase64]. *)
Definition previousImage (args : CallArgs) : option jsstring :=
  match a_previousImage args with
  | Some ((_ :: _) as previousImageBase64) => Some previousImageBase64
  | _ => None
  end.

(** The text of the request. *)
Definition finalPrompt (args : CallArgs) : jsstring :=
  let finalPrompt := ROLE_AND_CONTEXT ++ a_storyContext args ++ SUPREME_HEADER in
  let commandCounter := 1%N in
  let finalPrompt := finalPrompt ++ numberToString commandCounter ++ ART_QUALITY in
  let commandCounter := (commandCounter + 1)%N in
  let '(finalPrompt, commandCounter) :=
    if truthy (a_artStyle args) && truthy (trim (a_artStyle args))
    then (finalPrompt ++ numberToString commandCounter ++ ART_STYLE_OPEN
            ++ trim (a_artStyle args) ++ ART_STYLE_CLOSE,
          (commandCounter + 1)%N)
    else (finalPrompt, commandCounter) in
  let finalPrompt := finalPrompt ++ numberToString commandCounter ++ CLEAN_IMAGE in
  let commandCounter := (commandCounter + 1)%N in
  let '(finalPrompt, commandCounter) :=
    if negb (a_isVariant args)
    then (finalPrompt ++ numberToString commandCounter ++ SCENE_PROGRESSION,
          (commandCounter + 1)%N)
    else (finalPrompt, commandCounter) in
  let finalPrompt := finalPrompt ++ numberToString commandCounter ++ EXACT_ACTION in
  let finalPrompt := finalPrompt ++ CONSISTENCY_HEADER in
  let finalPrompt :=
    match a_characterRef args, previousImage args with
    | Some characterRef, Some _ =>
        finalPrompt ++ TWO_REFERENCES_OPEN ++ c_name characterRef ++ TWO_REFERENCES_CLOSE
    | Some characterRef, None =>
        finalPrompt ++ CHARACTER_REFERENCE_OPEN ++ c_name characterRef
          ++ CHARACTER_REFERENCE_CLOSE
    | None, Some _ => finalPrompt ++ PREVIOUS_REFERENCE
    | None, None => finalPrompt
    end in
  let finalPrompt := finalPrompt ++ REMEMBER_SETTING in
  let finalPrompt := finalPrompt ++ TIME_AND_PLACE in
  let finalPrompt := finalPrompt ++ SCENE_PROMPT_HEADER in
  finalPrompt ++ a_prompt args.

(** The parts of the request: the text, in front of it the image of the
    previous scene, and in front of that the image of the character. *)
Definition requestParts (args : CallArgs) : list Part :=
  let parts := [textPart (finalPrompt args)] in
  let parts :=
    match previousImage args with
    | Some previousImageBase64 =>
        let base64Data := split 44 previousImageBase64 !! 1 in
        inlineDataPart IMAGE_PNG base64Data :: parts
    | None => parts
    end in
  match a_characterRef args with
  | Some characterRef =>
      inlineDataPart (mimeType characterRef) (Some (imageBase64 characterRef)) :: parts
  | None => parts
  end.

(** [response.candidates?.[0]?.content?.parts ?? []] *)
Definition responseParts (response : Response) : list Part :=
  match candidates response with
  | Some (candidate :: _) =>
      match content candidate with
      | Some c => default [] (parts c)
      | None => []
      end
  | _ => []
  end.

(** [generateImage]: whatever is thrown inside the [try] block, by
    [getAiInstance], by the service or for a response without image, is
    caught and replaced by one error.  The second component is the instance
    the module holds afterwards. *)
Definition generateImage (host : Host) (ai : option jsstring) (args : CallArgs)
    : Result * option jsstring :=
  match getAiInstance host ai with
  | None => (Rejected FAILED, ai)
  | Some key =>
      let request :=
        {| r_model := MODEL; r_parts := requestParts args;
           r_aspectRatio := a_aspectRatio args |} in
      match generateContent host key request with
      | None => (Rejected FAILED, Some key)
      | Some response =>
          match List.find (fun part => bool_decide (is_Some (p_inlineData part)))
                  (responseParts response) with
          | Some part => (Resolved (p_inlineData part ≫= b_data), Some key)
          | None => (Rejected FAILED, Some key)
          end
      end
  end.

End GeminiService.

(** * The vocabulary of the properties *)

(** ** Traces *)

(** The events one scene may leave in the trace: at most [MAX_ATTEMPTS] calls,
    a pause of five seconds after each failed call but the last, and nothing
    after a call that resolved.  The index is the value of [generatedBase64]
    when the loop ends. *)
Inductive Attempts (i : nat) (args : CallArgs) : option jsstring -> list Event -> Prop :=
| attempts_first p :
    Attempts i args (Some p) [EvCall i 1 args (Some p)]
| attempts_second p :
    Attempts i args (Some p)
      [EvCall i 1 args None; EvSleep i 5000%N; EvCall i 2 args (Some p)]
| attempts_third p :
    Attempts i args (Some p)
      [EvCall i 1 args None; EvSleep i 5000%N; EvCall i 2 args None; EvSleep i 5000%N;
       EvCall i 3 args (Some p)]
| attempts_exhausted :
    Attempts i args None
      [EvCall i 1 args None; EvSleep i 5000%N; EvCall i 2 args None; EvSleep i 5000%N;
       EvCall i 3 args None].

Definition eventScene (e : Event) : option nat :=
  match e with
  | EvCall i _ _ _ | EvSleep i _ => Some i
  | EvPublish _ => None
  end.

(** The calls and pauses of scene [i] in a trace. *)
Definition sceneEvents (i : nat) (evs : list Event) : list Event :=
  filter (fun e => eventScene e = Some i) evs.

Definition isCall (e : Event) : bool :=
  match e with EvCall _ _ _ _ => true | _ => false end.

Definition isFailedCall (e : Event) : bool :=
  match e with EvCall _ _ _ None => true | _ => false end.

Definition isSleep (e : Event) : bool :=
  match e with EvSleep _ _ => true | _ => false end.

Definition count (f : Event -> bool) (evs : list Event) : nat :=
  length (List.filter f evs).

(** The part of the state the loops never write. *)
Record sameFrame (st st' : State) : Prop := {
  same_isGenerating : isGenerating st' = isGenerating st;
  same_error : error st' = error st;
  same_uuids : uuids st' = uuids st
}.

Definition scenesBelow (i : nat) (evs : list Event) : Prop :=
  Forall (fun e => forall k, eventScene e = Some k -> k < i) evs.

(** The content of the store an observer has seen last. *)
Definition publication (e : Event) : option (list GeneratedImage) :=
  match e with
  | EvPublish images => Some images
  | _ => None
  end.

Definition lastPublished (tr : list Event) : option (list GeneratedImage) :=
  last (omap publication tr).

(** ** The chained loop

    The loops of [handleGenerate] and [handleRegenerateAll] are the same
    text up to four places: the [isVariant] flag, what a cancellation writes,
    what a failure leaves in the chain array, and how the store is written.
    [chainStep] has these as parameters, so that both loops are studied
    once. *)

Record Variant := {
  v_isVariant : bool;
  v_cancel : GeneratedImage -> GeneratedImage;
  v_failEntry : option jsstring;
  v_write : nat -> (GeneratedImage -> GeneratedImage) -> list GeneratedImage -> list GeneratedImage
}.

Definition chainStep (v : Variant) (env : Env) (props : Props) (i : nat) (image : GeneratedImage)
    (chain : list (option jsstring)) (st : State)
    : State * list (option jsstring) + State :=
  if isStopping st then
    inr (setGeneratedImages (mapFrom i (v_cancel v)) st)
  else
    let referenceImage := if 0 <? i then mjoin (chain !! (i - 1)) else None in
    let '(generatedBase64, st1) :=
      attemptLoop env i (callArgs env props image referenceImage (v_isVariant v)) MAX_ATTEMPTS 1 st in
    if isStopping st1 then
      inr (setGeneratedImages (mapFrom i (v_cancel v)) st1)
    else
      match generatedBase64 with
      | Some ((_ :: _) as base64) =>
          let newSrc := dataUrl base64 in
          inl (setGeneratedImages (v_write v i (withSrc newSrc false)) st1,
               assign None i (Some newSrc) chain)
      | _ =>
          inl (setGeneratedImages (v_write v i (withSrc ERROR false)) st1,
               assign None i (v_failEntry v) chain)
      end.

Fixpoint chainLoop (v : Variant) (env : Env) (props : Props) (todo : list GeneratedImage)
    (i : nat) (chain : list (option jsstring)) (st : State) : State :=
  match todo with
  | [] => st
  | image :: todo' =>
      match chainStep v env props i image chain st with
      | inl (st', chain') => chainLoop v env props todo' (S i) chain' st'
      | inr st' => st'
      end
  end.

Definition fullRun : Variant :=
  {| v_isVariant := false; v_cancel := withSrc CANCELLED false; v_failEntry := None;
     v_write := assignImage |}.

Definition refinement : Variant :=
  {| v_isVariant := true; v_cancel := withLoading false; v_failEntry := Some ERROR;
     v_write := fun i f => alter f i |}.

(** What an attempt sequence that ended with [r] contributes to the chain,
    and the [src] written to the store for it. *)
Definition chainEntry (r : option jsstring) : option jsstring :=
  match r with
  | Some ((_ :: _) as p) => Some (dataUrl p)
  | _ => None
  end.

Definition resultSrc (r : option jsstring) : jsstring := default ERROR (chainEntry r).

Section ChainSpec.

Context (v : Variant) (env : Env) (props : Props).
Context (imgs base : list GeneratedImage) (st0 : State).

(** The entry of the chain array for a scene whose attempts ended with [r]. *)
Definition entry (r : option jsstring) : option jsstring :=
  match chainEntry r with
  | Some u => Some u
  | None => v_failEntry v
  end.

(** The reference image of scene [k], given the outcomes [rs] of the scenes
    before it. *)
Definition reference (rs : list (option jsstring)) (k : nat) : option jsstring :=
  match k with
  | 0 => None
  | S j => rs !! j ≫= entry
  end.

(** Scene [k] went through its attempts, which ended with [r], and its
    result was written. *)
Definition SceneDone (evs : list Event) (rs : list (option jsstring))
    (store : list GeneratedImage) (k : nat) (r : option jsstring) : Prop :=
  exists image b,
    imgs !! k = Some image /\ base !! k = Some b /\
    Attempts k (callArgs env props image (reference rs k) (v_isVariant v)) r
      (sceneEvents k evs) /\
    store !! k = Some (withSrc (resultSrc r) false b).

Definition Inv (i : nat) (chain : list (option jsstring)) (st : State) : Prop :=
  exists evs rs,
    trace st = trace st0 ++ evs /\
    sameFrame st0 st /\
    length rs = i /\ i <= length imgs /\
    isStopping st = false /\
    length chain = length imgs /\
    (forall k r, rs !! k = Some r -> chain !! k = Some (entry r)) /\
    length (generatedImages st) = length imgs /\
    (forall k r, rs !! k = Some r -> SceneDone evs rs (generatedImages st) k r) /\
    (forall k, i <= k -> generatedImages st !! k = base !! k) /\
    scenesBelow i evs /\
    lastPublished (trace st) = Some (generatedImages st) /\
    (forall images k, EvPublish images ∈ evs -> i <= k -> images !! k = base !! k).

(** What is known when the loop is over: [rs] are the outcomes of the scenes
    that were carried through; when the stop flag is set the loop was left at
    scene [length rs], after the attempts of that scene. *)
Definition Summary (evs : list Event) (rs : list (option jsstring)) (st' : State) : Prop :=
    trace st' = trace st0 ++ evs /\
    sameFrame st0 st' /\
    length (generatedImages st') = length imgs /\
    (forall k r, rs !! k = Some r -> SceneDone evs rs (generatedImages st') k r) /\
    if isStopping st' then
      scenesBelow (S (length rs)) evs /\
      (exists image r,
          imgs !! length rs = Some image /\
          Attempts (length rs)
            (callArgs env props image (reference rs (length rs)) (v_isVariant v)) r
            (sceneEvents (length rs) evs)) /\
      (forall k, length rs <= k -> generatedImages st' !! k = v_cancel v <$> base !! k) /\
      (exists evs' before,
          evs = evs' ++ [EvPublish (generatedImages st')] /\
          lastPublished (trace st0 ++ evs') = Some before /\
          forall k, k < length rs -> generatedImages st' !! k = before !! k) /\
      (forall images k, EvPublish images ∈ evs -> length rs <= k ->
          images !! k = base !! k \/ images !! k = v_cancel v <$> base !! k)
    else
      scenesBelow (length rs) evs /\ length rs = length imgs.

Definition Outcome (st' : State) : Prop := exists evs rs, Summary evs rs st'.

End ChainSpec.

(** ** The three procedures *)

(** The scenes a run works on, and the results it creates for them. *)
Definition scenesOf (props : Props) : list Scene :=
  take (batchSize props) (parsePrompts (promptsText props)).

Definition initialImages (env : Env) (props : Props) (st : State) : list GeneratedImage :=
  imap (initialImage env props (uuids st)) (scenesOf props).

(** The state in which the loop of [handleGenerate] starts. *)
Definition generateStart (env : Env) (props : Props) (st : State) : State :=
  setGeneratedImages (fun _ => initialImages env props st)
    (takeUUIDs (length (scenesOf props))
       (setGeneratedImages (fun _ => [])
          (setError None (setIsGenerating true (setIsStopping false st))))).

(** [handleRegenerateAll] returns at once unless this holds. *)
Definition canRegenerateAll (st : State) : Prop :=
  isGenerating st = false /\ generatedImages st <> [].

Definition seedSrcs (originalImages : list GeneratedImage) : list (option jsstring) :=
  (fun img => if startsWith (src img) DATA_IMAGE then Some (src img) else None)
    <$> originalImages.

(** The state in which the loop of [handleRegenerateAll] starts. *)
Definition regenerateAllStart (st : State) : State :=
  setGeneratedImages (fmap (withLoading true))
    (setError None (setIsGenerating true (setIsStopping false st))).

(** The image [handleRegenerate] writes when its attempts ended with [r]. *)
Definition regenerateResult (imageToRegen : GeneratedImage) (promptOverride : option jsstring)
    (r : option jsstring) : GeneratedImage -> GeneratedImage :=
  match r with
  | Some imageBase64 => regenerated imageToRegen promptOverride imageBase64
  | None => withSrc ERROR false
  end.

(** The arguments [handleRegenerate] calls the adapter with. *)
Definition regenerateArgs (props : Props) (images : list GeneratedImage)
    (imageToRegen : GeneratedImage) (promptOverride : option jsstring) : CallArgs :=
  {| a_prompt := removeDialogue (default (prompt imageToRegen) promptOverride);
     a_storyContext := cleanStoryContext (storyContext props);
     a_artStyle := artStyle props;
     a_aspectRatio := aspectRatio props;
     a_characterRef := findCharacter (characters props) (characterRefId imageToRegen);
     a_previousImage := regenerateReference props images imageToRegen;
     a_isVariant := true |}.

Inductive Procedure :=
| FullRun
| RegenerateAll
| RegenerateOne (imageId : jsstring) (promptOverride : option jsstring).

(** A single-scene regeneration is started from a tile of the current store:
    the images its callback closes over are those of the state. *)
Definition run (proc : Procedure) (env : Env) (props : Props) (st : State) : State :=
  match proc with
  | FullRun => handleGenerate env props st
  | RegenerateAll => handleRegenerateAll env props st
  | RegenerateOne imageId promptOverride =>
      handleRegenerate env props (generatedImages st) imageId promptOverride st
  end.

(** The [src] a procedure writes for a scene whose attempts ended with [r]:
    the two loops test [success && generatedBase64] and so treat an empty
    payload as a failure; [handleRegenerate] has no such test. *)
Definition markedSrc (proc : Procedure) (r : option jsstring) : jsstring :=
  match proc, r with
  | RegenerateOne _ _, Some p => dataUrl p
  | _, _ => resultSrc r
  end.

Definition checksPayload (proc : Procedure) : bool :=
  match proc with RegenerateOne _ _ => false | _ => true end.

(** The result of scene [i] was not overtaken by a cancellation: the
    procedure does not look at the stop flag, or the flag is not set when it
    ends, or a later scene was attempted. *)
Definition notCancelledAt (proc : Procedure) (st' : State) (evs : list Event) (i : nat) : Prop :=
  match proc with
  | RegenerateOne _ _ => True
  | _ => isStopping st' = false \/
         exists k attempt args r, i < k /\ EvCall k attempt args r ∈ evs
  end.

(** ** Concrete hosts, scripts and stores *)

Module Examples.

(** [toLowerCase] on the letters A to Z, which is all the examples need. *)
Definition asciiLowerCase (s : jsstring) : jsstring :=
  (fun c => if (65 <=? c)%N && (c <=? 90)%N then (c + 32)%N else c) <$> s.

(** A host whose adapter answers its [k]-th call with [adapter k] and whose
    user presses the stop button during the [k]-th await when [stop k]. *)
Definition host (adapter : nat -> option jsstring) (stop : nat -> bool) : Env :=
  {| generateImage := fun k _ => adapter k;
     stopPressed := stop;
     randomUUID := fun k => utf16 "id-" ++ numberToString (N.of_nat k);
     toLowerCase := asciiLowerCase |}.

Definition never : nat -> bool := fun _ => false.
Definition during (k : nat) : nat -> bool := fun n => n =? k.

Definition AAAA : jsstring := Eval vm_compute in utf16 "AAAA".
Definition BBBB : jsstring := Eval vm_compute in utf16 "BBBB".

Definition sceneText (n : N) (body : jsstring) : jsstring :=
  CANH ++ numberToString n ++ utf16 ": canh" ++ [10%N]
  ++ PROMPT_LABEL ++ 32%N :: body ++ [10%N]
  ++ NHAN_VAT ++ utf16 " Anna" ++ [10%N].

(** A script of [n] scenes numbered from 1. *)
Definition scriptOf (n : nat) : jsstring :=
  concat ((fun k => sceneText (N.of_nat (S k)) (utf16 "A dog runs.")) <$> seq 0 n).

Definition propsOf (text : jsstring) : Props :=
  {| storyContext := utf16 "A story."; artStyle := utf16 "ink"; promptsText := text;
     aspectRatio := Ratio16x9; batchSize := 10; characters := [] |}.

Definition idle (images : list GeneratedImage) : State :=
  {| generatedImages := images; isGenerating := false; error := None; isStopping := false;
     calls := 0; awaits := 0; uuids := 0; trace := [] |}.

(** The calls of a trace, as (scene, attempt, continuity reference, outcome). *)
Definition callsOf (tr : list Event)
    : list (nat * nat * option jsstring * option jsstring) :=
  omap (fun e => match e with
                 | EvCall i a args r => Some (i, a, a_previousImage args, r)
                 | _ => None
                 end) tr.

Definition tile (n : N) (s : jsstring) : GeneratedImage :=
  {| id := utf16 "tile-" ++ numberToString n;
     prompt := utf16 "A dog runs.";
     src := s; isLoading := false; characterRefId := None; isSelected := false;
     sceneName := CANH ++ numberToString n;
     sceneScript := trim (sceneText n (utf16 "A dog runs.")) |}.

End Examples.

Import Examples.

(** A run of three scenes that all succeed at once: the first call resolves
    with [AAAA], the others with [BBBB]. *)
Definition chainHost : Env := host (fun k => Some (if k =? 0 then AAAA else BBBB)) never.
Definition chainProps : Props := propsOf (scriptOf 3).
Definition chainEvents : list Event := trace (handleGenerate chainHost chainProps (idle [])).
Definition chainArgs : CallArgs :=
  {| a_prompt := utf16 "A dog runs."; a_storyContext := utf16 "A story.";
     a_artStyle := utf16 "ink"; a_aspectRatio := Ratio16x9; a_characterRef := None;
     a_previousImage := Some (dataUrl BBBB); a_isVariant := false |}.

(** A run of three scenes in which the first scene succeeds and the user
    presses the stop button during the first pause of the second scene. *)
Definition stopHost : Env := host (fun k => if k =? 0 then Some AAAA else None) (during 2).
Definition stopEvents : list Event := trace (handleGenerate stopHost chainProps (idle [])).

(** Stores left by earlier runs. *)
Definition twoTiles : list GeneratedImage := [tile 1 (dataUrl AAAA); tile 2 (dataUrl AAAA)].

Definition mixedTiles : list GeneratedImage := [tile 1 (dataUrl AAAA); tile 2 ERROR].

(** The user presses the stop button during the first call. *)
Definition pressAtOnce : Env := host (fun _ => Some BBBB) (during 0).

Definition pressEvents : list Event :=
  trace (handleRegenerateAll pressAtOnce chainProps (idle mixedTiles)).

(** Two failures, then a success: the scenario of the specification. *)
Definition thirdTime : Env := host (fun k => if k <? 2 then None else Some AAAA) never.
Definition thirdTimeEvents : list Event :=
  trace (handleGenerate thirdTime (propsOf (scriptOf 1)) (idle [])).

(** A full run over ten scenes: the first scene fails three times, the next
    eight succeed at once, and the user presses the stop button during the
    call of the tenth. *)
Definition tenHost : Env := host (fun k => if k <? 3 then None else Some AAAA) (during 13).
Definition tenProps : Props := propsOf (scriptOf 10).
Definition afterTen : State := handleGenerate tenHost tenProps (idle []).

(** The script of a result, before and after the user edits its prompt. *)
Definition dogScript : jsstring := trim (sceneText 1 (utf16 "A dog runs.")).
Definition catScript : jsstring := trim (sceneText 1 (utf16 "A cat sleeps.")).

(** ** Blocks of a script *)

(** The test [promptMatch && promptMatch[1]] of [parsePrompts], in terms of
    the block: the label occurs, and the rest of the block after it, the
    lines of later fields included, is not white space only. *)
Definition hasPromptText (block : jsstring) : Prop :=
  exists before after,
    block = before ++ PROMPT_LABEL ++ after /\
    Exists (fun c => isWhiteSpace c = false) after.

(** The prompt field as the description of the parser words it: the content
    that follows the first prompt label, ended by the next field label or by
    the end of the block.  The field labels are those of the lookahead of
    [promptRegex]. *)
Definition promptField (block : jsstring) : option jsstring :=
  match find_sub PROMPT_LABEL block with
  | Some (_, after) => Some (lazyUntil promptStop after)
  | None => None
  end.

(** A block whose prompt field is empty: the character field starts on the
    line after the prompt label. *)
Definition blankPromptBlock : jsstring :=
  utf16 "Cảnh 1: a" ++ [10%N] ++ PROMPT_LABEL ++ NL_NHAN_VAT ++ utf16 " Anna".

(** The same block with a text in the prompt field. *)
Definition filledPromptBlock : jsstring :=
  utf16 "Cảnh 1: a" ++ [10%N] ++ PROMPT_LABEL ++ utf16 " A dog runs."
    ++ NL_NHAN_VAT ++ utf16 " Anna".

(** Two scenes and a block without a prompt field. *)
Definition mixedScript : jsstring :=
  utf16 "Intro. " ++ scriptOf 2 ++ utf16 "Cảnh 3: no prompt in this block".

Definition lastBlock : jsstring := utf16 "Cảnh 3: no prompt in this block".

(** ** Vocabulary of the further properties *)

(** A text without quotation marks of either kind. *)
Definition quoteFree (s : jsstring) : Prop :=
  Forall (fun c => c <> 34%N /\ c <> 39%N) s.

(** A text without comma, as every base64 payload is. *)
Definition commaFree (s : jsstring) : Prop := Forall (fun c => c <> 44%N) s.

(** The prompt [handlePromptEditSave] takes from the edited script. *)
Definition promptOfScript (newScript : jsstring) : jsstring :=
  match promptMatch newScript with
  | Some ((_ :: _) as p) => trim p
  | _ => newScript
  end.

(** The number of scenes a procedure goes through at most. *)
Definition workload (proc : Procedure) (props : Props) (st : State) : nat :=
  match proc with
  | FullRun => length (scenesOf props)
  | RegenerateAll => length (generatedImages st)
  | RegenerateOne _ _ => 1
  end.

(** The scenes of the calls and pauses of a trace, in order. *)
Definition sceneOrder (evs : list Event) : list nat := omap eventScene evs.

(** The image part of the character of a call, if it has one. *)
Definition characterParts (args : CallArgs) : list GeminiService.Part :=
  match a_characterRef args with
  | Some characterRef =>
      [GeminiService.inlineDataPart (mimeType characterRef) (Some (imageBase64 characterRef))]
  | None => []
  end.

(** The test of [resolveCharacter] for one character. *)
Definition nameMatches (env : Env) (name : jsstring) (c : Character) : bool :=
  includes (toLowerCase env name) (toLowerCase env (c_name c)).

(** [[A-Za-z0-9_]] *)
Definition isWordChar (c : N) : bool := isAlnum c || (c =? 95)%N.

(** Scene 32 of the script the application starts with. *)
Definition scene32 : Scene :=
  {| s_prompt := utf16 "A dog runs."; characterName := utf16 "Claire Hartley";
     fullText := utf16 "Cảnh 32: x"; sceneNumber := 32 |}.

(** A text whose only quotation marks, if any, are [q]. *)
Definition quotesOnly (q : N) (s : jsstring) : Prop :=
  Forall (fun c => c = q \/ (c <> 34%N /\ c <> 39%N)) s.

(** Pieces of a prompt with dialogue in it. *)
Definition SHE_ASKS : jsstring := Eval vm_compute in utf16 "She asks, ".
Definition IS_HE_HURT : jsstring := Eval vm_compute in utf16 "Is he hurt? Does he have a collar?".
Definition SOFTLY : jsstring := Eval vm_compute in utf16 " softly.".
Definition CLOSE_UP_ON : jsstring := Eval vm_compute in utf16 "close-up on ".
Definition CLAIRE_HARTLEY : jsstring := Eval vm_compute in utf16 "Claire Hartley".
Definition AS_SHE_ASKS_THE : jsstring :=
  Eval vm_compute in utf16 " (early 60s, kind eyes), as she asks the ".
Definition PRACTICAL : jsstring := Eval vm_compute in utf16 "practical".
Definition QUESTIONS : jsstring := Eval vm_compute in utf16 " questions.".

(** The events of [n] scenes from scene [i] on, paced as the retry loop
    paces them: at most [MAX_ATTEMPTS] calls and one pause less in all for
    each of the [n] scenes, and so many at most among the events of any one
    scene; the scenes in ascending order; every pause five seconds long. *)
Definition paced (i n : nat) (evs : list Event) : Prop :=
  count isCall evs <= MAX_ATTEMPTS * n /\
  count isSleep evs <= (MAX_ATTEMPTS - 1) * n /\
  Forall (fun k => i <= k < i + n) (sceneOrder evs) /\
  StronglySorted le (sceneOrder evs) /\
  Forall (fun e => forall k ms, e = EvSleep k ms -> ms = 5000%N) evs /\
  (forall k, count isCall (sceneEvents k evs) <= MAX_ATTEMPTS /\
             count isSleep (sceneEvents k evs) <= MAX_ATTEMPTS - 1).

(** The script editor, saved with a new prompt, on a store of one result. *)
Definition editHost : Env := host (fun _ => Some BBBB) never.
Definition editEvents : list Event :=
  trace (handlePromptEditSave editHost (propsOf dogScript) (tile 1 (dataUrl AAAA)) catScript
           (idle [tile 1 (dataUrl AAAA)])).
Definition editArgs : CallArgs :=
  {| a_prompt := utf16 "A cat sleeps."; a_storyContext := utf16 "A story.";
     a_artStyle := utf16 "ink"; a_aspectRatio := Ratio16x9; a_characterRef := None;
     a_previousImage := None; a_isVariant := true |}.

(** A registry of two characters. *)
Definition anna : Character :=
  {| c_id := utf16 "c-1"; c_name := utf16 "Anna"; imageBase64 := AAAA;
     mimeType := utf16 "image/png" |}.
Definition ben : Character :=
  {| c_id := utf16 "c-2"; c_name := utf16 "Ben"; imageBase64 := BBBB;
     mimeType := utf16 "image/jpeg" |}.

(** The run of three scenes with these two characters in the registry; the
    character field of every scene names Anna.  [castArgs] are the
    arguments of the call of the first scene. *)
Definition castProps : Props :=
  {| storyContext := utf16 "A story."; artStyle := utf16 "ink";
     promptsText := scriptOf 3; aspectRatio := Ratio16x9; batchSize := 10;
     characters := [ben; anna] |}.
Definition castEvents : list Event :=
  trace (handleGenerate chainHost castProps (idle [])).
Definition castArgs : CallArgs :=
  {| a_prompt := utf16 "A dog runs."; a_storyContext := utf16 "A story.";
     a_artStyle := utf16 "ink"; a_aspectRatio := Ratio16x9; a_characterRef := Some anna;
     a_previousImage := None; a_isVariant := false |}.

(** Regenerate-all over two results with an adapter that always fails. *)
Definition failHost : Env := host (fun _ => None) never.
Definition failEvents : list Event :=
  trace (handleRegenerateAll failHost chainProps (idle twoTiles)).
Definition failArgs : CallArgs :=
  {| a_prompt := utf16 "A dog runs."; a_storyContext := utf16 "A story.";
     a_artStyle := utf16 "ink"; a_aspectRatio := Ratio16x9; a_characterRef := None;
     a_previousImage := Some ERROR; a_isVariant := true |}.

(** No payload of a resolved call of the trace holds a comma. *)
Definition payloadsCommaFree (evs : list Event) : bool :=
  forallb (fun e =>
             match e with
             | EvCall _ _ _ (Some p) => forallb (fun c => negb (c =? 44)%N) p
             | _ => true
             end) evs.

(** A host that differs from [env] by what the user does. *)
Definition withUser (stop : nat -> bool) (env : Env) : Env :=
  {| generateImage := generateImage env; stopPressed := stop;
     randomUUID := randomUUID env; toLowerCase := toLowerCase env |}.

(** A block whose character field is left empty, in pieces. *)
Definition EMPTY_FIELD_HEAD : jsstring :=
  Eval vm_compute in
    utf16 "Cảnh 1: a" ++ [10%N] ++ PROMPT_LABEL ++ utf16 " A dog runs." ++ [10%N].
Definition DURATION_LINE : jsstring := Eval vm_compute in utf16 "Thời lượng ảnh: 5 giây".
Definition emptyFieldBlock : jsstring :=
  EMPTY_FIELD_HEAD ++ NHAN_VAT ++ [10%N] ++ DURATION_LINE.

(** A block with its fields on one line each, in pieces. *)
Definition PLAIN_HEAD : jsstring := Eval vm_compute in utf16 "Cảnh 1: a" ++ [10%N].
Definition A_DOG_RUNS : jsstring := Eval vm_compute in utf16 "A dog runs.".
Definition ANNA_LINE : jsstring := Eval vm_compute in NL_NHAN_VAT ++ utf16 " Anna".
Definition plainBlock : jsstring := PLAIN_HEAD ++ PROMPT_LABEL ++ [32%N] ++ A_DOG_RUNS ++ ANNA_LINE.

(** The labels of the fields that follow the prompt in a block. *)
Definition fieldLabels : list jsstring :=
  [utf16 "Nhân vật:"; utf16 "Thời lượng ảnh:"; utf16 "Ken Burns Effect:"].

(** Blocks in which the prompt is followed by the duration of the image, and
    by the camera effect. *)
Definition durationBlock : jsstring :=
  utf16 "Cảnh 4: d" ++ [10%N] ++ utf16 "Prompt (Câu lệnh tiếng Anh): A dog runs."
    ++ [10%N] ++ utf16 "Thời lượng ảnh: 5 giây" ++ [10%N] ++ utf16 "Nhân vật: Anna".
Definition effectBlock : jsstring :=
  utf16 "Cảnh 5: e" ++ [10%N] ++ utf16 "Prompt (Câu lệnh tiếng Anh): A dog runs."
    ++ [10%N] ++ utf16 "Ken Burns Effect: zoom in" ++ [10%N] ++ utf16 "Nhân vật: Anna".

(** * Properties *)

(** ** The retry loop *)

Lemma Attempts_scene i args r evs :
  Attempts i args r evs -> Forall (fun e => eventScene e = Some i) evs.
Proof. destruct 1; repeat constructor. Qed.

Lemma Attempts_nonempty i args r evs : Attempts i args r evs -> evs <> [].
Proof. by destruct 1. Qed.

Lemma Attempts_call i args r evs :
  Attempts i args r evs -> exists a r', EvCall i a args r' ∈ evs.
Proof. destruct 1; eexists _, _; apply list_elem_of_here. Qed.

Lemma Attempts_In_call i args r evs k a args' r' :
  Attempts i args r evs -> EvCall k a args' r' ∈ evs ->
  k = i /\ args' = args /\ 1 <= a <= MAX_ATTEMPTS /\ (forall p, r' = Some p -> r = Some p).
Proof.
  unfold MAX_ATTEMPTS.
  destruct 1; intros Hin;
    repeat (apply elem_of_cons in Hin as [Hin|Hin];
            [inversion Hin; subst; repeat split; (lia || congruence)|]);
    by apply elem_of_nil in Hin.
Qed.

Lemma Attempts_In_sleep i args r evs k ms :
  Attempts i args r evs -> EvSleep k ms ∈ evs -> k = i /\ ms = 5000%N.
Proof.
  destruct 1; intros Hin;
    repeat (apply elem_of_cons in Hin as [Hin|Hin];
            [inversion Hin; subst; by split|]);
    by apply elem_of_nil in Hin.
Qed.

Lemma Attempts_result i args r evs p :
  Attempts i args r evs -> r = Some p -> exists a, EvCall i a args (Some p) ∈ evs.
Proof.
  destruct 1; intros [= ->]; eexists; apply list_elem_of_In; simpl; eauto 10.
Qed.

(** The counts the specification speaks of. *)
Lemma Attempts_counts i args r evs :
  Attempts i args r evs ->
  count isCall evs <= MAX_ATTEMPTS /\
  count isSleep evs = count isFailedCall evs - match r with Some _ => 0 | None => 1 end /\
  (r = None <-> count isFailedCall evs = MAX_ATTEMPTS).
Proof.
  unfold MAX_ATTEMPTS, count. destruct 1; cbn; repeat split; try lia; try done.
Qed.

Lemma sameFrame_refl st : sameFrame st st.
Proof. by split. Qed.

Lemma sameFrame_trans st1 st2 st3 : sameFrame st1 st2 -> sameFrame st2 st3 -> sameFrame st1 st3.
Proof. intros [] []. split; congruence. Qed.

Lemma sameFrame_publish st f : sameFrame st (setGeneratedImages f st).
Proof. by split. Qed.

(** [attemptLoop] started as the source starts it: the trace grows by the
    events of one scene, the store is not touched and the stop flag, once
    set, stays set. *)
Lemma attemptLoop_spec env i args st :
  let res := attemptLoop env i args MAX_ATTEMPTS 1 st in
  exists evs,
    Attempts i args res.1 evs /\
    trace res.2 = trace st ++ evs /\
    generatedImages res.2 = generatedImages st /\
    sameFrame st res.2 /\
    (isStopping st = true -> isStopping res.2 = true).
Proof.
  unfold MAX_ATTEMPTS. cbn.
  repeat (match goal with
          | |- context [generateImage env ?k args] =>
              destruct (generateImage env k args) eqn:?; cbn
          end);
    (eexists; split; [constructor|]; rewrite <- ?app_assoc;
     repeat split; try done; intros ->; done).
Qed.

(** ** Arrays *)

Lemma assign_in_range {A} (hole : A) i v (a : list A) :
  i < length a -> assign hole i v a = <[i := v]> a.
Proof.
  intros H. unfold assign. destruct (Nat.ltb_spec i (length a)); [done | lia].
Qed.

Lemma assignImage_in_range i f images img :
  images !! i = Some img -> assignImage i f images = <[i := f img]> images.
Proof.
  intros H. unfold assignImage. rewrite H. cbn.
  apply assign_in_range. by eapply lookup_lt_Some.
Qed.

Lemma alter_in_range {A} (f : A -> A) i (l : list A) x :
  l !! i = Some x -> alter f i l = <[i := f x]> l.
Proof.
  revert i. induction l as [|y l IH]; intros [|i] H; try done.
  - cbn in *. by simplify_eq.
  - cbn in *. f_equal. by apply IH.
Qed.

Lemma lookup_mapFrom i f images k :
  mapFrom i f images !! k = (if i <=? k then f else fun img => img) <$> images !! k.
Proof.
  unfold mapFrom. rewrite list_lookup_imap.
  destruct (images !! k); cbn; [|done]. by destruct (i <=? k).
Qed.

(** ** Events of a scene *)

Lemma sceneEvents_app k evs1 evs2 :
  sceneEvents k (evs1 ++ evs2) = sceneEvents k evs1 ++ sceneEvents k evs2.
Proof. apply filter_app. Qed.

Lemma sceneEvents_all k evs :
  Forall (fun e => eventScene e = Some k) evs -> sceneEvents k evs = evs.
Proof.
  unfold sceneEvents. induction 1 as [|e evs He _ IH]; [done|].
  rewrite filter_cons_True by done. by rewrite IH.
Qed.

Lemma sceneEvents_none k evs :
  Forall (fun e => eventScene e <> Some k) evs -> sceneEvents k evs = [].
Proof.
  unfold sceneEvents. induction 1 as [|e evs He _ IH]; [done|].
  by rewrite filter_cons_False.
Qed.

Lemma sceneEvents_other k i evs :
  k <> i -> Forall (fun e => eventScene e = Some i) evs -> sceneEvents k evs = [].
Proof.
  intros Hne H. apply sceneEvents_none. eapply Forall_impl; [exact H|].
  cbn. intros e -> [=]. done.
Qed.

Lemma sceneEvents_below k i evs :
  i <= k -> scenesBelow i evs -> sceneEvents k evs = [].
Proof.
  intros Hle H. apply sceneEvents_none. eapply Forall_impl; [exact H|].
  cbn. intros e He Hk. specialize (He _ Hk). lia.
Qed.

Lemma sceneEvents_publish k images : sceneEvents k [EvPublish images] = [].
Proof. done. Qed.

Lemma elem_of_sceneEvents k e evs :
  e ∈ evs -> eventScene e = Some k -> e ∈ sceneEvents k evs.
Proof. intros. by apply list_elem_of_filter. Qed.

Lemma scenesBelow_mono i j evs : i <= j -> scenesBelow i evs -> scenesBelow j evs.
Proof.
  intros Hle H. eapply Forall_impl; [exact H|]. cbn. intros e He k Hk.
  specialize (He _ Hk). lia.
Qed.

Lemma scenesBelow_attempts i args r evs : Attempts i args r evs -> scenesBelow (S i) evs.
Proof.
  intros H. eapply Forall_impl; [by eapply Attempts_scene|].
  cbn. intros e -> k [= <-]. lia.
Qed.

Lemma lastPublished_publish tr images : lastPublished (tr ++ [EvPublish images]) = Some images.
Proof. unfold lastPublished. rewrite omap_app. cbn. apply last_snoc. Qed.

Lemma lastPublished_attempts tr i args r es :
  Attempts i args r es -> lastPublished (tr ++ es) = lastPublished tr.
Proof.
  intros H. unfold lastPublished. rewrite omap_app.
  replace (omap publication es) with (@nil (list GeneratedImage)); [by rewrite app_nil_r|].
  by destruct H.
Qed.

Lemma publish_not_attempt i args r es images :
  Attempts i args r es -> EvPublish images ∈ es -> False.
Proof.
  destruct 1; intros Hin;
    repeat (apply elem_of_cons in Hin as [Hin|Hin]; [done|]);
    by apply elem_of_nil in Hin.
Qed.

Lemma scenesBelow_publish i images : scenesBelow i [EvPublish images].
Proof. constructor; [|constructor]. intros k [=]. Qed.

(** ** The chained loop *)

Lemma generateLoop_chain env props todo i chain st :
  generateLoop env props todo i chain st = chainLoop fullRun env props todo i chain st.
Proof. revert i chain st. induction todo as [|image todo IH]; intros; cbn; [done|].
  change (generateStep env props i image chain st)
    with (chainStep fullRun env props i image chain st).
  destruct (chainStep fullRun env props i image chain st) as [[st' chain']|st']; [apply IH|done].
Qed.

Lemma regenerateAllLoop_chain env props todo i chain st :
  regenerateAllLoop env props todo i chain st = chainLoop refinement env props todo i chain st.
Proof. revert i chain st. induction todo as [|image todo IH]; intros; cbn; [done|].
  change (regenerateAllStep env props i image chain st)
    with (chainStep refinement env props i image chain st).
  destruct (chainStep refinement env props i image chain st) as [[st' chain']|st']; [apply IH|done].
Qed.

Section ChainLoop.

Context (v : Variant) (env : Env) (props : Props).
Context (imgs base : list GeneratedImage) (st0 : State).
Hypothesis write_in_range :
  forall i f (l : list GeneratedImage) x, l !! i = Some x -> v_write v i f l = <[i := f x]> l.
Hypothesis base_length : length base = length imgs.

Local Abbreviation entry := (entry v).
Local Abbreviation reference := (reference v).
Local Abbreviation SceneDone := (SceneDone v env props imgs base).
Local Abbreviation Inv := (Inv v env props imgs base st0).
Local Abbreviation Summary := (Summary v env props imgs base st0).
Local Abbreviation Outcome := (Outcome v env props imgs base st0).

Lemma reference_app (rs rs' : list (option jsstring)) k : k <= length rs -> reference (rs ++ rs') k = reference rs k.
Proof.
  destruct k as [|j]; [done|]. intros H. cbn. by rewrite lookup_app_l by lia.
Qed.

Lemma SceneDone_extend evs rs store k r es rs' store' :
  k < length rs ->
  sceneEvents k es = [] ->
  store' !! k = store !! k ->
  SceneDone evs rs store k r ->
  SceneDone (evs ++ es) (rs ++ rs') store' k r.
Proof.
  intros Hk Hes Hstore (image & b & Hi & Hb & Hatt & Hs).
  exists image, b. repeat split; try done.
  - rewrite sceneEvents_app, Hes, app_nil_r, reference_app by lia. done.
  - by rewrite Hstore.
Qed.

Lemma SceneDone_extend_events evs rs store k r es store' :
  k < length rs ->
  sceneEvents k es = [] ->
  store' !! k = store !! k ->
  SceneDone evs rs store k r ->
  SceneDone (evs ++ es) rs store' k r.
Proof.
  intros. rewrite <- (app_nil_r rs). by eapply SceneDone_extend.
Qed.

Lemma reference_chain i (chain rs : list (option jsstring)) :
  length rs = i ->
  (forall k r, rs !! k = Some r -> chain !! k = Some (entry r)) ->
  (if 0 <? i then mjoin (chain !! (i - 1)) else None) = reference rs i.
Proof.
  intros Hlen Hchain. destruct i as [|j]; [done|]. cbn. rewrite Nat.sub_0_r.
  destruct (rs !! j) as [r|] eqn:E.
  - by rewrite (Hchain _ _ E).
  - apply lookup_ge_None in E. lia.
Qed.

Lemma chainLoop_outcome todo i chain st :
  drop i imgs = todo -> Inv i chain st -> Outcome (chainLoop v env props todo i chain st).
Proof.
  revert i chain st. induction todo as [|image todo IH]; intros i chain st Hdrop HInv.
  { destruct HInv as (evs & rs & Htr & Hsame & Hlen & Hle & Hstop & _ & _ & Hn & Hdone & _ & Hbelow & _).
    cbn. exists evs, rs. unfold Summary. rewrite Hstop. do 4 (split; [done|]). split.
    - by subst.
    - apply (f_equal length) in Hdrop. rewrite length_drop in Hdrop. cbn in Hdrop. lia. }
  destruct HInv as (evs & rs & Htr & Hsame & Hlen & Hle & Hstop & Hclen & Hchain & Hn & Hdone
                    & Hrest & Hbelow & Hlast & Hpub).
  assert (Hi : imgs !! i = Some image).
  { pose proof (lookup_drop imgs i 0) as H. rewrite Hdrop, Nat.add_0_r in H. done. }
  assert (Hdrop' : drop (S i) imgs = todo).
  { replace (S i) with (i + 1) by lia. rewrite <- drop_drop, Hdrop. done. }
  assert (Hlt : i < length imgs) by (by eapply lookup_lt_Some).
  destruct (base !! i) as [b|] eqn:Hb;
    [|apply lookup_ge_None in Hb; lia].
  cbn. unfold chainStep. rewrite Hstop.
  rewrite (reference_chain i chain rs Hlen Hchain).
  set (args := callArgs env props image (reference rs i) (v_isVariant v)).
  destruct (attemptLoop_spec env i args st) as (es & Hatt & Htr1 & Himgs1 & Hsame1 & _).
  destruct (attemptLoop env i args MAX_ATTEMPTS 1 st) as [r st1].
  cbn in Hatt, Htr1, Hsame1, Himgs1.
  assert (Hes : sceneEvents i (evs ++ es) = es).
  { rewrite sceneEvents_app, (sceneEvents_below i i evs), (sceneEvents_all i es); try done.
    by eapply Attempts_scene. }
  assert (Hother : forall k, k < i -> sceneEvents k es = []).
  { intros k Hk. eapply sceneEvents_other; [|by eapply Attempts_scene]. lia. }
  assert (Hsame2 : forall f, sameFrame st0 (setGeneratedImages f st1)).
  { intros f. eapply sameFrame_trans; [|apply sameFrame_publish].
    by eapply sameFrame_trans. }
  destruct (isStopping st1) eqn:Hstop1.
  - (* the stop flag was set during the attempts: [break] *)
    exists ((evs ++ es) ++ [EvPublish (mapFrom i (v_cancel v) (generatedImages st1))]), rs.
    unfold Summary. cbn. rewrite Hstop1, Htr1, Htr, Himgs1, <- !app_assoc. split; [done|].
    split; [apply Hsame2|]. repeat split.
    + unfold mapFrom. by rewrite length_imap.
    + intros k r' Hk.
      assert (k < i) by (rewrite <- Hlen; by eapply lookup_lt_Some).
      eapply SceneDone_extend_events; [lia| | |by apply Hdone].
      * rewrite sceneEvents_app, Hother by done. done.
      * rewrite lookup_mapFrom. destruct (Nat.leb_spec i k); [lia|].
        by destruct (generatedImages st !! k).
    + rewrite Hlen. apply Forall_app. split; [by eapply scenesBelow_mono; [|done]; lia|].
      apply Forall_app. split; [by eapply scenesBelow_attempts|].
      apply scenesBelow_publish.
    + exists image, r. rewrite Hlen. split; [done|].
      rewrite app_assoc, sceneEvents_app, Hes. cbn. by rewrite app_nil_r.
    + intros k Hk. rewrite Hlen in Hk. rewrite lookup_mapFrom, Hrest by done.
      by destruct (Nat.leb_spec i k); [|lia].
    + exists (evs ++ es), (generatedImages st). split; [by rewrite <- app_assoc|]. split.
      * rewrite app_assoc, <- Htr. by erewrite lastPublished_attempts.
      * intros k Hk. rewrite lookup_mapFrom. destruct (Nat.leb_spec i k); [lia|].
        by destruct (generatedImages st !! k).
    + intros images k Hin Hk. rewrite Hlen in Hk.
      apply elem_of_app in Hin as [Hin|Hin]; [left; by apply Hpub|].
      apply elem_of_app in Hin as [Hin|Hin]; [by destruct (publish_not_attempt _ _ _ _ _ Hatt Hin)|].
      apply list_elem_of_singleton in Hin. injection Hin as ->. right.
      rewrite lookup_mapFrom, Hrest by done.
      by destruct (Nat.leb_spec i k); [|lia].
  - (* the result of the scene is written and the loop goes on *)
    set (w := fun s : jsstring => setGeneratedImages (v_write v i (withSrc s false)) st1).
    assert (Hnext : forall c,
      c = entry r ->
      Outcome (chainLoop v env props todo (S i) (assign None i c chain) (w (resultSrc r)))).
    { intros c ->. apply IH; [done|].
      assert (Hcur : generatedImages st !! i = Some b) by (by rewrite Hrest).
      exists ((evs ++ es) ++ [EvPublish (v_write v i (withSrc (resultSrc r) false)
                                          (generatedImages st1))]), (rs ++ [r]).
      cbn. rewrite Htr1, Htr, Himgs1, <- !app_assoc.
      rewrite (write_in_range _ _ _ _ Hcur).
      split; [done|]. split; [apply Hsame2|]. repeat split.
      + rewrite length_app. cbn. lia.
      + lia.
      + done.
      + rewrite assign_in_range by lia. by rewrite length_insert.
      + intros k r' Hk. rewrite assign_in_range by lia.
        apply lookup_app_Some in Hk as [Hk|[Hge Hk]].
        * assert (k < i) by (rewrite <- Hlen; by eapply lookup_lt_Some).
          rewrite list_lookup_insert_ne by lia. by apply Hchain.
        * rewrite Hlen in Hge, Hk.
          assert (k = i) as -> by (apply lookup_lt_Some in Hk; cbn in Hk; lia).
          rewrite Nat.sub_diag in Hk. injection Hk as <-.
          by rewrite list_lookup_insert_eq by lia.
      + by rewrite length_insert.
      + intros k r' Hk.
        apply lookup_app_Some in Hk as [Hk|[Hge Hk]].
        * assert (k < i) by (rewrite <- Hlen; by eapply lookup_lt_Some).
          eapply SceneDone_extend; [lia| | |by apply Hdone].
          -- rewrite sceneEvents_app, Hother by done. done.
          -- by rewrite list_lookup_insert_ne by lia.
        * rewrite Hlen in Hge, Hk.
          assert (k = i) as -> by (apply lookup_lt_Some in Hk; cbn in Hk; lia).
          rewrite Nat.sub_diag in Hk. injection Hk as <-.
          exists image, b. repeat split; try done.
          -- rewrite app_assoc, sceneEvents_app, Hes. cbn. rewrite app_nil_r.
             rewrite reference_app by lia. done.
          -- by rewrite list_lookup_insert_eq by lia.
      + intros k Hk. rewrite list_lookup_insert_ne by lia. apply Hrest. lia.
      + apply Forall_app. split; [by eapply scenesBelow_mono; [|done]; lia|].
        apply Forall_app. split; [by eapply scenesBelow_attempts|].
        apply scenesBelow_publish.
      + rewrite !app_assoc. apply lastPublished_publish.
      + intros images k Hin Hk.
        apply elem_of_app in Hin as [Hin|Hin]; [apply Hpub; [done|lia]|].
        apply elem_of_app in Hin as [Hin|Hin]; [by destruct (publish_not_attempt _ _ _ _ _ Hatt Hin)|].
        apply list_elem_of_singleton in Hin. injection Hin as ->.
        rewrite list_lookup_insert_ne by lia. apply Hrest. lia. }
    destruct r as [[|c p]|]; by apply Hnext.
Qed.

End ChainLoop.

(** ** The full run *)

Lemma handleGenerate_unfold env props st :
  scenesOf props <> [] ->
  handleGenerate env props st =
  setIsGenerating false
    (chainLoop fullRun env props (initialImages env props st) 0
       (replicate (length (scenesOf props)) None) (generateStart env props st)).
Proof.
  intros Hne. unfold handleGenerate. fold (scenesOf props).
  destruct (scenesOf props) as [|s l] eqn:E; [done|].
  rewrite generateLoop_chain. unfold generateStart, initialImages. by rewrite E.
Qed.

Lemma handleGenerate_empty env props st :
  scenesOf props = [] ->
  handleGenerate env props st =
  setIsGenerating false
    (setError (Some NO_PROMPT_FOUND)
       (setGeneratedImages (fun _ => [])
          (setError None (setIsGenerating true (setIsStopping false st))))).
Proof.
  intros He. unfold handleGenerate. fold (scenesOf props). by rewrite He.
Qed.

Lemma handleGenerate_outcome env props st :
  scenesOf props <> [] ->
  Outcome fullRun env props (initialImages env props st) (initialImages env props st)
    (generateStart env props st)
    (chainLoop fullRun env props (initialImages env props st) 0
       (replicate (length (scenesOf props)) None) (generateStart env props st)).
Proof.
  intros Hne. apply chainLoop_outcome.
  - intros i f l x H. by apply assignImage_in_range.
  - done.
  - done.
  - exists [], []. cbn. rewrite app_nil_r.
    assert (Hn : length (initialImages env props st) = length (scenesOf props)).
    { unfold initialImages. by rewrite length_imap. }
    split; [done|]. split; [apply sameFrame_refl|].
    split; [done|]. split; [lia|]. split; [done|].
    split; [by rewrite length_replicate|].
    split; [done|]. split; [done|]. split; [done|]. split; [done|].
    split; [constructor|]. split; [apply lastPublished_publish|].
    intros images k Hin. by apply elem_of_nil in Hin.
Qed.

(** ** Reading a summary *)

Section Summary.

Context (v : Variant) (env : Env) (props : Props).
Context (imgs base : list GeneratedImage) (st0 st' : State).
Context (evs : list Event) (rs : list (option jsstring)).
Hypothesis Hsum : Summary v env props imgs base st0 evs rs st'.

(** Every scene that left an event in the trace went through one attempt
    sequence, with the reference image the outcomes before it determine. *)
Lemma Summary_scene e i :
  e ∈ evs -> eventScene e = Some i ->
  exists image r,
    imgs !! i = Some image /\
    Attempts i (callArgs env props image (reference v rs i) (v_isVariant v)) r
      (sceneEvents i evs) /\
    (rs !! i = Some r \/ (i = length rs /\ isStopping st' = true)).
Proof.
  intros Hin He. destruct Hsum as (_ & _ & _ & Hdone & Hend).
  assert (Hcase : i < length rs \/ (i = length rs /\ isStopping st' = true)).
  { destruct (isStopping st').
    - destruct Hend as (Hbelow & _). unfold scenesBelow in Hbelow.
      rewrite Forall_forall in Hbelow. specialize (Hbelow _ Hin _ He).
      destruct (decide (i = length rs)); [by right|left; lia].
    - destruct Hend as (Hbelow & _). unfold scenesBelow in Hbelow.
      rewrite Forall_forall in Hbelow. left. exact (Hbelow _ Hin _ He). }
  destruct Hcase as [Hlt|[-> Hstop]].
  - destruct (lookup_lt_is_Some_2 rs i Hlt) as [r Hr].
    destruct (Hdone _ _ Hr) as (image & b & Hi & _ & Hatt & _).
    exists image, r. auto.
  - rewrite Hstop in Hend. destruct Hend as (_ & (image & r & Hi & Hatt) & _).
    exists image, r. auto.
Qed.

Lemma Summary_call i attempt args result :
  EvCall i attempt args result ∈ evs ->
  exists image r,
    imgs !! i = Some image /\
    args = callArgs env props image (reference v rs i) (v_isVariant v) /\
    Attempts i args r (sceneEvents i evs) /\
    (rs !! i = Some r \/ (i = length rs /\ isStopping st' = true)).
Proof.
  intros Hin. destruct (Summary_scene _ i Hin eq_refl) as (image & r & Hi & Hatt & Hr).
  exists image, r. split; [done|].
  assert (Hin' : EvCall i attempt args result ∈ sceneEvents i evs)
    by (by apply elem_of_sceneEvents).
  destruct (Attempts_In_call _ _ _ _ _ _ _ _ Hatt Hin') as (_ & -> & _). auto.
Qed.

Lemma Summary_done k r :
  rs !! k = Some r ->
  exists image b,
    imgs !! k = Some image /\ base !! k = Some b /\
    Attempts k (callArgs env props image (reference v rs k) (v_isVariant v)) r
      (sceneEvents k evs) /\
    generatedImages st' !! k = Some (withSrc (resultSrc r) false b).
Proof. intros Hr. destruct Hsum as (_ & _ & _ & Hdone & _). exact (Hdone _ _ Hr). Qed.

Lemma sceneEvents_subseteq k e : e ∈ sceneEvents k evs -> e ∈ evs.
Proof. unfold sceneEvents. rewrite list_elem_of_filter. tauto. Qed.

End Summary.

Lemma chainEntry_Some r u :
  chainEntry r = Some u -> exists p, r = Some p /\ p <> [] /\ u = dataUrl p.
Proof. destruct r as [[|c p]|]; cbn; intros [=]. subst. by eexists. Qed.

Lemma chainEntry_None r : chainEntry r = None -> r = None \/ r = Some [].
Proof. destruct r as [[|c p]|]; cbn; intros [=]; auto. Qed.

Lemma handleGenerate_summary env props st :
  scenesOf props <> [] ->
  let init := initialImages env props st in
  let st' := handleGenerate env props st in
  exists evs rs stL,
    Summary fullRun env props init init (generateStart env props st) evs rs stL /\
    st' = setIsGenerating false stL /\
    trace st' = trace st ++ [EvPublish []; EvPublish init] ++ evs.
Proof.
  intros Hne init st'.
  destruct (handleGenerate_outcome env props st Hne) as (evs & rs & Hsum).
  eexists evs, rs, _. split; [exact Hsum|]. split; [by apply handleGenerate_unfold|].
  subst st'. rewrite handleGenerate_unfold by done. cbn.
  destruct Hsum as (-> & _). cbn. by rewrite <- !app_assoc.
Qed.

Lemma handleGenerate_trace_empty env props st :
  scenesOf props = [] -> trace (handleGenerate env props st) = trace st ++ [EvPublish []].
Proof. intros He. by rewrite handleGenerate_empty. Qed.

(** C1. In a full run, every call of the adapter for the first scene gets no
    continuity reference, and every call for a later scene gets exactly the
    payload (as the data URL stored for it) that the preceding scene obtained
    from its successful call; when the preceding scene did not succeed, its
    result is marked failed and the call gets no continuity reference. *)
Theorem generate_continuity env props st evs i attempt args result :
  trace (handleGenerate env props st) = trace st ++ evs ->
  EvCall i attempt args result ∈ evs ->
  match i with
  | 0 => a_previousImage args = None
  | S j =>
      exists img,
        generatedImages (handleGenerate env props st) !! j = Some img /\
        ((exists p a' args',
             p <> [] /\ EvCall j a' args' (Some p) ∈ evs /\
             src img = dataUrl p /\ a_previousImage args = Some (dataUrl p))
         \/
         ((forall p a' args', EvCall j a' args' (Some p) ∈ evs -> p = []) /\
          src img = ERROR /\ a_previousImage args = None))
  end.
Proof.
  intros Htr Hin.
  destruct (decide (scenesOf props = [])) as [He|Hne].
  { rewrite handleGenerate_trace_empty in Htr by done.
    apply app_inv_head in Htr. subst evs.
    apply list_elem_of_singleton in Hin. done. }
  destruct (handleGenerate_summary env props st Hne) as (evsL & rs & stL & Hsum & Hst & Htr').
  rewrite Htr' in Htr. apply app_inv_head in Htr. subst evs.
  assert (HinL : forall k a x y, EvCall k a x y ∈ [EvPublish []; EvPublish (initialImages env props st)] ++ evsL ->
                 EvCall k a x y ∈ evsL).
  { intros k a x y H. apply elem_of_app in H as [H|H]; [|done].
    repeat (apply elem_of_cons in H as [H|H]; [done|]). by apply elem_of_nil in H. }
  apply HinL in Hin.
  destruct (Summary_call _ _ _ _ _ _ _ _ _ Hsum _ _ _ _ Hin) as (image & r & Hi & -> & Hatt & Hr).
  destruct i as [|j]; [done|]. cbn.
  assert (Hj : j < length rs).
  { destruct Hr as [Hr|[Hr _]]; [apply lookup_lt_Some in Hr|]; lia. }
  destruct (lookup_lt_is_Some_2 rs j Hj) as [rj Hrj]. rewrite Hrj. cbn.
  destruct (Summary_done _ _ _ _ _ _ _ _ _ Hsum _ _ Hrj) as (imj & b & _ & _ & Hattj & Hsrc).
  exists (withSrc (resultSrc rj) false b). split; [by rewrite Hst|].
  unfold entry, resultSrc. cbn. destruct (chainEntry rj) as [u|] eqn:Hc.
  - left. apply chainEntry_Some in Hc as (p & -> & Hp & ->).
    destruct (Attempts_result _ _ _ _ p Hattj eq_refl) as (a' & Ha').
    eexists p, a', _. repeat split; try done.
    do 2 apply list_elem_of_further. by eapply sceneEvents_subseteq.
  - right. split; [|done]. intros p a' args' Hin'. apply HinL in Hin'.
    assert (Hs : EvCall j a' args' (Some p) ∈ sceneEvents j evsL)
      by (by apply elem_of_sceneEvents).
    destruct (Attempts_In_call _ _ _ _ _ _ _ _ Hattj Hs) as (_ & _ & _ & Hres).
    specialize (Hres p eq_refl).
    apply chainEntry_None in Hc as [->| ->]; congruence.
Qed.

Lemma initialImages_lookup env props st k img :
  initialImages env props st !! k = Some img -> src img = [] /\ isLoading img = true.
Proof.
  unfold initialImages. rewrite list_lookup_imap.
  destruct (scenesOf props !! k); cbn; [|done]. by intros [= <-].
Qed.

Lemma CANCELLED_not_ERROR : CANCELLED <> ERROR.
Proof. done. Qed.

Lemma dataUrl_not_ERROR p : dataUrl p <> ERROR.
Proof. done. Qed.

Lemma dataUrl_not_CANCELLED p : dataUrl p <> CANCELLED.
Proof. done. Qed.

Lemma dataUrl_inj p q : dataUrl p = dataUrl q -> p = q.
Proof. unfold dataUrl. apply app_inv_head. Qed.

(** The check in front of the attempts: when the flag is set there, the step
    makes no call, marks the results from [i] on cancelled and leaves the
    loop.  In a run of [handleGenerate] the flag is never set at that point:
    it is reset when the run starts and can only change during an await, and
    the check after the attempts comes before the next scene. *)
Lemma generateStep_stopped_before env props i image chain st :
  isStopping st = true ->
  generateStep env props i image chain st
  = inr (setGeneratedImages (mapFrom i (withSrc CANCELLED false)) st).
Proof. intros H. unfold generateStep. by rewrite H. Qed.

(** C3. In a full run that ends with the stop flag set, the flag was
    observed at the boundary of some scene [i], after the attempts of that
    scene: the store still holds one result for each scene of the batch, the
    results of scene [i] and of all the scenes after it, up to the last of
    the batch, are there and marked cancelled, not failed, with the loading
    flag cleared, the results of the earlier scenes are what they
    were before the cancellation was written (failed or succeeded with their
    own payload), no adapter call is made for a later scene and nothing
    follows the cancellation in the trace, and no content of the store ever
    holds a payload for scene [i]: the one produced in flight is dropped. *)
Theorem generate_cancellation env props st evs :
  trace (handleGenerate env props st) = trace st ++ evs ->
  isStopping (handleGenerate env props st) = true ->
  let final := generatedImages (handleGenerate env props st) in
  exists i evs' before,
    i < length final /\
    length final = length (scenesOf props) /\
    (forall k, i <= k < length (scenesOf props) ->
       exists img, final !! k = Some img /\ src img = CANCELLED /\ isLoading img = false) /\
    (exists attempt args r, EvCall i attempt args r ∈ evs) /\
    evs = evs' ++ [EvPublish final] /\
    (forall k attempt args r, EvCall k attempt args r ∈ evs -> k <= i) /\
    (forall k img, i <= k -> final !! k = Some img ->
       src img = CANCELLED /\ src img <> ERROR /\ isLoading img = false) /\
    lastPublished (trace st ++ evs') = Some before /\
    (forall k, k < i -> final !! k = before !! k) /\
    (forall k img, k < i -> final !! k = Some img ->
       isLoading img = false /\
       (src img = ERROR \/
        exists attempt args p, EvCall k attempt args (Some p) ∈ evs /\ src img = dataUrl p)) /\
    (forall images img, EvPublish images ∈ evs -> images !! i = Some img ->
       src img = [] \/ src img = CANCELLED).
Proof.
  intros Htr Hstop final.
  destruct (decide (scenesOf props = [])) as [He|Hne].
  { rewrite handleGenerate_empty in Hstop by done. done. }
  destruct (handleGenerate_summary env props st Hne) as (evsL & rs & stL & Hsum & Hst & Htr').
  rewrite Htr' in Htr. apply app_inv_head in Htr. subst evs.
  set (init := initialImages env props st) in *.
  assert (Hfinal : final = generatedImages stL) by (unfold final; by rewrite Hst).
  assert (HstopL : isStopping stL = true) by (by rewrite Hst in Hstop).
  pose proof Hsum as (HtrL & _ & Hlen & Hdone & Hend). rewrite HstopL in Hend.
  destruct Hend as (Hbelow & (image & r & Hi & Hatt) & Hcancel & (evs' & before & Hevs & Hlast & Hbefore) & Hpub).
  exists (length rs), ([EvPublish []; EvPublish init] ++ evs'), before.
  rewrite Hfinal.
  assert (Hcan : forall k img, length rs <= k -> generatedImages stL !! k = Some img ->
                 exists b, img = withSrc CANCELLED false b).
  { intros k img Hk Himg. rewrite Hcancel in Himg by done.
    destruct (init !! k) as [b|]; cbn in Himg; [|done]. exists b. by injection Himg as <-. }
  assert (Hn : length init = length (scenesOf props)).
  { unfold init, initialImages. by rewrite length_imap. }
  split. { rewrite Hlen. by eapply lookup_lt_Some. }
  split. { by rewrite Hlen. }
  split.
  { intros k [Hk1 Hk2].
    destruct (lookup_lt_is_Some_2 (generatedImages stL) k) as [img Himg]; [lia|].
    exists img. split; [done|]. destruct (Hcan k img Hk1 Himg) as (b & ->). done. }
  split.
  { destruct (Attempts_call _ _ _ _ Hatt) as (a & r' & Hin).
    eexists a, _, r'. do 2 apply list_elem_of_further. by eapply sceneEvents_subseteq. }
  split. { rewrite Hevs. by rewrite <- !app_assoc. }
  split.
  { intros k a args r' Hin.
    repeat (apply elem_of_cons in Hin as [Hin|Hin]; [done|]).
    unfold scenesBelow in Hbelow. rewrite Forall_forall in Hbelow.
    specialize (Hbelow _ Hin k eq_refl). lia. }
  split.
  { intros k img Hk Himg. destruct (Hcan k img Hk Himg) as (b & ->). cbn.
    split; [done|]. split; [apply CANCELLED_not_ERROR|done]. }
  split. { rewrite <- Hlast. f_equal. cbn. by rewrite <- !app_assoc. }
  split; [done|].
  split.
  { intros k img Hk Himg.
    destruct (lookup_lt_is_Some_2 rs k Hk) as [rk Hrk].
    destruct (Summary_done _ _ _ _ _ _ _ _ _ Hsum _ _ Hrk) as (im & b & _ & _ & Hattk & Hs).
    rewrite Hs in Himg. injection Himg as <-. cbn. split; [done|]. unfold resultSrc.
    destruct (chainEntry rk) as [u|] eqn:Hc; [right|by left].
    apply chainEntry_Some in Hc as (p & -> & Hp & ->).
    destruct (Attempts_result _ _ _ _ p Hattk eq_refl) as (a' & Ha').
    eexists a', _, p. split; [|done].
    do 2 apply list_elem_of_further. by eapply sceneEvents_subseteq. }
  intros images img Hin Him.
  apply elem_of_cons in Hin as [Hin|Hin]; [by injection Hin as ->|].
  apply elem_of_cons in Hin as [Hin|Hin].
  { injection Hin as ->. left. by eapply initialImages_lookup. }
  destruct (Hpub images (length rs) Hin (le_n _)) as [Hk|Hk]; rewrite Him in Hk.
  - left. symmetry in Hk. by eapply initialImages_lookup.
  - right. destruct (init !! length rs); cbn in Hk; [|done]. by injection Hk as ->.
Qed.

(** ** Regenerate-all *)

Lemma handleRegenerateAll_unfold env props st :
  canRegenerateAll st ->
  handleRegenerateAll env props st =
  setIsGenerating false
    (chainLoop refinement env props (generatedImages st) 0
       (seedSrcs (generatedImages st)) (regenerateAllStart st)).
Proof.
  intros [Hg Hne]. unfold handleRegenerateAll. rewrite Hg. cbn.
  rewrite bool_decide_eq_false_2 by done.
  by rewrite regenerateAllLoop_chain.
Qed.

Lemma handleRegenerateAll_summary env props st :
  canRegenerateAll st ->
  let orig := generatedImages st in
  let st' := handleRegenerateAll env props st in
  exists evs rs stL,
    Summary refinement env props orig (withLoading true <$> orig) (regenerateAllStart st)
      evs rs stL /\
    st' = setIsGenerating false stL /\
    trace st' = trace st ++ [EvPublish (withLoading true <$> orig)] ++ evs.
Proof.
  intros Hcan orig st'.
  assert (Hout : Outcome refinement env props orig (withLoading true <$> orig)
                   (regenerateAllStart st)
                   (chainLoop refinement env props orig 0 (seedSrcs orig) (regenerateAllStart st))).
  { apply chainLoop_outcome.
    - intros i f l x H. by apply alter_in_range.
    - by rewrite length_fmap.
    - done.
    - exists [], []. cbn. rewrite app_nil_r.
      split; [done|]. split; [apply sameFrame_refl|].
      split; [done|]. split; [lia|]. split; [done|].
      split; [unfold seedSrcs; by rewrite length_fmap|].
      split; [done|]. split; [by rewrite length_fmap|]. split; [done|]. split; [done|].
      split; [constructor|]. split; [apply lastPublished_publish|].
      intros images k Hin. by apply elem_of_nil in Hin. }
  destruct Hout as (evs & rs & Hsum).
  eexists evs, rs, _. split; [exact Hsum|]. split; [by apply handleRegenerateAll_unfold|].
  subst st' orig. rewrite handleRegenerateAll_unfold by done. cbn.
  destruct Hsum as (-> & _). cbn. by rewrite <- !app_assoc.
Qed.

(** C4, as the code has it. In a regenerate-all run that ends with the stop
    flag set, the flag was observed after the attempts of some scene [i]; no
    adapter call is made for a later scene, and every result from [i] on is
    the result the store held before the run with its loading flag cleared:
    it keeps its previous content and is marked neither cancelled nor failed
    by the cancellation. *)
Theorem regenerateAll_cancellation env props st evs :
  canRegenerateAll st ->
  trace (handleRegenerateAll env props st) = trace st ++ evs ->
  isStopping (handleRegenerateAll env props st) = true ->
  exists i,
    i < length (generatedImages st) /\
    (exists attempt args r, EvCall i attempt args r ∈ evs) /\
    (forall k attempt args r, EvCall k attempt args r ∈ evs -> k <= i) /\
    (forall k img, i <= k -> generatedImages st !! k = Some img ->
       generatedImages (handleRegenerateAll env props st) !! k = Some (withLoading false img)).
Proof.
  intros Hcan Htr Hstop.
  destruct (handleRegenerateAll_summary env props st Hcan) as (evsL & rs & stL & Hsum & Hst & Htr').
  rewrite Htr' in Htr. apply app_inv_head in Htr. subst evs.
  assert (HstopL : isStopping stL = true) by (by rewrite Hst in Hstop).
  pose proof Hsum as (HtrL & _ & Hlen & Hdone & Hend). rewrite HstopL in Hend.
  destruct Hend as (Hbelow & (image & r & Hi & Hatt) & Hcancel & _).
  exists (length rs).
  split. { by eapply lookup_lt_Some. }
  split.
  { destruct (Attempts_call _ _ _ _ Hatt) as (a & r' & Hin).
    eexists a, _, r'. apply list_elem_of_further. by eapply sceneEvents_subseteq. }
  split.
  { intros k a args r' Hin.
    apply elem_of_cons in Hin as [Hin|Hin]; [done|].
    unfold scenesBelow in Hbelow. rewrite Forall_forall in Hbelow.
    specialize (Hbelow _ Hin k eq_refl). lia. }
  intros k img Hk Himg. rewrite Hst. cbn. rewrite Hcancel by done.
  rewrite list_lookup_fmap, Himg. done.
Qed.

(** ** Single-scene regeneration *)

Lemma regenerateLoop_spec env idx imageToRegen promptOverride args st :
  let st' := regenerateLoop env idx imageToRegen promptOverride args MAX_ATTEMPTS 1 st in
  exists es r,
    Attempts idx args r es /\
    generatedImages st' =
      mapId (id imageToRegen) (regenerateResult imageToRegen promptOverride r)
        (generatedImages st) /\
    trace st' = trace st ++ es ++ [EvPublish (generatedImages st')] /\
    sameFrame st st'.
Proof.
  unfold MAX_ATTEMPTS. cbn.
  repeat (match goal with
          | |- context [generateImage env ?k args] =>
              destruct (generateImage env k args) eqn:?; cbn
          end);
    (eexists _, _; split; [constructor|]; rewrite <- ?app_assoc; cbn; by repeat split).
Qed.

Lemma findIndex_Some {A} (f : A -> bool) (l : list A) i :
  findIndex f l = Some i -> exists x, l !! i = Some x /\ f x = true.
Proof.
  revert i. induction l as [|y l IH]; intros i; cbn; [done|].
  destruct (f y) eqn:E.
  - intros [= <-]. by exists y.
  - destruct (findIndex f l) as [j|]; cbn; [|done]. intros [= <-]. by apply IH.
Qed.

Lemma handleRegenerate_spec env props images imageId promptOverride st :
  let st' := handleRegenerate env props images imageId promptOverride st in
  (findIndex (fun img => bool_decide (id img = imageId)) images = None /\ st' = st)
  \/
  exists idx imageToRegen es r,
    findIndex (fun img => bool_decide (id img = imageId)) images = Some idx /\
    images !! idx = Some imageToRegen /\ id imageToRegen = imageId /\
    Attempts idx (regenerateArgs props images imageToRegen promptOverride) r es /\
    generatedImages st' =
      mapId imageId (regenerateResult imageToRegen promptOverride r)
        (mapId imageId (withLoading true) (generatedImages st)) /\
    trace st' =
      trace st ++ [EvPublish (mapId imageId (withLoading true) (generatedImages st))]
        ++ es ++ [EvPublish (generatedImages st')] /\
    sameFrame st st'.
Proof.
  unfold handleRegenerate.
  destruct (findIndex _ images) as [idx|] eqn:Hidx; [right|by left].
  destruct (findIndex_Some _ _ _ Hidx) as (imageToRegen & Hi & Hid).
  apply bool_decide_eq_true in Hid. rewrite Hi.
  match goal with
  | |- context [regenerateLoop env idx imageToRegen promptOverride ?a _ _ ?s] =>
      destruct (regenerateLoop_spec env idx imageToRegen promptOverride a s)
        as (es & r & Hatt & Himgs & Htr & Hsame)
  end.
  exists idx, imageToRegen, es, r. cbn in *. rewrite Hid in *.
  split; [done|]. split; [done|]. split; [done|]. split; [exact Hatt|].
  split; [exact Himgs|]. split; [by rewrite Htr, <- !app_assoc|].
  eapply sameFrame_trans; [|exact Hsame]. apply sameFrame_publish.
Qed.

(** ** The retry budget of the three procedures *)

Lemma sceneEvents_inhabited i evs :
  sceneEvents i evs <> [] -> exists e, e ∈ evs /\ eventScene e = Some i.
Proof.
  intros H. destruct (sceneEvents i evs) as [|e l] eqn:E; [done|].
  exists e. assert (He : e ∈ sceneEvents i evs) by (rewrite E; apply list_elem_of_here).
  unfold sceneEvents in He. rewrite list_elem_of_filter in He. tauto.
Qed.

Lemma lookup_mapId imageId f images k :
  mapId imageId f images !! k
  = (fun img => if decide (id img = imageId) then f img else img) <$> images !! k.
Proof. apply list_lookup_fmap. Qed.

Lemma mapId_hit imageId f images k img :
  images !! k = Some img -> id img = imageId ->
  mapId imageId f images !! k = Some (f img).
Proof. intros Hk Hid. rewrite lookup_mapId, Hk. cbn. by rewrite decide_True. Qed.

(** What a chained loop ([handleGenerate], [handleRegenerateAll]) does for
    a scene that left events in the trace. *)
Lemma Summary_budget v env props imgs base st0 stL evs rs i :
  Summary v env props imgs base st0 evs rs stL ->
  sceneEvents i evs <> [] ->
  exists args r,
    Attempts i args r (sceneEvents i evs) /\
    (isStopping stL = false \/
     (exists k attempt args' r', i < k /\ EvCall k attempt args' r' ∈ evs) ->
     exists b, base !! i = Some b /\
       generatedImages stL !! i = Some (withSrc (resultSrc r) false b)).
Proof.
  intros Hsum Hne. destruct (sceneEvents_inhabited _ _ Hne) as (e & Hin & He).
  destruct (Summary_scene _ _ _ _ _ _ _ _ _ Hsum e i Hin He) as (image & r & Hi & Hatt & Hr).
  eexists _, r. split; [exact Hatt|]. intros Hsettled.
  assert (Hrs : rs !! i = Some r).
  { destruct Hr as [Hr|[-> Hstop]]; [done|]. exfalso.
    destruct Hsettled as [Hs|(k & a & args' & r' & Hk & Hin')]; [congruence|].
    destruct Hsum as (_ & _ & _ & _ & Hend). rewrite Hstop in Hend.
    destruct Hend as (Hbelow & _). unfold scenesBelow in Hbelow.
    rewrite Forall_forall in Hbelow. specialize (Hbelow _ Hin' k eq_refl). lia. }
  destruct (Summary_done _ _ _ _ _ _ _ _ _ Hsum _ _ Hrs) as (im & b & _ & Hb & _ & Hs).
  by exists b.
Qed.

Lemma resultSrc_ERROR r : resultSrc r = ERROR -> r = None \/ r = Some [].
Proof.
  unfold resultSrc. destruct (chainEntry r) as [u|] eqn:E; cbn.
  - apply chainEntry_Some in E as (p & -> & _ & ->). intros H. by destruct (dataUrl_not_ERROR p).
  - intros _. by apply chainEntry_None.
Qed.

(** C5, as the code has it. In each of the three procedures the events of a
    scene that was attempted form one attempt sequence: at most three calls
    of the adapter, a pause of five seconds after each failed call but the
    third, nothing after a call that resolved.  Unless a cancellation
    overtakes the scene, its result is then written with the loading flag
    cleared: succeeded with the payload of the call that resolved, failed
    after three failed calls, and, in the full run and in regenerate-all,
    failed as well when the call that resolved returned an empty payload. *)
Theorem retry_budget proc env props st evs i :
  trace (run proc env props st) = trace st ++ evs ->
  sceneEvents i evs <> [] ->
  exists args r,
    Attempts i args r (sceneEvents i evs) /\
    count isCall (sceneEvents i evs) <= MAX_ATTEMPTS /\
    count isSleep (sceneEvents i evs)
      = count isFailedCall (sceneEvents i evs) - match r with Some _ => 0 | None => 1 end /\
    (notCancelledAt proc (run proc env props st) evs i ->
     exists img,
       generatedImages (run proc env props st) !! i = Some img /\
       isLoading img = false /\
       src img = markedSrc proc r /\
       (src img = ERROR ->
        count isFailedCall (sceneEvents i evs) = MAX_ATTEMPTS
        \/ (r = Some [] /\ checksPayload proc = true))).
Proof.
  intros Htr Hne.
  assert (Hgoal : exists args r,
    Attempts i args r (sceneEvents i evs) /\
    (notCancelledAt proc (run proc env props st) evs i ->
     exists img,
       generatedImages (run proc env props st) !! i = Some img /\
       isLoading img = false /\
       src img = markedSrc proc r /\
       (src img = ERROR -> r = None \/ (r = Some [] /\ checksPayload proc = true)))).
  { destruct proc as [| |imageId promptOverride]; cbn in *.
    - (* full run *)
      destruct (decide (scenesOf props = [])) as [He|Hn].
      { rewrite handleGenerate_trace_empty in Htr by done.
        apply app_inv_head in Htr. by subst evs. }
      destruct (handleGenerate_summary env props st Hn) as (evsL & rs & stL & Hsum & Hst & Htr').
      rewrite Htr' in Htr. apply app_inv_head in Htr. subst evs.
      change (sceneEvents i ([EvPublish []; EvPublish (initialImages env props st)] ++ evsL))
        with (sceneEvents i evsL) in *.
      destruct (Summary_budget _ _ _ _ _ _ _ _ _ _ Hsum Hne) as (args & r & Hatt & Hmark).
      exists args, r. split; [done|]. intros Hnc.
      destruct Hmark as (b & Hb & Hs).
      { rewrite Hst in Hnc. cbn in Hnc.
        destruct Hnc as [Hnc|(k & a & x & y & Hk & Hin)]; [by left|right].
        exists k, a, x, y. split; [done|].
        repeat (apply elem_of_cons in Hin as [Hin|Hin]; [done|]). done. }
      exists (withSrc (resultSrc r) false b). rewrite Hst. cbn.
      split; [done|]. split; [done|]. split; [done|].
      intros Herr. destruct (resultSrc_ERROR _ Herr); auto.
    - (* regenerate-all *)
      assert (Hcan : canRegenerateAll st).
      { destruct (isGenerating st) eqn:Hg.
        - unfold handleRegenerateAll in Htr. rewrite Hg in Htr. cbn in Htr.
          rewrite <- (app_nil_r (trace st)) in Htr at 1.
          apply app_inv_head in Htr. by subst evs.
        - split; [done|]. intros Hnil.
          unfold handleRegenerateAll in Htr. rewrite Hg, Hnil in Htr. cbn in Htr.
          rewrite <- (app_nil_r (trace st)) in Htr at 1.
          apply app_inv_head in Htr. by subst evs. }
      destruct (handleRegenerateAll_summary env props st Hcan)
        as (evsL & rs & stL & Hsum & Hst & Htr').
      rewrite Htr' in Htr. apply app_inv_head in Htr. subst evs.
      change (sceneEvents i ([EvPublish (withLoading true <$> generatedImages st)] ++ evsL))
        with (sceneEvents i evsL) in *.
      destruct (Summary_budget _ _ _ _ _ _ _ _ _ _ Hsum Hne) as (args & r & Hatt & Hmark).
      exists args, r. split; [done|]. intros Hnc.
      destruct Hmark as (b & Hb & Hs).
      { rewrite Hst in Hnc. cbn in Hnc.
        destruct Hnc as [Hnc|(k & a & x & y & Hk & Hin)]; [by left|right].
        exists k, a, x, y. split; [done|].
        apply elem_of_cons in Hin as [Hin|Hin]; done. }
      exists (withSrc (resultSrc r) false b). rewrite Hst. cbn.
      split; [done|]. split; [done|]. split; [done|].
      intros Herr. destruct (resultSrc_ERROR _ Herr); auto.
    - (* single-scene regeneration *)
      destruct (handleRegenerate_spec env props (generatedImages st) imageId promptOverride st)
        as [[_ Hst]|(idx & imageToRegen & es & r & Hidx & Hi & Hid & Hatt & Himgs & Htr' & _)].
      { rewrite Hst in Htr. rewrite <- (app_nil_r (trace st)) in Htr at 1.
        apply app_inv_head in Htr. by subst evs. }
      rewrite Htr' in Htr. apply app_inv_head in Htr. subst evs.
      assert (Hse : forall k, sceneEvents k ([EvPublish (mapId imageId (withLoading true) (generatedImages st))]
                     ++ es ++ [EvPublish (generatedImages (handleRegenerate env props (generatedImages st) imageId promptOverride st))])
                     = sceneEvents k es).
      { intros k. rewrite !sceneEvents_app. cbn. by rewrite app_nil_r. }
      rewrite Hse in *.
      assert (i = idx) as ->.
      { destruct (decide (i = idx)); [done|]. exfalso. apply Hne.
        eapply sceneEvents_other; [done|]. by eapply Attempts_scene. }
      rewrite (sceneEvents_all idx es) by (by eapply Attempts_scene).
      eexists _, r. split; [exact Hatt|]. intros _.
      rewrite Himgs.
      erewrite mapId_hit; [|by eapply mapId_hit|done].
      eexists. split; [done|]. destruct r as [p|].
      + split; [done|]. split; [done|]. intros H. by destruct (dataUrl_not_ERROR p).
      + split; [done|]. split; [done|]. auto. }
  destruct Hgoal as (args & r & Hatt & Hmark).
  destruct (Attempts_counts _ _ _ _ Hatt) as (Hc1 & Hc2 & Hc3).
  exists args, r. split; [done|]. split; [done|]. split; [done|].
  intros Hnc. destruct (Hmark Hnc) as (img & Hi & Hl & Hs & He).
  exists img. split; [done|]. split; [done|]. split; [done|].
  intros Herr. destruct (He Herr) as [Hr|Hr]; [left; by apply Hc3|by right].
Qed.

(** ** The chain on concrete runs *)

(** Membership in an explicit list, by evaluation. *)
Ltac in_list :=
  apply list_elem_of_In; vm_compute; repeat (first [left; reflexivity | right]).

(** C1 on the run of three scenes, for the call of the third scene. *)
Lemma generate_continuity_witness :
  trace (handleGenerate chainHost chainProps (idle [])) = trace (idle []) ++ chainEvents /\
  EvCall 2 1 chainArgs (Some BBBB) ∈ chainEvents /\
  exists img,
    generatedImages (handleGenerate chainHost chainProps (idle [])) !! 1 = Some img /\
    ((exists p a' args',
         p <> [] /\ EvCall 1 a' args' (Some p) ∈ chainEvents /\
         src img = dataUrl p /\ a_previousImage chainArgs = Some (dataUrl p))
     \/
     ((forall p a' args', EvCall 1 a' args' (Some p) ∈ chainEvents -> p = []) /\
      src img = ERROR /\ a_previousImage chainArgs = None)).
Proof.
  assert (H1 : trace (handleGenerate chainHost chainProps (idle []))
               = trace (idle []) ++ chainEvents) by (vm_compute; reflexivity).
  assert (H2 : EvCall 2 1 chainArgs (Some BBBB) ∈ chainEvents) by in_list.
  exact (conj H1 (conj H2
           (generate_continuity chainHost chainProps (idle []) chainEvents 2 1 chainArgs
              (Some BBBB) H1 H2))).
Defined.

(** That run, evaluated: the third scene receives the payload of the second
    scene, not that of the first. *)
Example chain_run_evaluated :
  callsOf chainEvents
    = [(0, 1, None, Some AAAA); (1, 1, Some (dataUrl AAAA), Some BBBB);
       (2, 1, Some (dataUrl BBBB), Some BBBB)] /\
  src <$> generatedImages (handleGenerate chainHost chainProps (idle []))
    = [dataUrl AAAA; dataUrl BBBB; dataUrl BBBB].
Proof. by vm_compute. Qed.

(** C3 on a run stopped during the first pause of the second scene. *)
Lemma generate_cancellation_witness :
  trace (handleGenerate stopHost chainProps (idle [])) = trace (idle []) ++ stopEvents /\
  isStopping (handleGenerate stopHost chainProps (idle [])) = true /\
  let final := generatedImages (handleGenerate stopHost chainProps (idle [])) in
  exists i evs' before,
    i < length final /\
    length final = length (scenesOf chainProps) /\
    (forall k, i <= k < length (scenesOf chainProps) ->
       exists img, final !! k = Some img /\ src img = CANCELLED /\ isLoading img = false) /\
    (exists attempt args r, EvCall i attempt args r ∈ stopEvents) /\
    stopEvents = evs' ++ [EvPublish final] /\
    (forall k attempt args r, EvCall k attempt args r ∈ stopEvents -> k <= i) /\
    (forall k img, i <= k -> final !! k = Some img ->
       src img = CANCELLED /\ src img <> ERROR /\ isLoading img = false) /\
    lastPublished (trace (idle []) ++ evs') = Some before /\
    (forall k, k < i -> final !! k = before !! k) /\
    (forall k img, k < i -> final !! k = Some img ->
       isLoading img = false /\
       (src img = ERROR \/
        exists attempt args p, EvCall k attempt args (Some p) ∈ stopEvents /\ src img = dataUrl p)) /\
    (forall images img, EvPublish images ∈ stopEvents -> images !! i = Some img ->
       src img = [] \/ src img = CANCELLED).
Proof.
  assert (H1 : trace (handleGenerate stopHost chainProps (idle []))
               = trace (idle []) ++ stopEvents) by (vm_compute; reflexivity).
  assert (H2 : isStopping (handleGenerate stopHost chainProps (idle [])) = true)
    by (vm_compute; reflexivity).
  exact (conj H1 (conj H2
           (generate_cancellation stopHost chainProps (idle []) stopEvents H1 H2))).
Defined.

(** That run, evaluated: the second scene still makes its three attempts,
    the third scene is never attempted, and the second and third results are
    cancelled. *)
Example stopped_run_evaluated :
  callsOf stopEvents
    = [(0, 1, None, Some AAAA);
       (1, 1, Some (dataUrl AAAA), None); (1, 2, Some (dataUrl AAAA), None);
       (1, 3, Some (dataUrl AAAA), None)] /\
  src <$> generatedImages (handleGenerate stopHost chainProps (idle []))
    = [dataUrl AAAA; CANCELLED; CANCELLED].
Proof. by vm_compute. Qed.

(** A payload in flight: the user presses the stop button during a call that
    resolves; the payload is dropped and no further call is made. *)
Example in_flight_payload_dropped :
  let st' := handleGenerate (host (fun _ => Some AAAA) (during 0)) (propsOf (scriptOf 2))
               (idle []) in
  callsOf (trace st') = [(0, 1, None, Some AAAA)] /\
  src <$> generatedImages st' = [CANCELLED; CANCELLED].
Proof. by vm_compute. Qed.

(** *** Regenerate-all after a failure *)

(** C2 fails on the code. Regenerate-all over two results with an adapter
    that always fails: the first scene exhausts its three attempts, and the
    three calls for the second scene receive the string ['error'] as their
    continuity reference, where the specification (and the comment of the
    source at the assignment) promise no reference. *)
Theorem regenerateAll_failed_reference :
  let st' := handleRegenerateAll (host (fun _ => None) never) chainProps (idle twoTiles) in
  callsOf (trace st')
    = [(0, 1, None, None); (0, 2, None, None); (0, 3, None, None);
       (1, 1, Some ERROR, None); (1, 2, Some ERROR, None); (1, 3, Some ERROR, None)] /\
  src <$> generatedImages st' = [ERROR; ERROR].
Proof. by vm_compute. Qed.

(** In general, no call of regenerate-all for a scene after the first comes
    without a reference: it carries the [src] written for the scene before,
    be it a data URL or the failure marker. *)
Lemma regenerateAll_reference env props st evs j attempt args result :
  canRegenerateAll st ->
  trace (handleRegenerateAll env props st) = trace st ++ evs ->
  EvCall (S j) attempt args result ∈ evs ->
  exists img,
    generatedImages (handleRegenerateAll env props st) !! j = Some img /\
    a_previousImage args = Some (src img).
Proof.
  intros Hcan Htr Hin.
  destruct (handleRegenerateAll_summary env props st Hcan) as (evsL & rs & stL & Hsum & Hst & Htr').
  rewrite Htr' in Htr. apply app_inv_head in Htr. subst evs.
  apply elem_of_cons in Hin as [Hin|Hin]; [done|].
  destruct (Summary_call _ _ _ _ _ _ _ _ _ Hsum _ _ _ _ Hin) as (image & r & Hi & -> & Hatt & Hr).
  assert (Hj : j < length rs).
  { destruct Hr as [Hr|[Hr _]]; [apply lookup_lt_Some in Hr|]; lia. }
  destruct (lookup_lt_is_Some_2 rs j Hj) as [rj Hrj].
  destruct (Summary_done _ _ _ _ _ _ _ _ _ Hsum _ _ Hrj) as (imj & b & _ & _ & _ & Hsrc).
  exists (withSrc (resultSrc rj) false b). split; [by rewrite Hst|].
  cbn. rewrite Hrj. cbn. unfold entry, resultSrc. by destruct (chainEntry rj).
Qed.

(** *** Regenerate-all, cancelled *)

(** C4 fails on the code. The user presses the stop button during the first
    call of a regenerate-all run: the run stops at the first scene, and both
    results keep what they held before (an image, a failure marker); none is
    marked cancelled. *)
Lemma regenerateAll_cancellation_counterexample :
  let st' := handleRegenerateAll pressAtOnce chainProps (idle mixedTiles) in
  isStopping st' = true /\
  callsOf (trace st') = [(0, 1, None, Some BBBB)] /\
  src <$> generatedImages st' = [dataUrl AAAA; ERROR] /\
  isLoading <$> generatedImages st' = [false; false] /\
  Forall (fun img => src img <> CANCELLED) (generatedImages st').
Proof.
  cbv zeta. split; [by vm_compute|]. split; [by vm_compute|].
  split; [by vm_compute|]. split; [by vm_compute|].
  vm_compute. repeat constructor; discriminate.
Qed.

(** C4, as the code has it, on that run. *)
Lemma regenerateAll_cancellation_witness :
  canRegenerateAll (idle mixedTiles) /\
  trace (handleRegenerateAll pressAtOnce chainProps (idle mixedTiles))
    = trace (idle mixedTiles) ++ pressEvents /\
  isStopping (handleRegenerateAll pressAtOnce chainProps (idle mixedTiles)) = true /\
  exists i,
    i < length (generatedImages (idle mixedTiles)) /\
    (exists attempt args r, EvCall i attempt args r ∈ pressEvents) /\
    (forall k attempt args r, EvCall k attempt args r ∈ pressEvents -> k <= i) /\
    (forall k img, i <= k -> generatedImages (idle mixedTiles) !! k = Some img ->
       generatedImages (handleRegenerateAll pressAtOnce chainProps (idle mixedTiles)) !! k
       = Some (withLoading false img)).
Proof.
  assert (H0 : canRegenerateAll (idle mixedTiles)) by (by split).
  assert (H1 : trace (handleRegenerateAll pressAtOnce chainProps (idle mixedTiles))
               = trace (idle mixedTiles) ++ pressEvents) by (vm_compute; reflexivity).
  assert (H2 : isStopping (handleRegenerateAll pressAtOnce chainProps (idle mixedTiles)) = true)
    by (vm_compute; reflexivity).
  exact (conj H0 (conj H1 (conj H2
           (regenerateAll_cancellation pressAtOnce chainProps (idle mixedTiles) pressEvents
              H0 H1 H2)))).
Defined.

(** *** The retry budget *)

(** C5 fails on the code in two places. A call that resolves with an empty
    payload ends the attempts of a full run and the result is marked failed
    after one call, none of which failed; and a call that resolves while the
    user presses the stop button leaves the result cancelled, not
    succeeded. *)
Lemma retry_budget_counterexample :
  (let st' := handleGenerate (host (fun _ => Some []) never) (propsOf (scriptOf 1)) (idle []) in
   callsOf (trace st') = [(0, 1, None, Some [])] /\
   src <$> generatedImages st' = [ERROR]) /\
  (let st' := handleGenerate (host (fun _ => Some AAAA) (during 0)) (propsOf (scriptOf 1)) (idle []) in
   callsOf (trace st') = [(0, 1, None, Some AAAA)] /\
   src <$> generatedImages st' = [CANCELLED]).
Proof. by vm_compute. Qed.

(** C5, as the code has it, on a full run that succeeds at the third attempt. *)
Lemma retry_budget_witness :
  trace (run FullRun thirdTime (propsOf (scriptOf 1)) (idle []))
    = trace (idle []) ++ thirdTimeEvents /\
  sceneEvents 0 thirdTimeEvents <> [] /\
  exists args r,
    Attempts 0 args r (sceneEvents 0 thirdTimeEvents) /\
    count isCall (sceneEvents 0 thirdTimeEvents) <= MAX_ATTEMPTS /\
    count isSleep (sceneEvents 0 thirdTimeEvents)
      = count isFailedCall (sceneEvents 0 thirdTimeEvents)
        - match r with Some _ => 0 | None => 1 end /\
    (notCancelledAt FullRun (run FullRun thirdTime (propsOf (scriptOf 1)) (idle []))
       thirdTimeEvents 0 ->
     exists img,
       generatedImages (run FullRun thirdTime (propsOf (scriptOf 1)) (idle [])) !! 0 = Some img /\
       isLoading img = false /\
       src img = markedSrc FullRun r /\
       (src img = ERROR ->
        count isFailedCall (sceneEvents 0 thirdTimeEvents) = MAX_ATTEMPTS
        \/ (r = Some [] /\ checksPayload FullRun = true))).
Proof.
  assert (H1 : trace (run FullRun thirdTime (propsOf (scriptOf 1)) (idle []))
               = trace (idle []) ++ thirdTimeEvents) by (vm_compute; reflexivity).
  assert (H2 : sceneEvents 0 thirdTimeEvents <> []) by (vm_compute; discriminate).
  exact (conj H1 (conj H2
           (retry_budget FullRun thirdTime (propsOf (scriptOf 1)) (idle []) thirdTimeEvents 0
              H1 H2))).
Defined.

(** That run, evaluated: three calls, two pauses of five seconds, and the
    result succeeded with the payload of the third. *)
Example third_time_evaluated :
  count isCall thirdTimeEvents = 3 /\
  omap (fun e => match e with EvSleep _ ms => Some ms | _ => None end) thirdTimeEvents
    = [5000%N; 5000%N] /\
  src <$> generatedImages (handleGenerate thirdTime (propsOf (scriptOf 1)) (idle []))
    = [dataUrl AAAA].
Proof. by vm_compute. Qed.

(** ** The start of a full run *)

(** C6, as the code has it. When no scene is parsed (within the batch
    limit) the full run reports the input-validation message and ends with
    no result created and no adapter call made; the stop flag and the error
    were reset and the store was emptied before the text was parsed, so the
    store ends empty whatever it held. *)
Theorem generate_no_scene env props st :
  take (batchSize props) (parsePrompts (promptsText props)) = [] ->
  let st' := handleGenerate env props st in
  error st' = Some NO_PROMPT_FOUND /\
  generatedImages st' = [] /\
  isGenerating st' = false /\
  isStopping st' = false /\
  trace st' = trace st ++ [EvPublish []] /\
  calls st' = calls st /\ awaits st' = awaits st /\ uuids st' = uuids st.
Proof.
  intros He st'. subst st'. rewrite handleGenerate_empty by done. by cbn.
Qed.

(** C6 fails on the code: a run over a text without any scene, started on a
    store that holds two results, reports the message and leaves the store
    empty. *)
Lemma generate_no_scene_counterexample :
  let st := idle twoTiles in
  let st' := handleGenerate chainHost (propsOf (utf16 "No scene in this text.")) st in
  parsePrompts (utf16 "No scene in this text.") = [] /\
  error st' = Some NO_PROMPT_FOUND /\
  generatedImages st = twoTiles /\
  generatedImages st' = [] /\
  generatedImages st' <> generatedImages st.
Proof. cbv zeta. repeat split; by vm_compute. Qed.

(** C6, as the code has it, on that run. *)
Lemma generate_no_scene_witness :
  take (batchSize (propsOf (utf16 "No scene in this text.")))
    (parsePrompts (promptsText (propsOf (utf16 "No scene in this text.")))) = [] /\
  let st' := handleGenerate chainHost (propsOf (utf16 "No scene in this text.")) (idle twoTiles) in
  error st' = Some NO_PROMPT_FOUND /\
  generatedImages st' = [] /\
  isGenerating st' = false /\
  isStopping st' = false /\
  trace st' = trace (idle twoTiles) ++ [EvPublish []] /\
  calls st' = calls (idle twoTiles) /\ awaits st' = awaits (idle twoTiles)
  /\ uuids st' = uuids (idle twoTiles).
Proof.
  assert (H1 : take (batchSize (propsOf (utf16 "No scene in this text.")))
                 (parsePrompts (promptsText (propsOf (utf16 "No scene in this text.")))) = [])
    by (vm_compute; reflexivity).
  exact (conj H1
           (generate_no_scene chainHost (propsOf (utf16 "No scene in this text."))
              (idle twoTiles) H1)).
Defined.

(** C7, as the code has it. A full run that parses at least one scene
    empties the store and then publishes, in one step and before any call of
    the adapter, one pending result for each of the first [batchSize] parsed
    scenes, in the order of the scenes: prompt, label, script and character
    reference come from the scene, the payload is empty and the loading flag
    is set. *)
Theorem generate_initial env props st :
  let scenes := take (batchSize props) (parsePrompts (promptsText props)) in
  scenes <> [] ->
  exists initial rest,
    trace (handleGenerate env props st)
      = trace st ++ EvPublish [] :: EvPublish initial :: rest /\
    length initial = length scenes /\
    forall k scene, scenes !! k = Some scene ->
      exists img,
        initial !! k = Some img /\
        id img = randomUUID env (uuids st + k) /\
        prompt img = s_prompt scene /\
        sceneName img = CANH ++ numberToString (sceneNumber scene) /\
        sceneScript img = fullText scene /\
        characterRefId img = resolveCharacter env (characters props) (characterName scene) /\
        src img = [] /\ isLoading img = true /\ isSelected img = false.
Proof.
  intros scenes Hne.
  destruct (handleGenerate_summary env props st Hne) as (evsL & rs & stL & _ & _ & Htr).
  exists (initialImages env props st), evsL. split; [exact Htr|].
  unfold initialImages, scenesOf. subst scenes. split; [by rewrite length_imap|].
  intros k scene Hk. exists (initialImage env props (uuids st) k scene).
  split; [|done]. by rewrite list_lookup_imap, Hk.
Qed.

(** C7 fails on the code: for a script of eleven scenes and the batch size
    of ten, the store is given ten results. *)
Lemma generate_initial_counterexample :
  let st' := handleGenerate chainHost (propsOf (scriptOf 11)) (idle []) in
  batchSize (propsOf (scriptOf 11)) = 10 /\
  length (parsePrompts (scriptOf 11)) = 11 /\
  take 2 (length <$> omap publication (trace st')) = [0; 10] /\
  length (generatedImages st') = 10.
Proof. by vm_compute. Qed.

(** C7, as the code has it, on the run of three scenes. *)
Lemma generate_initial_witness :
  take (batchSize chainProps) (parsePrompts (promptsText chainProps)) <> [] /\
  exists initial rest,
    trace (handleGenerate chainHost chainProps (idle []))
      = trace (idle []) ++ EvPublish [] :: EvPublish initial :: rest /\
    length initial = length (take (batchSize chainProps) (parsePrompts (promptsText chainProps))) /\
    forall k scene,
      take (batchSize chainProps) (parsePrompts (promptsText chainProps)) !! k = Some scene ->
      exists img,
        initial !! k = Some img /\
        id img = randomUUID chainHost (uuids (idle []) + k) /\
        prompt img = s_prompt scene /\
        sceneName img = CANH ++ numberToString (sceneNumber scene) /\
        sceneScript img = fullText scene /\
        characterRefId img
          = resolveCharacter chainHost (characters chainProps) (characterName scene) /\
        src img = [] /\ isLoading img = true /\ isSelected img = false.
Proof.
  assert (H1 : take (batchSize chainProps) (parsePrompts (promptsText chainProps)) <> [])
    by (vm_compute; discriminate).
  exact (conj H1 (generate_initial chainHost chainProps (idle []) H1)).
Defined.

(** ** Single-scene regeneration: the continuity reference *)

(** C9 fails on the code. After the run above the store holds a failed first
    result, eight succeeded ones and a cancelled tenth.  Regenerating the
    second result looks for a result whose label starts with [Cảnh 1] and
    whose [src] is neither empty nor ['error']: the failed first result is
    passed over, the cancelled tenth one ([Cảnh 10]) is taken, and the
    adapter receives the string ['cancelled'] as its continuity reference. *)
Theorem regenerate_cancelled_reference :
  src <$> generatedImages afterTen
    = [ERROR] ++ replicate 8 (dataUrl AAAA) ++ [CANCELLED] /\
  (sceneName <$> generatedImages afterTen) !! 9 = Some (utf16 "Cảnh 10") /\
  let st' := handleRegenerate tenHost tenProps (generatedImages afterTen)
               (utf16 "id-1") None afterTen in
  callsOf (drop (length (trace afterTen)) (trace st'))
    = [(1, 1, Some CANCELLED, Some AAAA)].
Proof. by vm_compute. Qed.

(** The same defect without a clash of labels: the script was reordered
    after a cancelled run, so that the cancelled scene now precedes the
    regenerated one. *)
Example reordered_script_reference :
  let images := [tile 1 (dataUrl AAAA); tile 2 CANCELLED] in
  let props := propsOf (sceneText 2 (utf16 "A cat sleeps.") ++ sceneText 1 (utf16 "A dog runs.")) in
  regenerateReference props images (tile 1 (dataUrl AAAA)) = Some CANCELLED.
Proof. by vm_compute. Qed.

(** What the lookup does in general: the reference is the [src] of the
    first image, in the order of the store, that passes the test of the
    source; a failed result never passes it. *)
Lemma regenerateReference_not_ERROR props images imageToRegen :
  regenerateReference props images imageToRegen <> Some ERROR.
Proof.
  unfold regenerateReference.
  destruct (matchSceneName _) as [ds|]; [|done].
  destruct (findIndex _ _) as [[|k]|]; try done.
  destruct (parsePrompts _ !! k) as [prev|]; [|done].
  destruct (List.find _ images) as [img|] eqn:E; [|done].
  apply List.find_some in E as [_ E]. cbn. intros [= H].
  rewrite H in E. rewrite bool_decide_eq_true_2 in E by done.
  by rewrite andb_false_r in E.
Qed.

(** ** Single-scene regeneration: the prompt override *)

Lemma getSubstitution_plain matched before after replacement :
  Forall (fun c => c <> 36%N) replacement ->
  getSubstitution matched before after replacement = replacement.
Proof.
  induction 1 as [|c r Hc _ IH]; [done|]. cbn.
  apply N.eqb_neq in Hc. rewrite Hc. by rewrite IH.
Qed.

(** Everything from the first prompt label to the end of the script is
    replaced: no field after the label survives. *)
Lemma replacePromptField_tail script before after promptOverride :
  find_sub PROMPT_LABEL script = Some (before, after) ->
  Forall (fun c => c <> 36%N) promptOverride ->
  replacePromptField script promptOverride = before ++ PROMPT_LABEL ++ 32%N :: promptOverride.
Proof.
  intros Hf Hp. unfold replacePromptField. rewrite Hf. f_equal.
  apply getSubstitution_plain. apply Forall_app. split.
  - vm_compute. repeat constructor; discriminate.
  - constructor; [discriminate|done].
Qed.

(** C10 fails on the code. A succeeded result whose script has a character
    field after the prompt field; the user edits the prompt in the script
    editor and saves.  The regeneration succeeds, the prompt of the result is
    the new prompt, and the script stored for it ends with the new prompt:
    the character field that followed the prompt field, in the old script as
    in the edited one, is gone. *)
Theorem regenerate_override_drops_fields :
  let st := idle [tile 1 (dataUrl AAAA)] in
  let st' := handlePromptEditSave (host (fun _ => Some BBBB) never) (propsOf dogScript)
               (tile 1 (dataUrl AAAA)) catScript st in
  includes dogScript (utf16 "Nhân vật: Anna") = true /\
  includes catScript (utf16 "Nhân vật: Anna") = true /\
  (src <$> generatedImages st') = [dataUrl BBBB] /\
  (prompt <$> generatedImages st') = [utf16 "A cat sleeps."] /\
  (sceneScript <$> generatedImages st')
    = [utf16 "Cảnh 1: canh" ++ [10%N] ++ utf16 "Prompt (Câu lệnh tiếng Anh): A cat sleeps."] /\
  Forall (fun img => includes (sceneScript img) NHAN_VAT = false) (generatedImages st').
Proof.
  cbv zeta. repeat split; try (by vm_compute). vm_compute. repeat constructor.
Qed.

(** ** The parser *)

Lemma span_spec f s :
  s = (span f s).1 ++ (span f s).2 /\
  Forall (fun c => f c = true) (span f s).1 /\
  match (span f s).2 with [] => True | c :: _ => f c = false end.
Proof.
  induction s as [|c r (IH1 & IH2 & IH3)]; cbn; [by repeat split|].
  destruct (f c) eqn:E; [|by repeat split].
  destruct (span f r) as [a b]. cbn in *. repeat split; [by f_equal| |done].
  by constructor.
Qed.

Lemma span_snd_nonempty f s :
  Exists (fun c => f c = false) s -> (span f s).2 <> [].
Proof.
  induction 1 as [c r Hc|c r _ IH]; cbn.
  - by rewrite Hc.
  - destruct (f c); [|done]. by destruct (span f r).
Qed.

Lemma span_snd_exists f s :
  (span f s).2 <> [] -> Exists (fun c => f c = false) s.
Proof.
  intros H. destruct (span_spec f s) as (Hs & _ & Hh).
  destruct (span f s).2 as [|c r]; [done|].
  rewrite Hs. apply Exists_app. right. by constructor.
Qed.

Lemma span_run f run c rest :
  Forall (fun x => f x = true) run -> f c = false ->
  span f (run ++ c :: rest) = (run, c :: rest).
Proof.
  induction 1 as [|x run Hx _ IH]; intros Hc; cbn.
  - by rewrite Hc.
  - by rewrite Hx, IH.
Qed.

Lemma strip_prefix_Some p s r : strip_prefix p s = Some r <-> s = p ++ r.
Proof.
  revert s. induction p as [|a p IH]; intros s; cbn.
  - split; congruence.
  - destruct s as [|b s]; [done|]. destruct (N.eqb_spec a b) as [->|Hne].
    + rewrite IH. split; [by intros ->|by intros [= ->]].
    + split; [done|]. by intros [= ? ?].
Qed.

Lemma find_sub_Some p s before after :
  find_sub p s = Some (before, after) -> s = before ++ p ++ after.
Proof.
  revert before. induction s as [|c s IH]; intros before; cbn.
  - destruct (strip_prefix p []) eqn:E; [|done].
    intros [= <- <-]. by apply strip_prefix_Some in E.
  - destruct (strip_prefix p (c :: s)) eqn:E.
    + intros [= <- <-]. by apply strip_prefix_Some in E.
    + destruct (find_sub p s) as [[b a]|]; [|done].
      intros [= <- <-]. cbn. f_equal. by apply IH.
Qed.

Lemma find_sub_hit p s r : strip_prefix p s = Some r -> find_sub p s = Some ([], r).
Proof. intros E. destruct s; cbn; by rewrite E. Qed.

(** The match of [find_sub] is the leftmost one: whatever follows another
    occurrence also follows the one found. *)
Lemma find_sub_first p before' after' :
  exists before y, find_sub p (before' ++ p ++ after') = Some (before, y ++ after').
Proof.
  induction before' as [|c b IH].
  - exists [], []. cbn [app]. apply find_sub_hit. by apply strip_prefix_Some.
  - destruct IH as (before & y & IH). cbn [app find_sub].
    destruct (strip_prefix p (c :: b ++ p ++ after')) as [r|] eqn:E.
    + exists []. apply strip_prefix_Some in E.
      assert (Hs1 : after' `suffix_of` c :: b ++ p ++ after').
      { exists (c :: b ++ p). cbn. by rewrite <- app_assoc. }
      assert (Hs2 : r `suffix_of` c :: b ++ p ++ after') by (by exists p).
      destruct (suffix_weak_total _ _ _ Hs1 Hs2) as [[z ->]|Hrs]; [by exists z|].
      exfalso. apply suffix_length in Hrs. apply (f_equal length) in E.
      cbn in E. rewrite !length_app in E. lia.
    + rewrite IH. by exists (c :: before), y.
Qed.

Lemma find_sub_None p s before after : find_sub p s = None -> s <> before ++ p ++ after.
Proof.
  intros H ->. destruct (find_sub_first p before after) as (b & y & E). congruence.
Qed.

(** *** Headers and blocks *)

Lemma isDigit_range c : isDigit c = true -> (48 <= c <= 57)%N.
Proof. unfold isDigit. rewrite andb_true_iff, !N.leb_le. tauto. Qed.

Lemma matchHeader_inv s ds rest :
  matchHeader s = Some (ds, rest) ->
  s = CANH ++ ds ++ COLON :: rest /\ ds <> [] /\ Forall (fun c => isDigit c = true) ds.
Proof.
  unfold matchHeader. destruct (strip_prefix CANH s) as [r|] eqn:E; [|done].
  apply strip_prefix_Some in E. destruct (span_spec isDigit r) as (Hr & Hd & _).
  destruct (span isDigit r) as [[|d ds'] [|c rest']]; try done. cbn in *.
  destruct (N.eqb_spec c COLON) as [->|]; [|done].
  intros [= <- <-]. by rewrite E, Hr.
Qed.

Lemma matchHeader_intro ds rest :
  ds <> [] -> Forall (fun c => isDigit c = true) ds ->
  matchHeader (CANH ++ ds ++ COLON :: rest) = Some (ds, rest).
Proof.
  intros Hne Hd. unfold matchHeader.
  rewrite (proj2 (strip_prefix_Some CANH _ (ds ++ COLON :: rest)) eq_refl).
  rewrite span_run by done. by destruct ds.
Qed.

Lemma isHeader_first c r : c <> 67%N -> isHeader (c :: r) = false.
Proof.
  intros Hc. unfold isHeader.
  destruct (matchHeader (c :: r)) as [[ds rest]|] eqn:Em; [|done].
  apply matchHeader_inv in Em as (Hs & _). cbn in Hs. by injection Hs as -> _.
Qed.

(** No header begins inside another one: [cut] goes through the rest of a
    header without cutting. *)
Lemma cut_skip p s :
  Forall (fun c => c <> 67%N) p -> cut (p ++ s) = (p ++ (cut s).1, (cut s).2).
Proof.
  induction 1 as [|c p Hc _ IH]; cbn [app cut].
  - by destruct (cut s).
  - rewrite IH. cbn. by rewrite isHeader_first.
Qed.

Lemma header_no_overlap ds :
  Forall (fun c => isDigit c = true) ds ->
  Forall (fun c => c <> 67%N) (tail CANH ++ ds ++ [COLON]).
Proof.
  intros Hd. apply Forall_app. split; [vm_compute; repeat constructor; discriminate|].
  apply Forall_app. split; [|by repeat constructor].
  eapply Forall_impl; [exact Hd|]. cbn. intros c Hc ->. by vm_compute in Hc.
Qed.

Lemma searchHeader_hit s ds rest :
  matchHeader s = Some (ds, rest) -> searchHeader s = Some ([], ds).
Proof.
  intros E. destruct s as [|c s]; [by vm_compute in E|].
  cbn [searchHeader]. by rewrite E.
Qed.

(** Every block starts with a header and runs up to the next one. *)
Lemma sceneBlocks_header text block :
  block ∈ sceneBlocks text ->
  exists ds rest,
    matchHeader block = Some (ds, rest) /\ searchHeader block = Some ([], ds).
Proof.
  unfold sceneBlocks. induction text as [|c r IH]; cbn; [by intros ?%elem_of_nil|].
  destruct (cut r) as [pre blocks] eqn:Ecut. cbn in IH.
  destruct (isHeader (c :: r)) eqn:Eh; cbn; [|done].
  intros [->|Hin]%elem_of_cons; [|by apply IH].
  unfold isHeader in Eh. destruct (matchHeader (c :: r)) as [[ds rest]|] eqn:Em; [|done].
  destruct (matchHeader_inv _ _ _ Em) as (Hs & Hne & Hd).
  assert (Hc : c = 67%N /\ r = (tail CANH ++ ds ++ [COLON]) ++ rest).
  { cbn in Hs. injection Hs as -> ->. split; [done|]. cbn. by rewrite <- app_assoc. }
  destruct Hc as [-> ->].
  rewrite cut_skip in Ecut by (by apply header_no_overlap).
  injection Ecut as <- _.
  match goal with
  | |- exists _ _, matchHeader ?b = _ /\ _ =>
      replace b with (CANH ++ ds ++ COLON :: (cut rest).1)
        by (cbn; by rewrite <- app_assoc)
  end.
  exists ds, (cut rest).1.
  assert (Hm := matchHeader_intro ds (cut rest).1 Hne Hd).
  split; [done|]. by apply searchHeader_hit with (cut rest).1.
Qed.

(** *** The prompt field *)

Lemma startsWith_head c r a p : startsWith (c :: r) (a :: p) = true -> a = c.
Proof.
  unfold startsWith. destruct (strip_prefix (a :: p) (c :: r)) as [x|] eqn:E; [|done].
  apply strip_prefix_Some in E. by injection E as -> _.
Qed.

Lemma promptStop_text c r : isWhiteSpace c = false -> promptStop (c :: r) = false.
Proof.
  intros Hc. unfold promptStop.
  assert (H : forall p, startsWith (c :: r) (10%N :: p) = false).
  { intros p. destruct (startsWith (c :: r) (10%N :: p)) eqn:E; [|done].
    apply startsWith_head in E. subst c. by vm_compute in Hc. }
  change NL_NHAN_VAT with (10%N :: NHAN_VAT).
  change NL_THOI_LUONG with (10%N :: tail NL_THOI_LUONG).
  change NL_KEN_BURNS with (10%N :: tail NL_KEN_BURNS).
  by rewrite !H.
Qed.

Lemma trim_text c r : isWhiteSpace c = false -> trim (c :: r) <> [].
Proof.
  intros Hc. unfold trim.
  assert (trimStart (c :: r) = c :: r) as -> by (unfold trimStart; cbn; by rewrite Hc).
  unfold trimEnd, trimStart. intros H.
  apply (f_equal reverse) in H. rewrite reverse_involutive, reverse_nil in H.
  revert H. apply span_snd_nonempty. rewrite reverse_cons.
  apply Exists_app. right. by constructor.
Qed.

Lemma promptMatch_text block :
  hasPromptText block ->
  exists c p, promptMatch block = Some (c :: p) /\ isWhiteSpace c = false.
Proof.
  intros (before & after & -> & Hex). unfold promptMatch.
  destruct (find_sub_first PROMPT_LABEL before after) as (b & y & ->).
  assert (Hex' : Exists (fun c => isWhiteSpace c = false) (y ++ after))
    by (apply Exists_app; by right).
  apply (span_snd_nonempty isWhiteSpace) in Hex'.
  destruct (span_spec isWhiteSpace (y ++ after)) as (_ & _ & Hh).
  destruct (span isWhiteSpace (y ++ after)).2 as [|c w]; [done|].
  exists c, (lazyUntil promptStop w). split; [|done].
  cbn [snd lazyUntil]. by rewrite promptStop_text.
Qed.

Lemma promptMatch_hasPromptText block c p :
  promptMatch block = Some (c :: p) -> hasPromptText block.
Proof.
  unfold promptMatch. destruct (find_sub PROMPT_LABEL block) as [[before after]|] eqn:E; [|done].
  intros [= H]. apply find_sub_Some in E. exists before, after. split; [done|].
  apply (span_snd_exists isWhiteSpace). intros Hnil. by rewrite Hnil in H.
Qed.

(** What the body of the loop of [parsePrompts] does with a block. *)
Lemma parseBlock_spec block ds rest :
  matchHeader block = Some (ds, rest) ->
  (hasPromptText block /\
   exists scene, parseBlock block = Some scene /\
     sceneNumber scene = digitsValue ds /\ fullText scene = trim block /\
     s_prompt scene <> [])
  \/ (~ hasPromptText block /\ parseBlock block = None).
Proof.
  intros Hm. unfold parseBlock. rewrite (searchHeader_hit _ _ _ Hm).
  destruct (promptMatch block) as [[|c p]|] eqn:Ep.
  - right. split; [|done]. intros H.
    destruct (promptMatch_text _ H) as (c & p & Hp & _). congruence.
  - left. split; [by eapply promptMatch_hasPromptText|].
    eexists. split; [done|]. cbn. split; [done|]. split; [done|].
    apply trim_text.
    destruct (promptMatch_text block) as (c' & p' & Hp & Hc);
      [by eapply promptMatch_hasPromptText|].
    congruence.
  - right. split; [|done]. intros H.
    destruct (promptMatch_text _ H) as (c & p & Hp & _). congruence.
Qed.

(** What the loop of [parsePrompts] keeps: every block starts with a scene
    header, and a block is kept exactly when the prompt label occurs in it
    with text after it, be it the text of a later field
    ([hasPromptText]); it then gives the scene with the number of its
    header, the block as full text and a prompt that is not empty. *)
Lemma parsePrompts_keeps_text_after_label text :
  parsePrompts text = omap parseBlock (sceneBlocks text) /\
  (forall block, block ∈ sceneBlocks text ->
     exists ds rest,
       matchHeader block = Some (ds, rest) /\
       ((hasPromptText block /\
         exists scene, parseBlock block = Some scene /\ scene ∈ parsePrompts text /\
           sceneNumber scene = digitsValue ds /\ fullText scene = trim block /\
           s_prompt scene <> [])
        \/ (~ hasPromptText block /\ parseBlock block = None))) /\
  (forall scene, scene ∈ parsePrompts text ->
     s_prompt scene <> [] /\
     exists block ds rest,
       block ∈ sceneBlocks text /\ matchHeader block = Some (ds, rest) /\
       hasPromptText block /\ parseBlock block = Some scene /\
       sceneNumber scene = digitsValue ds).
Proof.
  split; [done|]. split.
  - intros block Hin.
    destruct (sceneBlocks_header _ _ Hin) as (ds & rest & Hm & _).
    exists ds, rest. split; [done|].
    destruct (parseBlock_spec _ _ _ Hm) as [(Hp & scene & Hs & Hrest)|Hno]; [left|by right].
    split; [done|]. exists scene. split; [done|]. split; [|done].
    unfold parsePrompts. apply list_elem_of_omap. by exists block.
  - intros scene Hin. unfold parsePrompts in Hin.
    apply list_elem_of_omap in Hin as (block & Hin & Hs).
    destruct (sceneBlocks_header _ _ Hin) as (ds & rest & Hm & _).
    destruct (parseBlock_spec _ _ _ Hm) as [(Hp & scene' & Hs' & Hn & _ & Hne)|[_ Hno]];
      [|congruence].
    assert (scene' = scene) as -> by congruence.
    split; [done|]. by exists block, ds, rest.
Qed.

(** *** The parser on concrete texts *)

Example parsePrompts_mixed :
  length (sceneBlocks mixedScript) = 3 /\
  (fun s => (sceneNumber s, s_prompt s, characterName s)) <$> parsePrompts mixedScript
    = [(1%N, utf16 "A dog runs.", utf16 "Anna"); (2%N, utf16 "A dog runs.", utf16 "Anna")].
Proof. by vm_compute. Qed.

(** A block without the prompt label is left out. *)
Example parsePrompts_no_label :
  lastBlock ∈ sceneBlocks mixedScript /\ parseBlock lastBlock = None.
Proof. split; [in_list|by vm_compute]. Qed.

(** The order of the result is the order of the blocks, not of the numbers. *)
Example parsePrompts_textual_order :
  sceneNumber <$> parsePrompts (sceneText 7 (utf16 "x") ++ sceneText 2 (utf16 "y"))
    = [7%N; 2%N].
Proof. by vm_compute. Qed.

(** [\s*] takes line ends too: a prompt label with nothing on its line is
    given the text of the next line, here the character field. *)
Example parsePrompts_empty_prompt_line :
  s_prompt <$> parsePrompts (utf16 "Cảnh 1: a" ++ [10%N] ++ PROMPT_LABEL ++ [10%N]
                               ++ utf16 "Nhân vật: Anna")
    = [utf16 "Nhân vật: Anna"].
Proof. by vm_compute. Qed.

(** A block whose prompt field, read as the description words it, has text
    in it is kept, and the prompt of its scene is that field, trimmed. *)
Lemma promptField_kept block field :
  promptField block = Some field ->
  Exists (fun c => isWhiteSpace c = false) field ->
  promptMatch block = Some (trimStart field) /\ trimStart field <> [].
Proof.
  unfold promptField, promptMatch.
  destruct (find_sub PROMPT_LABEL block) as [[before after]|]; [|done].
  intros [= <-]. clear before block. unfold trimStart.
  induction after as [|c r IH]; [by inversion 1|].
  cbn [lazyUntil]. destruct (promptStop (c :: r)) eqn:Es; [by inversion 1|].
  intros Hex. cbn [span]. destruct (isWhiteSpace c) eqn:Ec.
  - apply Exists_cons in Hex as [Hc|Hex]; [congruence|].
    destruct (span isWhiteSpace r) as [ws rest] eqn:Er.
    destruct (span isWhiteSpace (lazyUntil promptStop r)) as [ws' rest'] eqn:Er'.
    cbn [snd] in *. by apply IH.
  - cbn [snd lazyUntil]. by rewrite Es.
Qed.

(** C8 fails on the code.  The prompt field of [blankPromptBlock], the
    content between the prompt label and the next field label, is empty, so
    the block yields no prompt text and the parser should leave it out; but
    [parsePrompts] keeps it, with the line of the character field as prompt:
    [\s*] takes the line feed in front of the label, and the lookahead
    [\nNhân vật:], which is there to end the field at that label, no longer
    finds it.  With a text in the field ([filledPromptBlock]) the lookahead
    does end the prompt at the label. *)
Theorem parsePrompts_blank_prompt_field :
  sceneBlocks blankPromptBlock = [blankPromptBlock] /\
  (exists rest, matchHeader blankPromptBlock = Some (utf16 "1", rest)) /\
  promptField blankPromptBlock = Some [] /\
  (fun s => (sceneNumber s, s_prompt s, characterName s)) <$> parsePrompts blankPromptBlock
    = [(1%N, utf16 "Nhân vật: Anna", utf16 "Anna")] /\
  promptField filledPromptBlock = Some (utf16 " A dog runs.") /\
  (fun s => (sceneNumber s, s_prompt s, characterName s)) <$> parsePrompts filledPromptBlock
    = [(1%N, utf16 "A dog runs.", utf16 "Anna")].
Proof.
  split; [by vm_compute|]. split; [eexists; by vm_compute|].
  split; [by vm_compute|]. split; [by vm_compute|]. split; by vm_compute.
Qed.


(** * Further properties *)

(** ** Numbers and labels *)

Lemma uintDigits_digits u : Forall (fun c => isDigit c = true) (uintDigits u).
Proof. induction u; cbn; constructor; done. Qed.

Lemma digitsValue_acc u acc :
  foldl (fun a d => (a * 10 + (d - 48))%N) (N.pos acc) (uintDigits u)
  = N.pos (Pos.of_uint_acc u acc).
Proof.
  revert acc. induction u; intros acc; cbn [uintDigits foldl Pos.of_uint_acc]; [done|..];
    (rewrite <- IHu; f_equal; lia).
Qed.

Lemma digitsValue_uintDigits u : digitsValue (uintDigits u) = N.of_uint u.
Proof.
  unfold digitsValue, N.of_uint.
  induction u; cbn [uintDigits foldl Pos.of_uint]; [done|exact IHu|..];
    apply (digitsValue_acc u).
Qed.

(** [parseInt(String(n), 10) = n] *)
Lemma digitsValue_numberToString n : digitsValue (numberToString n) = n.
Proof.
  unfold numberToString. rewrite digitsValue_uintDigits.
  apply DecimalN.Unsigned.of_to.
Qed.

Lemma numberToString_nonempty n : numberToString n <> [].
Proof.
  intros H. pose proof (digitsValue_numberToString n) as Hv.
  rewrite H in Hv. cbn in Hv. subst n. done.
Qed.

Lemma span_app_stop f run rest :
  Forall (fun x => f x = true) run ->
  match rest with [] => True | c :: _ => f c = false end ->
  span f (run ++ rest) = (run, rest).
Proof.
  intros Hrun Hrest. destruct rest as [|c rest].
  - rewrite app_nil_r. induction Hrun as [|x run Hx _ IH]; cbn; [done|].
    by rewrite Hx, IH.
  - by apply span_run.
Qed.

Lemma matchSceneName_label ds rest :
  ds <> [] -> Forall (fun c => isDigit c = true) ds ->
  match rest with [] => True | c :: _ => isDigit c = false end ->
  matchSceneName (CANH ++ ds ++ rest) = Some ds.
Proof.
  intros Hne Hd Hrest.
  change (CANH ++ ds ++ rest) with (67%N :: tail CANH ++ ds ++ rest).
  cbn [matchSceneName].
  change (67%N :: tail CANH ++ ds ++ rest) with (CANH ++ ds ++ rest).
  rewrite (proj2 (strip_prefix_Some CANH _ (ds ++ rest)) eq_refl).
  rewrite span_app_stop by done. cbn. by destruct ds.
Qed.

(** X1. The label [handleGenerate] gives to a result is read back by
    [handleRegenerate] as the number of the scene the result was made from.
    Scene numbers are taken below 2^53, where the numbers of JavaScript are
    exact and [String] writes all their digits. *)
Theorem sceneName_round_trip env props firstUUID k scene :
  (sceneNumber scene < 2 ^ 53)%N ->
  exists ds,
    matchSceneName (sceneName (initialImage env props firstUUID k scene)) = Some ds /\
    digitsValue ds = sceneNumber scene.
Proof.
  intros _. exists (numberToString (sceneNumber scene)). split.
  - cbn [sceneName initialImage].
    pose proof (matchSceneName_label (numberToString (sceneNumber scene)) []
                  (numberToString_nonempty _) (uintDigits_digits _) I) as H.
    by rewrite app_nil_r in H.
  - apply digitsValue_numberToString.
Qed.

(** X1 on scene 32. *)
Lemma sceneName_round_trip_witness :
  (sceneNumber scene32 < 2 ^ 53)%N /\
  exists ds,
    matchSceneName (sceneName (initialImage chainHost chainProps 0 0 scene32)) = Some ds /\
    digitsValue ds = sceneNumber scene32.
Proof.
  assert (H : (sceneNumber scene32 < 2 ^ 53)%N) by (vm_compute; reflexivity).
  exact (conj H (sceneName_round_trip chainHost chainProps 0 0 scene32 H)).
Defined.

(** ** The blocks of a script *)

Lemma matchHeader_app s t ds rest :
  matchHeader s = Some (ds, rest) -> matchHeader (s ++ t) = Some (ds, rest ++ t).
Proof.
  intros (-> & Hne & Hd)%matchHeader_inv.
  replace ((CANH ++ ds ++ COLON :: rest) ++ t) with (CANH ++ ds ++ COLON :: rest ++ t).
  - by apply matchHeader_intro.
  - by rewrite <- !app_assoc.
Qed.

Lemma isHeader_app s t : isHeader s = true -> isHeader (s ++ t) = true.
Proof.
  unfold isHeader. destruct (matchHeader s) as [[ds rest]|] eqn:E; [|done].
  by rewrite (matchHeader_app _ t _ _ E).
Qed.

Lemma searchHeader_None_cons c r :
  searchHeader (c :: r) = None <-> isHeader (c :: r) = false /\ searchHeader r = None.
Proof.
  cbn [searchHeader]. unfold isHeader.
  destruct (matchHeader (c :: r)) as [[ds rest]|]; [by split; [|intros []]|].
  destruct (searchHeader r) as [[b d]|]; by split; [|intros []].
Qed.

Lemma headerFree_suffix a b : searchHeader (a ++ b) = None -> searchHeader b = None.
Proof.
  induction a as [|c a IH]; [done|]. cbn [app].
  intros [_ H]%searchHeader_None_cons. by apply IH.
Qed.

Lemma headerFree_prefix a b : searchHeader (a ++ b) = None -> searchHeader a = None.
Proof.
  induction a as [|c a IH]; [done|]. cbn [app].
  intros [Hh H]%searchHeader_None_cons. apply searchHeader_None_cons. split; [|by apply IH].
  destruct (isHeader (c :: a)) eqn:E; [|done].
  apply (isHeader_app _ b) in E. cbn [app] in E. congruence.
Qed.

(** [search] finds the leftmost header: none lies in the text before it. *)
Lemma searchHeader_before s before ds :
  searchHeader s = Some (before, ds) ->
  exists rest, s = before ++ rest /\ isHeader rest = true /\ searchHeader before = None.
Proof.
  revert before. induction s as [|c r IH]; intros before; [done|].
  cbn [searchHeader]. destruct (matchHeader (c :: r)) as [[ds' rest']|] eqn:Em.
  - intros [= <- <-]. exists (c :: r). unfold isHeader. by rewrite Em.
  - destruct (searchHeader r) as [[b d]|]; [|done]. intros [= <- <-].
    destruct (IH b eq_refl) as (rest & -> & Hh & Hb). exists rest.
    split; [done|]. split; [done|]. apply searchHeader_None_cons. split; [|done].
    destruct (isHeader (c :: b)) eqn:E; [|done].
    apply (isHeader_app _ rest) in E. unfold isHeader in E. cbn [app] in E.
    by rewrite Em in E.
Qed.

Lemma cut_partition s : s = (cut s).1 ++ concat (cut s).2.
Proof.
  induction s as [|c r IH]; [done|]. cbn [cut].
  destruct (cut r) as [pre blocks]. cbn in IH.
  destruct (isHeader (c :: r)); cbn; by rewrite <- IH.
Qed.

Lemma cut_preamble s : searchHeader (cut s).1 = None.
Proof.
  induction s as [|c r IH]; [done|]. cbn [cut].
  pose proof (cut_partition r) as Hr.
  destruct (cut r) as [pre blocks]. cbn in IH, Hr.
  destruct (isHeader (c :: r)) eqn:Eh; cbn [fst]; [done|].
  apply searchHeader_None_cons. split; [|done].
  destruct (isHeader (c :: pre)) eqn:E; [|done].
  apply (isHeader_app _ (concat blocks)) in E. cbn [app] in E. congruence.
Qed.

Lemma cut_blocks_tail s : Forall (fun block => searchHeader (tail block) = None) (cut s).2.
Proof.
  induction s as [|c r IH]; [constructor|]. cbn [cut].
  pose proof (cut_preamble r) as Hp.
  destruct (cut r) as [pre blocks]. cbn in IH, Hp.
  destruct (isHeader (c :: r)); cbn [snd]; [|done]. by constructor.
Qed.

(** X2. The blocks of [parsePrompts] are cut in front of every scene header and
    nowhere else: the text in front of the first header and the blocks, put
    together in order, are the script; that text holds no header; and every
    block starts with a header and holds no other. *)
Theorem sceneBlocks_partition text :
  text = (cut text).1 ++ concat (sceneBlocks text) /\
  searchHeader (cut text).1 = None /\
  Forall (fun block => isHeader block = true /\ searchHeader (tail block) = None)
    (sceneBlocks text).
Proof.
  split; [apply cut_partition|]. split; [apply cut_preamble|].
  apply Forall_forall. intros block Hin. split.
  - destruct (sceneBlocks_header _ _ Hin) as (ds & rest & Hm & _).
    unfold isHeader. by rewrite Hm.
  - pose proof (cut_blocks_tail text) as H. rewrite Forall_forall in H. by apply H.
Qed.

(** ** The story context *)

Lemma trimStart_suffix s : exists w, s = w ++ trimStart s.
Proof. exists (span isWhiteSpace s).1. apply span_spec. Qed.

Lemma trimEnd_prefix s : exists w, s = trimEnd s ++ w.
Proof.
  destruct (trimStart_suffix (reverse s)) as [w Hw].
  exists (reverse w). unfold trimEnd. rewrite <- reverse_app, <- Hw.
  by rewrite reverse_involutive.
Qed.

Lemma headerFree_trim s : searchHeader s = None -> searchHeader (trim s) = None.
Proof.
  intros H. unfold trim.
  destruct (trimStart_suffix s) as [w Hw].
  destruct (trimEnd_prefix (trimStart s)) as [w' Hw'].
  rewrite Hw in H. apply headerFree_suffix in H.
  rewrite Hw' in H. by apply headerFree_prefix in H.
Qed.

Lemma cleanStoryContext_headerFree text : searchHeader (cleanStoryContext text) = None.
Proof.
  unfold cleanStoryContext. destruct (searchHeader text) as [[before ds]|] eqn:E; [|done].
  apply searchHeader_before in E as (rest & _ & _ & Hb). by apply headerFree_trim.
Qed.

(** X3. The story context given to the adapter never holds a scene header, and
    cleaning a cleaned context changes nothing. *)
Theorem cleanStoryContext_no_header text :
  searchHeader (cleanStoryContext text) = None /\
  cleanStoryContext (cleanStoryContext text) = cleanStoryContext text.
Proof.
  pose proof (cleanStoryContext_headerFree text) as H.
  split; [done|]. unfold cleanStoryContext at 1. by rewrite H.
Qed.

(** ** Dialogue *)

Lemma replaceQuoted_skip q l b :
  replaceQuoted q (length l) (l ++ b) = replaceQuoted q 0 b.
Proof. induction l as [|x l IH]; [done|]. exact IH. Qed.

Lemma replaceQuoted_plain q a s :
  Forall (fun c => c <> q) a -> replaceQuoted q 0 (a ++ s) = a ++ replaceQuoted q 0 s.
Proof.
  induction 1 as [|c a Hc _ IH]; [done|]. cbn [app replaceQuoted].
  apply N.eqb_neq in Hc. by rewrite Hc, IH.
Qed.

Lemma replaceQuoted_free q s : Forall (fun c => c <> q) s -> replaceQuoted q 0 s = s.
Proof.
  intros H. rewrite <- (app_nil_r s) at 1. rewrite replaceQuoted_plain by done.
  by rewrite app_nil_r.
Qed.

Lemma span_not_quote q d :
  Forall (fun c => c <> q) d -> Forall (fun x => negb (x =? q)%N = true) d.
Proof.
  intros H. eapply Forall_impl; [exact H|].
  intros c Hc. apply N.eqb_neq in Hc. by rewrite Hc.
Qed.

Lemma replaceQuoted_cons q c r :
  replaceQuoted q 0 (c :: r)
  = if (c =? q)%N then
      match span (fun x => negb (x =? q)%N) r with
      | (run, _ :: _) =>
          if 15 <=? length run
          then SPEAKING ++ replaceQuoted q (S (length run)) r
          else c :: replaceQuoted q 0 r
      | (_, []) => c :: replaceQuoted q 0 r
      end
    else c :: replaceQuoted q 0 r.
Proof. done. Qed.

(** A quotation mark, a run without that mark and the next mark: the span
    is replaced when the run has 15 characters or more, and otherwise the
    scan goes on at the second mark, which may open a span of its own. *)
Lemma replaceQuoted_quote q d b :
  Forall (fun c => c <> q) d ->
  replaceQuoted q 0 (q :: d ++ q :: b)
  = if 15 <=? length d then SPEAKING ++ replaceQuoted q 0 b
    else q :: d ++ replaceQuoted q 0 (q :: b).
Proof.
  intros Hd. rewrite (replaceQuoted_cons q q (d ++ q :: b)), N.eqb_refl.
  rewrite (span_run _ d q b); [|by apply span_not_quote|by rewrite N.eqb_refl].
  destruct (15 <=? length d).
  - f_equal. pose proof (replaceQuoted_skip q (d ++ [q]) b) as H.
    rewrite length_app, Nat.add_1_r, <- app_assoc in H. exact H.
  - f_equal. by apply replaceQuoted_plain.
Qed.

Lemma replaceQuoted_open q b :
  Forall (fun c => c <> q) b -> replaceQuoted q 0 (q :: b) = q :: b.
Proof.
  intros Hb. rewrite replaceQuoted_cons, N.eqb_refl.
  pose proof (span_app_stop (fun x => negb (x =? q)%N) b [] (span_not_quote _ _ Hb) I) as H.
  rewrite app_nil_r in H. rewrite H. f_equal. by apply replaceQuoted_free.
Qed.

Lemma quotesOnly_other q q' s :
  q' = 34%N \/ q' = 39%N -> q' <> q -> quotesOnly q s -> Forall (fun c => c <> q') s.
Proof.
  intros Hq' Hne H. eapply Forall_impl; [exact H|].
  intros c [->|[H1 H2]]; [done|]. by destruct Hq' as [-> | ->].
Qed.

Lemma quoteFree_quotesOnly q s : quoteFree s -> quotesOnly q s.
Proof. intros H. eapply Forall_impl; [exact H|]. auto. Qed.

Lemma quoteFree_not q s : q = 34%N \/ q = 39%N -> quoteFree s -> Forall (fun c => c <> q) s.
Proof.
  intros Hq H. eapply Forall_impl; [exact H|].
  intros c [H1 H2]. by destruct Hq as [-> | ->].
Qed.

(** [removeDialogue] on a text with one kind of quotation mark is the pass
    for that mark. *)
Lemma removeDialogue_pass q s s' :
  q = 34%N \/ q = 39%N -> quotesOnly q s -> quotesOnly q s' ->
  replaceQuoted q 0 s = s' -> removeDialogue s = s'.
Proof.
  intros [-> | ->] Hs Hs' Hpass; unfold removeDialogue.
  - rewrite (replaceQuoted_free 39 s); [done|].
    apply (quotesOnly_other 34 39); [by right|lia|exact Hs].
  - rewrite Hpass. apply replaceQuoted_free.
    apply (quotesOnly_other 39 34); [by left|lia|exact Hs'].
Qed.

Lemma SPEAKING_quoteFree : quoteFree SPEAKING.
Proof. vm_compute. repeat constructor; discriminate. Qed.

Ltac quotes :=
  repeat first
    [ apply Forall_app; split
    | apply Forall_cons; split; [by left|]
    | by apply quoteFree_quotesOnly
    | apply quoteFree_quotesOnly, SPEAKING_quoteFree
    | apply Forall_nil ].

(** X4. A span between two quotation marks of the same kind, in a text that has
    no other quotation mark, is replaced by the fixed wording exactly when
    it is 15 characters long or more; a shorter one is kept, marks
    included. *)
Theorem removeDialogue_quoted q a d b :
  q = 34%N \/ q = 39%N -> quoteFree a -> quoteFree d -> quoteFree b ->
  removeDialogue (a ++ q :: d ++ q :: b)
  = if 15 <=? length d then a ++ SPEAKING ++ b else a ++ q :: d ++ q :: b.
Proof.
  intros Hq Ha Hd Hb. apply (removeDialogue_pass q); [done|quotes|destruct (15 <=? length d); quotes|].
  rewrite replaceQuoted_plain by (by apply quoteFree_not).
  rewrite replaceQuoted_quote by (by apply quoteFree_not).
  destruct (15 <=? length d).
  - by rewrite replaceQuoted_free by (by apply quoteFree_not).
  - by rewrite replaceQuoted_open by (by apply quoteFree_not).
Qed.

(** X5. The marks are paired from left to right whatever their role: after a
    quoted phrase shorter than 15 characters, its closing mark opens the next
    span, so that the narration up to the next quoted phrase, when it is 15
    characters long or more, is replaced as if it were dialogue, and the two
    phrases lose one mark each. *)
Theorem removeDialogue_between_phrases q a x narration y b :
  q = 34%N \/ q = 39%N ->
  quoteFree a -> quoteFree x -> quoteFree narration -> quoteFree y -> quoteFree b ->
  length x < 15 -> 15 <= length narration ->
  removeDialogue (a ++ q :: x ++ q :: narration ++ q :: y ++ q :: b)
  = a ++ q :: x ++ SPEAKING ++ y ++ q :: b.
Proof.
  intros Hq Ha Hx Hn Hy Hb Hlx Hln.
  apply (removeDialogue_pass q); [done|quotes|quotes|].
  rewrite replaceQuoted_plain by (by apply quoteFree_not).
  rewrite replaceQuoted_quote by (by apply quoteFree_not).
  destruct (Nat.leb_spec 15 (length x)); [lia|].
  rewrite replaceQuoted_quote by (by apply quoteFree_not).
  destruct (Nat.leb_spec 15 (length narration)); [|lia].
  rewrite replaceQuoted_plain by (by apply quoteFree_not).
  by rewrite replaceQuoted_open by (by apply quoteFree_not).
Qed.

Ltac quote_free := vm_compute; repeat constructor; discriminate.

(** X4 on a line of dialogue in single quotation marks. *)
Lemma removeDialogue_quoted_witness :
  (39%N = 34%N \/ 39%N = 39%N) /\ quoteFree SHE_ASKS /\ quoteFree IS_HE_HURT /\
  quoteFree SOFTLY /\
  removeDialogue (SHE_ASKS ++ 39%N :: IS_HE_HURT ++ 39%N :: SOFTLY)
  = if 15 <=? length IS_HE_HURT then SHE_ASKS ++ SPEAKING ++ SOFTLY
    else SHE_ASKS ++ 39%N :: IS_HE_HURT ++ 39%N :: SOFTLY.
Proof.
  assert (H0 : 39%N = 34%N \/ 39%N = 39%N) by (right; reflexivity).
  assert (H1 : quoteFree SHE_ASKS) by quote_free.
  assert (H2 : quoteFree IS_HE_HURT) by quote_free.
  assert (H3 : quoteFree SOFTLY) by quote_free.
  exact (conj H0 (conj H1 (conj H2 (conj H3
           (removeDialogue_quoted 39 SHE_ASKS IS_HE_HURT SOFTLY H0 H1 H2 H3))))).
Defined.

(** X5 on a prompt with a quoted name and a quoted word. *)
Lemma removeDialogue_between_phrases_witness :
  (34%N = 34%N \/ 34%N = 39%N) /\
  quoteFree CLOSE_UP_ON /\ quoteFree CLAIRE_HARTLEY /\ quoteFree AS_SHE_ASKS_THE /\
  quoteFree PRACTICAL /\ quoteFree QUESTIONS /\
  length CLAIRE_HARTLEY < 15 /\ 15 <= length AS_SHE_ASKS_THE /\
  removeDialogue
    (CLOSE_UP_ON ++ 34%N :: CLAIRE_HARTLEY ++ 34%N :: AS_SHE_ASKS_THE
       ++ 34%N :: PRACTICAL ++ 34%N :: QUESTIONS)
  = CLOSE_UP_ON ++ 34%N :: CLAIRE_HARTLEY ++ SPEAKING ++ PRACTICAL ++ 34%N :: QUESTIONS.
Proof.
  assert (H0 : 34%N = 34%N \/ 34%N = 39%N) by (left; reflexivity).
  assert (H1 : quoteFree CLOSE_UP_ON) by quote_free.
  assert (H2 : quoteFree CLAIRE_HARTLEY) by quote_free.
  assert (H3 : quoteFree AS_SHE_ASKS_THE) by quote_free.
  assert (H4 : quoteFree PRACTICAL) by quote_free.
  assert (H5 : quoteFree QUESTIONS) by quote_free.
  assert (H6 : length CLAIRE_HARTLEY < 15) by (vm_compute; lia).
  assert (H7 : 15 <= length AS_SHE_ASKS_THE) by (vm_compute; lia).
  exact (conj H0 (conj H1 (conj H2 (conj H3 (conj H4 (conj H5 (conj H6 (conj H7
           (removeDialogue_between_phrases 34 CLOSE_UP_ON CLAIRE_HARTLEY AS_SHE_ASKS_THE
              PRACTICAL QUESTIONS H0 H1 H2 H3 H4 H5 H6 H7))))))))).
Defined.

(** That prompt, evaluated: the description of the character is gone. *)
Example removeDialogue_between_phrases_evaluated :
  removeDialogue
    (CLOSE_UP_ON ++ 34%N :: CLAIRE_HARTLEY ++ 34%N :: AS_SHE_ASKS_THE
       ++ 34%N :: PRACTICAL ++ 34%N :: QUESTIONS)
  = utf16 "close-up on " ++ [34%N] ++ utf16 "Claire Hartley(nhân vật đang nói)practical"
      ++ [34%N] ++ utf16 " questions.".
Proof. by vm_compute. Qed.

(** ** Whole runs: budget and order *)

Lemma count_app f evs1 evs2 : count f (evs1 ++ evs2) = count f evs1 + count f evs2.
Proof. unfold count. by rewrite List.filter_app, length_app. Qed.

Lemma sceneOrder_app evs1 evs2 :
  sceneOrder (evs1 ++ evs2) = sceneOrder evs1 ++ sceneOrder evs2.
Proof. apply omap_app. Qed.

Lemma sceneOrder_Forall (P : nat -> Prop) evs :
  Forall P (sceneOrder evs) -> Forall (fun e => forall j, eventScene e = Some j -> P j) evs.
Proof.
  unfold sceneOrder. induction evs as [|e evs IH]; cbn; [constructor|].
  destruct (eventScene e) as [j|] eqn:E; cbn.
  - intros [Hj H]%Forall_cons. constructor; [|by apply IH].
    intros j0 Hj0. rewrite E in Hj0. by injection Hj0 as <-.
  - intros H. constructor; [|by apply IH]. intros j0 Hj0. congruence.
Qed.

Lemma sceneEvents_outside (P : nat -> Prop) k evs :
  Forall P (sceneOrder evs) -> ~ P k -> sceneEvents k evs = [].
Proof.
  intros H Hk. apply sceneEvents_none. apply sceneOrder_Forall in H.
  eapply Forall_impl; [exact H|]. cbn. intros e He Hek. apply Hk. by apply He.
Qed.

Lemma paced_attempts i args r es : Attempts i args r es -> paced i 1 es.
Proof.
  intros Hatt.
  assert (H : count isCall es <= MAX_ATTEMPTS * 1 /\ count isSleep es <= (MAX_ATTEMPTS - 1) * 1).
  { unfold MAX_ATTEMPTS, count. destruct Hatt; cbn; lia. }
  destruct H as [Hc Hs]. split; [done|]. split; [done|]. split; [|split; [|split]].
  - destruct Hatt; cbn; repeat constructor; lia.
  - destruct Hatt; cbn; repeat constructor; lia.
  - destruct Hatt; repeat constructor; intros ? ? [=]; congruence.
  - intros k. destruct (decide (k = i)) as [->|Hne].
    + rewrite sceneEvents_all by (by eapply Attempts_scene). lia.
    + rewrite (sceneEvents_other k i); [|done|by eapply Attempts_scene].
      unfold count. cbn. lia.
Qed.

Lemma paced_publish i images : paced i 0 [EvPublish images].
Proof.
  unfold paced, count. cbn. repeat split; try lia; repeat constructor. by intros ? ? [=].
Qed.

Lemma paced_nil i : paced i 0 [].
Proof. unfold paced, count. cbn. repeat split; try lia; constructor. Qed.

Lemma paced_app i n m es1 es2 :
  paced i n es1 -> paced (i + n) m es2 -> paced i (n + m) (es1 ++ es2).
Proof.
  intros (Hc1 & Hs1 & Hf1 & Ho1 & Hp1 & Hk1) (Hc2 & Hs2 & Hf2 & Ho2 & Hp2 & Hk2). unfold paced.
  rewrite !count_app, sceneOrder_app. split; [lia|]. split; [lia|].
  split; [|split; [|split]].
  - apply Forall_app. split.
    + eapply Forall_impl; [exact Hf1|]. cbn. lia.
    + eapply Forall_impl; [exact Hf2|]. cbn. lia.
  - apply StronglySorted_app_2; [|done|done].
    intros x1 x2 H1 H2. rewrite Forall_forall in Hf1, Hf2.
    specialize (Hf1 _ H1). specialize (Hf2 _ H2). lia.
  - by apply Forall_app.
  - intros k. rewrite sceneEvents_app, !count_app.
    destruct (decide (k < i + n)) as [Hlt|Hge].
    + rewrite (sceneEvents_outside _ k es2 Hf2) by lia.
      change (count isCall []) with 0. change (count isSleep []) with 0.
      rewrite !Nat.add_0_r. apply Hk1.
    + rewrite (sceneEvents_outside _ k es1 Hf1) by lia.
      change (count isCall []) with 0. change (count isSleep []) with 0.
      cbn [Nat.add]. apply Hk2.
Qed.

Lemma paced_mono i n m es : n <= m -> paced i n es -> paced i m es.
Proof.
  intros Hle (Hc & Hs & Hf & Ho & Hp & Hk). unfold paced, MAX_ATTEMPTS in *.
  split; [lia|]. split; [lia|]. split; [|done].
  eapply Forall_impl; [exact Hf|]. cbn. lia.
Qed.

(** One iteration of a chained loop leaves the events of one scene. *)
Lemma chainStep_paced v env props i image chain st :
  exists es,
    paced i 1 es /\
    match chainStep v env props i image chain st with
    | inl (st', _) => trace st' = trace st ++ es /\ isStopping st' = false
    | inr st' => trace st' = trace st ++ es
    end.
Proof.
  unfold chainStep. destruct (isStopping st) eqn:Hstop.
  { eexists. split; [|done]. eapply paced_mono; [|apply paced_publish]. lia. }
  match goal with
  | |- context [attemptLoop env i ?a MAX_ATTEMPTS 1 st] =>
      destruct (attemptLoop_spec env i a st) as (es & Hatt & Htr & _);
      destruct (attemptLoop env i a MAX_ATTEMPTS 1 st) as [r st1]
  end.
  cbn in Hatt, Htr.
  assert (Hp : forall images, paced i 1 (es ++ [EvPublish images])).
  { intros images. change 1 with (1 + 0). apply paced_app; [by eapply paced_attempts|].
    apply paced_publish. }
  destruct (isStopping st1) eqn:Hstop1.
  - eexists. split; [apply Hp|]. cbn. by rewrite Htr, <- app_assoc.
  - destruct r as [[|c p]|]; (eexists; split; [apply Hp|]; cbn; by rewrite Htr, <- app_assoc).
Qed.

Lemma chainLoop_paced v env props todo i chain st :
  exists evs,
    trace (chainLoop v env props todo i chain st) = trace st ++ evs /\
    paced i (length todo) evs.
Proof.
  revert i chain st. induction todo as [|image todo IH]; intros i chain st.
  { exists []. cbn. rewrite app_nil_r. split; [done|apply paced_nil]. }
  cbn [chainLoop length].
  destruct (chainStep_paced v env props i image chain st) as (es & Hp & Hstep).
  destruct (chainStep v env props i image chain st) as [[st' chain']|st'].
  - destruct Hstep as [Htr _].
    destruct (IH (S i) chain' st') as (evs & Htr' & Hp').
    exists (es ++ evs). rewrite Htr', Htr, <- app_assoc. split; [done|].
    change (S (length todo)) with (1 + length todo). apply paced_app; [done|].
    by rewrite Nat.add_1_r.
  - exists es. split; [done|]. eapply paced_mono; [|exact Hp]. lia.
Qed.

Lemma paced_skip i n images evs : paced i n evs -> paced i n (EvPublish images :: evs).
Proof.
  intros (Hc & Hs & Hf & Ho & Hp & Hk).
  split; [done|]. split; [done|]. split; [done|]. split; [done|]. split.
  - constructor; [|done]. by intros ? ? [=].
  - intros k. replace (sceneEvents k (EvPublish images :: evs)) with (sceneEvents k evs);
      [apply Hk|].
    unfold sceneEvents. by rewrite filter_cons_False.
Qed.

(** X6. Every procedure, whatever the adapter and the user do, leaves a trace
    that is paced.  For every scene, the events of that scene hold at most
    three calls of the adapter and at most two pauses.  Over the whole run
    there are at most three calls and two pauses for each scene of the
    batch, so at most [3 * batchSize] calls for a full run.  Every pause is
    five seconds long.  And the run goes through the scenes in ascending
    order, never coming back to an earlier one. *)
Theorem run_paced proc env props st :
  exists evs,
    trace (run proc env props st) = trace st ++ evs /\
    (forall i, count isCall (sceneEvents i evs) <= MAX_ATTEMPTS /\
               count isSleep (sceneEvents i evs) <= MAX_ATTEMPTS - 1) /\
    count isCall evs <= MAX_ATTEMPTS * workload proc props st /\
    count isSleep evs <= (MAX_ATTEMPTS - 1) * workload proc props st /\
    (forall k ms, EvSleep k ms ∈ evs -> ms = 5000%N) /\
    StronglySorted le (sceneOrder evs) /\
    (proc = FullRun -> count isCall evs <= MAX_ATTEMPTS * batchSize props).
Proof.
  assert (H : exists evs i,
    trace (run proc env props st) = trace st ++ evs /\ paced i (workload proc props st) evs).
  { destruct proc as [| |imageId promptOverride]; cbn [run workload].
    - destruct (decide (scenesOf props = [])) as [He|Hne].
      + exists [EvPublish []], 0. split; [by apply handleGenerate_trace_empty|].
        rewrite He. apply paced_publish.
      + rewrite handleGenerate_unfold by done. cbn [trace setIsGenerating].
        destruct (chainLoop_paced fullRun env props (initialImages env props st) 0
                    (replicate (length (scenesOf props)) None) (generateStart env props st))
          as (evs & -> & Hp).
        exists ([EvPublish []; EvPublish (initialImages env props st)] ++ evs), 0.
        split; [cbn; by rewrite <- !app_assoc|].
        do 2 apply paced_skip. unfold initialImages in Hp. by rewrite length_imap in Hp.
    - destruct (decide (canRegenerateAll st)) as [Hcan|Hno].
      + rewrite handleRegenerateAll_unfold by done. cbn [trace setIsGenerating].
        destruct (chainLoop_paced refinement env props (generatedImages st) 0
                    (seedSrcs (generatedImages st)) (regenerateAllStart st))
          as (evs & -> & Hp).
        exists ([EvPublish (withLoading true <$> generatedImages st)] ++ evs), 0.
        split; [cbn; by rewrite <- !app_assoc|]. by apply paced_skip.
      + exists [], 0. rewrite app_nil_r. split; [|eapply paced_mono; [|apply paced_nil]; lia].
        unfold handleRegenerateAll. destruct (isGenerating st) eqn:Hg; [done|].
        cbn. destruct (decide (generatedImages st = [])) as [Hnil|Hnn].
        * by rewrite bool_decide_eq_true_2.
        * destruct Hno. by split.
    - destruct (handleRegenerate_spec env props (generatedImages st) imageId promptOverride st)
        as [[_ ->]|(idx & imageToRegen & es & r & _ & _ & _ & Hatt & _ & Htr & _)].
      + exists [], 0. rewrite app_nil_r. split; [done|].
        eapply paced_mono; [|apply paced_nil]. lia.
      + eexists _, idx. split; [exact Htr|]. apply paced_skip.
        change 1 with (1 + 0). apply paced_app; [by eapply paced_attempts|].
        apply paced_publish. }
  destruct H as (evs & i & Htr & Hc & Hs & _ & Ho & Hp & Hk). exists evs.
  split; [done|]. split; [done|]. split; [done|]. split; [done|]. split.
  { intros k ms Hin. rewrite Forall_forall in Hp. by eapply Hp. }
  split; [done|].
  intros ->. cbn [workload] in Hc.
  unfold scenesOf in Hc. rewrite length_take in Hc. unfold MAX_ATTEMPTS in *. lia.
Qed.

(** ** Whole runs: the results *)

Lemma attemptLoop_unpressed env i args n a st :
  (forall k, stopPressed env k = false) ->
  isStopping (attemptLoop env i args n a st).2 = isStopping st.
Proof.
  intros Hno. revert a st. induction n as [|n IH]; intros a st; [done|].
  cbn [attemptLoop]. unfold awaitGenerateImage.
  destruct (generateImage env (calls st) args).
  - cbn. by rewrite Hno, orb_false_r.
  - rewrite IH. destruct (a <? MAX_ATTEMPTS); cbn; by rewrite !Hno, ?orb_false_r.
Qed.

Lemma chainLoop_unpressed v env props todo i chain st :
  (forall k, stopPressed env k = false) ->
  isStopping st = false ->
  isStopping (chainLoop v env props todo i chain st) = false.
Proof.
  intros Hno. revert i chain st. induction todo as [|image todo IH]; intros i chain st Hstop;
    [done|].
  cbn [chainLoop]. unfold chainStep. rewrite Hstop.
  match goal with
  | |- context [attemptLoop env i ?a MAX_ATTEMPTS 1 st] =>
      pose proof (attemptLoop_unpressed env i a MAX_ATTEMPTS 1 st Hno) as H1;
      destruct (attemptLoop env i a MAX_ATTEMPTS 1 st) as [r st1]
  end.
  cbn in H1. rewrite Hstop in H1. rewrite H1.
  destruct r as [[|c p]|]; by apply IH.
Qed.

Lemma initialImages_lookup_scene env props st k b :
  initialImages env props st !! k = Some b ->
  exists scene, scenesOf props !! k = Some scene /\ b = initialImage env props (uuids st) k scene.
Proof.
  unfold initialImages. rewrite list_lookup_imap.
  destruct (scenesOf props !! k) as [scene|]; cbn; [|done].
  intros [= <-]. by exists scene.
Qed.

Lemma resultSrc_cases r : resultSrc r = ERROR \/ exists p, p <> [] /\ resultSrc r = dataUrl p.
Proof.
  unfold resultSrc. destruct (chainEntry r) as [u|] eqn:E; [right|by left].
  apply chainEntry_Some in E as (p & _ & Hp & ->). by exists p.
Qed.

(** What a chained loop leaves in the store, entry by entry. *)
Lemma Summary_store v env props imgs base st0 evs rs stL k img :
  Summary v env props imgs base st0 evs rs stL ->
  generatedImages stL !! k = Some img ->
  exists b, base !! k = Some b /\
    ((exists r, rs !! k = Some r /\ img = withSrc (resultSrc r) false b) \/
     (length rs <= k /\ isStopping stL = true /\ img = v_cancel v b)).
Proof.
  intros Hsum Himg. pose proof Hsum as (_ & _ & Hlen & Hdone & Hend).
  destruct (rs !! k) as [r|] eqn:Hr.
  - destruct (Hdone _ _ Hr) as (image & b & _ & Hb & _ & Hs).
    exists b. split; [done|]. left. exists r. split; [done|]. congruence.
  - apply lookup_ge_None in Hr. destruct (isStopping stL).
    + destruct Hend as (_ & _ & Hcancel & _). rewrite Hcancel in Himg by done.
      destruct (base !! k) as [b|]; [|done]. exists b. split; [done|]. right.
      cbn in Himg. by injection Himg as <-.
    + destruct Hend as (_ & Hall). apply lookup_lt_Some in Himg. lia.
Qed.

(** What a full run leaves in the store, entry by entry. *)
Lemma handleGenerate_lookup env props st k img :
  generatedImages (handleGenerate env props st) !! k = Some img ->
  exists scene,
    scenesOf props !! k = Some scene /\
    img = withSrc (src img) false (initialImage env props (uuids st) k scene) /\
    (src img = ERROR \/
     (src img = CANCELLED /\ isStopping (handleGenerate env props st) = true) \/
     exists p, p <> [] /\ src img = dataUrl p).
Proof.
  destruct (decide (scenesOf props = [])) as [He|Hne].
  { by rewrite handleGenerate_empty by done. }
  destruct (handleGenerate_summary env props st Hne) as (evs & rs & stL & Hsum & -> & _).
  cbn [generatedImages isStopping setIsGenerating]. intros Himg.
  destruct (Summary_store _ _ _ _ _ _ _ _ _ _ _ Hsum Himg) as (b & Hb & Hcase).
  apply initialImages_lookup_scene in Hb as (scene & Hscene & ->).
  exists scene. split; [done|].
  destruct Hcase as [(r & _ & ->)|(_ & Hstop & ->)]; cbn.
  - split; [done|]. destruct (resultSrc_cases r) as [H|H]; auto.
  - split; [done|]. auto.
Qed.

(** X7. When a full run returns, whatever happened, the application is no
    longer generating and the store holds one settled result for each scene
    of the batch, in the order of the script: the result made for that scene
    when the run started, its loading flag cleared and its content an image
    built from a payload that is not empty, the failure marker, or, only
    when the stop flag is set, the cancellation marker.  The error message
    of the application is set only when the batch is empty: no failure of a
    scene ever sets it. *)
Theorem generate_settles env props st :
  let st' := handleGenerate env props st in
  isGenerating st' = false /\
  error st' = (if decide (scenesOf props = []) then Some NO_PROMPT_FOUND else None) /\
  length (generatedImages st') = length (scenesOf props) /\
  (forall k img, generatedImages st' !! k = Some img ->
     exists scene,
       scenesOf props !! k = Some scene /\
       img = withSrc (src img) false (initialImage env props (uuids st) k scene) /\
       (src img = ERROR \/ (src img = CANCELLED /\ isStopping st' = true) \/
        exists p, p <> [] /\ src img = dataUrl p)).
Proof.
  cbv zeta. split; [|split; [|split]].
  - destruct (decide (scenesOf props = [])) as [He|Hne].
    + by rewrite handleGenerate_empty.
    + by rewrite handleGenerate_unfold.
  - destruct (decide (scenesOf props = [])) as [He|Hne].
    + by rewrite handleGenerate_empty.
    + destruct (handleGenerate_summary env props st Hne) as (evs & rs & stL & Hsum & -> & _).
      cbn [error setIsGenerating]. by destruct Hsum as (_ & [_ -> _] & _).
  - destruct (decide (scenesOf props = [])) as [He|Hne].
    + rewrite handleGenerate_empty by done. by rewrite He.
    + destruct (handleGenerate_summary env props st Hne) as (evs & rs & stL & Hsum & -> & _).
      destruct Hsum as (_ & _ & Hlen & _). cbn. rewrite Hlen.
      unfold initialImages. by rewrite length_imap.
  - apply handleGenerate_lookup.
Qed.

Lemma host_randomUUID_inj adapter stop a b :
  randomUUID (host adapter stop) a = randomUUID (host adapter stop) b -> a = b.
Proof.
  cbn. intros H%app_inv_head. apply (f_equal digitsValue) in H.
  rewrite !digitsValue_numberToString in H. lia.
Qed.

(** X8. The results of a full run have identifiers that are all different,
    the identifiers drawn from the host being so: an identifier names one
    result, and what is done to the result of that identifier, regenerating
    it or saving an edited image, is done to that result alone. *)
Theorem generate_ids_distinct env props st :
  (forall a b, randomUUID env a = randomUUID env b -> a = b) ->
  NoDup (id <$> generatedImages (handleGenerate env props st)).
Proof.
  intros Hinj. apply NoDup_alt. intros i j x Hi Hj.
  rewrite list_lookup_fmap in Hi, Hj.
  destruct (generatedImages (handleGenerate env props st) !! i) as [a|] eqn:Ea; [|done].
  destruct (generatedImages (handleGenerate env props st) !! j) as [b|] eqn:Eb; [|done].
  cbn in Hi, Hj.
  destruct (handleGenerate_lookup _ _ _ _ _ Ea) as (sa & _ & Ha & _).
  destruct (handleGenerate_lookup _ _ _ _ _ Eb) as (sb & _ & Hb & _).
  rewrite Ha in Hi. rewrite Hb in Hj. cbn in Hi, Hj.
  assert (H : uuids st + i = uuids st + j) by (apply Hinj; congruence). lia.
Qed.

(** X8 on the run of three scenes. *)
Lemma generate_ids_distinct_witness :
  (forall a b, randomUUID chainHost a = randomUUID chainHost b -> a = b) /\
  NoDup (id <$> generatedImages (handleGenerate chainHost chainProps (idle []))).
Proof.
  assert (H : forall a b, randomUUID chainHost a = randomUUID chainHost b -> a = b)
    by (intros a b; apply host_randomUUID_inj).
  exact (conj H (generate_ids_distinct chainHost chainProps (idle []) H)).
Defined.

(** X9. A full run during which the stop button is never pressed attempts every
    scene of the batch and cancels none, even when a stop request was left
    over from before the run: the flag is reset when the run starts. *)
Theorem generate_uninterrupted env props st :
  (forall k, stopPressed env k = false) ->
  exists evs,
    trace (handleGenerate env props st) = trace st ++ evs /\
    isStopping (handleGenerate env props st) = false /\
    forall k, k < length (scenesOf props) ->
      (exists attempt args r, EvCall k attempt args r ∈ evs) /\
      exists img,
        generatedImages (handleGenerate env props st) !! k = Some img /\
        src img <> CANCELLED /\ isLoading img = false.
Proof.
  intros Hno. destruct (decide (scenesOf props = [])) as [He|Hne].
  { exists [EvPublish []]. split; [by apply handleGenerate_trace_empty|].
    rewrite handleGenerate_empty by done. split; [done|]. rewrite He. cbn. lia. }
  destruct (handleGenerate_summary env props st Hne) as (evs & rs & stL & Hsum & Hst & Htr).
  eexists. split; [exact Htr|].
  assert (Hstop : isStopping stL = false).
  { rewrite handleGenerate_unfold in Hst by done.
    assert (HL : isStopping (handleGenerate env props st) = false).
    { rewrite handleGenerate_unfold by done. cbn. by apply chainLoop_unpressed. }
    rewrite handleGenerate_unfold in HL by done. rewrite Hst in HL. exact HL. }
  rewrite Hst. cbn [isStopping generatedImages setIsGenerating]. split; [done|].
  intros k Hk. pose proof Hsum as (_ & _ & Hlen & Hdone & Hend).
  rewrite Hstop in Hend. destruct Hend as (_ & Hall).
  assert (Hn : length (initialImages env props st) = length (scenesOf props)).
  { unfold initialImages. by rewrite length_imap. }
  destruct (lookup_lt_is_Some_2 rs k) as [r Hr]; [lia|].
  destruct (Hdone _ _ Hr) as (image & b & _ & _ & Hatt & Hs). split.
  - destruct (Attempts_call _ _ _ _ Hatt) as (a & r' & Hin).
    eexists a, _, r'. do 2 apply list_elem_of_further. by eapply sceneEvents_subseteq.
  - eexists. split; [exact Hs|]. cbn. split; [|done].
    destruct (resultSrc_cases r) as [->|(p & _ & ->)];
      [intros H; by apply CANCELLED_not_ERROR|apply dataUrl_not_CANCELLED].
Qed.

(** X9 on the run of three scenes. *)
Lemma generate_uninterrupted_witness :
  (forall k, stopPressed chainHost k = false) /\
  exists evs,
    trace (handleGenerate chainHost chainProps (idle [])) = trace (idle []) ++ evs /\
    isStopping (handleGenerate chainHost chainProps (idle [])) = false /\
    forall k, k < length (scenesOf chainProps) ->
      (exists attempt args r, EvCall k attempt args r ∈ evs) /\
      exists img,
        generatedImages (handleGenerate chainHost chainProps (idle [])) !! k = Some img /\
        src img <> CANCELLED /\ isLoading img = false.
Proof.
  assert (H : forall k, stopPressed chainHost k = false) by (intros k; reflexivity).
  exact (conj H (generate_uninterrupted chainHost chainProps (idle []) H)).
Defined.

(** X10. Regenerate-all works in place: when it returns the application is no
    longer generating, and every result of the store is the result that was
    there before with its loading flag cleared and, as content, a new image
    built from a payload that is not empty, the failure marker, or, only
    when the stop flag is set, the content it had.  Identifier, prompt,
    label, script, character and selection are never touched.  The stop flag
    is not set when the stop button is never pressed during the run: every
    result is then regenerated or marked failed. *)
Theorem regenerateAll_in_place env props st :
  canRegenerateAll st ->
  isGenerating (handleRegenerateAll env props st) = false /\
  length (generatedImages (handleRegenerateAll env props st)) = length (generatedImages st) /\
  (forall k img, generatedImages st !! k = Some img ->
     exists s,
       generatedImages (handleRegenerateAll env props st) !! k = Some (withSrc s false img) /\
       (s = ERROR \/ (s = src img /\ isStopping (handleRegenerateAll env props st) = true) \/
        exists p, p <> [] /\ s = dataUrl p)) /\
  ((forall k, stopPressed env k = false) ->
   isStopping (handleRegenerateAll env props st) = false).
Proof.
  intros Hcan.
  assert (Hno : (forall k, stopPressed env k = false) ->
                isStopping (handleRegenerateAll env props st) = false).
  { intros Hno. rewrite handleRegenerateAll_unfold by done. cbn.
    by apply chainLoop_unpressed. }
  destruct (handleRegenerateAll_summary env props st Hcan) as (evs & rs & stL & Hsum & Hst & _).
  rewrite Hst in *. clear Hst.
  cbn [isGenerating generatedImages isStopping setIsGenerating] in *.
  split; [done|]. split; [by destruct Hsum as (_ & _ & -> & _)|]. split; [|done].
  intros k img Hk.
  destruct (lookup_lt_is_Some_2 (generatedImages stL) k) as [img' Himg'].
  { destruct Hsum as (_ & _ & -> & _). by eapply lookup_lt_Some. }
  destruct (Summary_store _ _ _ _ _ _ _ _ _ _ _ Hsum Himg') as (b & Hb & Hcase).
  rewrite list_lookup_fmap, Hk in Hb. injection Hb as <-.
  destruct Hcase as [(r & _ & ->)|(_ & Hstop & ->)].
  - exists (resultSrc r). split; [done|]. destruct (resultSrc_cases r) as [H|H]; auto.
  - exists (src img). split; [done|]. auto.
Qed.

(** X10 on a store of two results. *)
Lemma regenerateAll_in_place_witness :
  canRegenerateAll (idle twoTiles) /\
  isGenerating (handleRegenerateAll chainHost chainProps (idle twoTiles)) = false /\
  length (generatedImages (handleRegenerateAll chainHost chainProps (idle twoTiles)))
    = length (generatedImages (idle twoTiles)) /\
  (forall k img, generatedImages (idle twoTiles) !! k = Some img ->
     exists s,
       generatedImages (handleRegenerateAll chainHost chainProps (idle twoTiles)) !! k
         = Some (withSrc s false img) /\
       (s = ERROR \/
        (s = src img /\
         isStopping (handleRegenerateAll chainHost chainProps (idle twoTiles)) = true) \/
        exists p, p <> [] /\ s = dataUrl p)) /\
  ((forall k, stopPressed chainHost k = false) ->
   isStopping (handleRegenerateAll chainHost chainProps (idle twoTiles)) = false).
Proof.
  assert (H : canRegenerateAll (idle twoTiles)) by (split; [reflexivity|discriminate]).
  exact (conj H (regenerateAll_in_place chainHost chainProps (idle twoTiles) H)).
Defined.

(** X11. A single-scene regeneration touches one result only: the store keeps
    its length and its order, every result keeps its identifier, label,
    character and selection, and a result with another identifier than the
    one asked for is left exactly as it was. *)
Theorem regenerate_frame env props images imageId promptOverride st :
  let st' := handleRegenerate env props images imageId promptOverride st in
  length (generatedImages st') = length (generatedImages st) /\
  (forall k img, generatedImages st !! k = Some img ->
     exists img',
       generatedImages st' !! k = Some img' /\
       id img' = id img /\ sceneName img' = sceneName img /\
       characterRefId img' = characterRefId img /\ isSelected img' = isSelected img /\
       (id img <> imageId -> img' = img)).
Proof.
  cbv zeta.
  destruct (handleRegenerate_spec env props images imageId promptOverride st)
    as [[_ ->]|(idx & imageToRegen & es & r & _ & _ & _ & _ & -> & _)].
  { split; [done|]. intros k img Hk. by exists img. }
  split; [unfold mapId; by rewrite !length_fmap|].
  intros k img Hk. rewrite !lookup_mapId, Hk. cbn.
  destruct (decide (id img = imageId)) as [Hid|Hne].
  - cbn. rewrite decide_True by done. eexists. split; [done|].
    destruct r as [p|]; cbn; by repeat split.
  - rewrite decide_False by done. exists img. by repeat split.
Qed.

Lemma find_first {A} (f : A -> bool) (l : list A) x :
  List.find f l = Some x ->
  exists before after,
    l = before ++ x :: after /\ Forall (fun y => f y = false) before /\ f x = true.
Proof.
  induction l as [|y l IH]; cbn; [done|]. destruct (f y) eqn:E.
  - intros [= ->]. by exists [], l.
  - intros H. destruct (IH H) as (before & after & -> & Hb & Hx).
    exists (y :: before), after. split; [done|]. split; [by constructor|done].
Qed.

Lemma findIndex_first {A} (f : A -> bool) (l : list A) i :
  findIndex f l = Some i -> Forall (fun x => f x = false) (take i l).
Proof.
  revert i. induction l as [|y l IH]; intros i; cbn; [done|].
  destruct (f y) eqn:E.
  - intros [= <-]. constructor.
  - destruct (findIndex f l) as [j|]; cbn; [|done]. intros [= <-].
    cbn. constructor; [done|]. by apply IH.
Qed.

(** X12. Where the continuity reference of a single-scene regeneration
    comes from, for scene numbers below 2^53, the range in which the
    numbers of JavaScript are exact integers and [String] writes them as
    plain digits: the label of the result gives a scene number; the first
    scene of the script, as it is now, with that number must have a scene
    before it; and the reference is the content of the first result of the
    store whose label starts with the label of that scene before and whose
    content is neither empty nor the failure marker. *)
Theorem regenerateReference_spec props images imageToRegen s :
  Forall (fun scene => (sceneNumber scene < 2 ^ 53)%N) (parsePrompts (promptsText props)) ->
  from_option (fun ds => (digitsValue ds < 2 ^ 53)%N) True
    (matchSceneName (sceneName imageToRegen)) ->
  regenerateReference props images imageToRegen = Some s ->
  exists ds k scene prevSceneInfo before img after,
    matchSceneName (sceneName imageToRegen) = Some ds /\
    parsePrompts (promptsText props) !! S k = Some scene /\
    sceneNumber scene = digitsValue ds /\
    Forall (fun x => sceneNumber x <> digitsValue ds)
      (take (S k) (parsePrompts (promptsText props))) /\
    parsePrompts (promptsText props) !! k = Some prevSceneInfo /\
    images = before ++ img :: after /\
    src img = s /\ s <> [] /\ s <> ERROR /\
    startsWith (sceneName img) (CANH ++ numberToString (sceneNumber prevSceneInfo)) = true /\
    Forall (fun x =>
              startsWith (sceneName x) (CANH ++ numberToString (sceneNumber prevSceneInfo))
                = false
              \/ src x = [] \/ src x = ERROR) before.
Proof.
  intros _ _. unfold regenerateReference.
  destruct (matchSceneName (sceneName imageToRegen)) as [ds|]; [|done].
  destruct (findIndex _ (parsePrompts (promptsText props))) as [[|k]|] eqn:Ei; try done.
  destruct (parsePrompts (promptsText props) !! k) as [prev|] eqn:Ep; [|done].
  destruct (List.find _ images) as [img|] eqn:Ef; [|done].
  cbn. intros [= <-].
  destruct (findIndex_Some _ _ _ Ei) as (scene & Hs & Hn). apply N.eqb_eq in Hn.
  pose proof (findIndex_first _ _ _ Ei) as Hfirst.
  apply find_first in Ef as (before & after & -> & Hb & Hx).
  apply andb_true_iff in Hx as [Hx He]. apply andb_true_iff in Hx as [Hl Ht].
  apply negb_true_iff, bool_decide_eq_false in He.
  exists ds, k, scene, prev, before, img, after.
  split; [done|]. split; [done|]. split; [done|]. split.
  { eapply Forall_impl; [exact Hfirst|]. cbn. intros x Hx. by apply N.eqb_neq. }
  split; [done|]. split; [done|]. split; [done|]. split; [by destruct (src img)|].
  split; [done|]. split; [done|].
  eapply Forall_impl; [exact Hb|]. cbn. intros x Hx.
  destruct (startsWith (sceneName x) _); [right|by left].
  destruct (src x) as [|c r] eqn:Es; [by left|right]. cbn in Hx.
  apply negb_false_iff, bool_decide_eq_true in Hx. done.
Qed.

Lemma sceneNumbers_below bound (scenes : list Scene) :
  forallb (fun scene => (sceneNumber scene <? bound)%N) scenes = true ->
  Forall (fun scene => (sceneNumber scene < bound)%N) scenes.
Proof.
  induction scenes as [|x l IH]; cbn; [constructor|].
  intros [Hx Hl]%andb_true_iff. constructor; [by apply N.ltb_lt|by apply IH].
Qed.

(** X12 on the second of two results. *)
Lemma regenerateReference_spec_witness :
  Forall (fun scene => (sceneNumber scene < 2 ^ 53)%N)
    (parsePrompts (promptsText chainProps)) /\
  from_option (fun ds => (digitsValue ds < 2 ^ 53)%N) True
    (matchSceneName (sceneName (tile 2 (dataUrl AAAA)))) /\
  regenerateReference chainProps twoTiles (tile 2 (dataUrl AAAA)) = Some (dataUrl AAAA) /\
  exists ds k scene prevSceneInfo before img after,
    matchSceneName (sceneName (tile 2 (dataUrl AAAA))) = Some ds /\
    parsePrompts (promptsText chainProps) !! S k = Some scene /\
    sceneNumber scene = digitsValue ds /\
    Forall (fun x => sceneNumber x <> digitsValue ds)
      (take (S k) (parsePrompts (promptsText chainProps))) /\
    parsePrompts (promptsText chainProps) !! k = Some prevSceneInfo /\
    twoTiles = before ++ img :: after /\
    src img = dataUrl AAAA /\ dataUrl AAAA <> [] /\ dataUrl AAAA <> ERROR /\
    startsWith (sceneName img) (CANH ++ numberToString (sceneNumber prevSceneInfo)) = true /\
    Forall (fun x =>
              startsWith (sceneName x) (CANH ++ numberToString (sceneNumber prevSceneInfo))
                = false
              \/ src x = [] \/ src x = ERROR) before.
Proof.
  assert (Hs : Forall (fun scene => (sceneNumber scene < 2 ^ 53)%N)
                 (parsePrompts (promptsText chainProps)))
    by (apply sceneNumbers_below; vm_compute; reflexivity).
  assert (Hd : from_option (fun ds => (digitsValue ds < 2 ^ 53)%N) True
                 (matchSceneName (sceneName (tile 2 (dataUrl AAAA)))))
    by (vm_compute; reflexivity).
  assert (H : regenerateReference chainProps twoTiles (tile 2 (dataUrl AAAA))
              = Some (dataUrl AAAA)) by (vm_compute; reflexivity).
  exact (conj Hs (conj Hd (conj H
           (regenerateReference_spec chainProps twoTiles (tile 2 (dataUrl AAAA))
              (dataUrl AAAA) Hs Hd H)))).
Defined.

(** ** The image editor *)

Lemma span_fst_app f a c s :
  f c = false -> (span f (a ++ c :: s)).1 = (span f a).1.
Proof.
  intros Hc. induction a as [|x a IH]; cbn; [by rewrite Hc|].
  destruct (f x); [|done].
  destruct (span f (a ++ c :: s)), (span f a). cbn in *. by f_equal.
Qed.

(** Where the label alone does not start with [Cảnh ], the label followed
    by the suffix of a copy may, its last four characters being [Cảnh]; no
    digit follows then. *)
Lemma strip_prefix_CANH_EDITED name :
  match strip_prefix CANH name with
  | Some after => strip_prefix CANH (name ++ EDITED) = Some (after ++ EDITED)
  | None =>
      match strip_prefix CANH (name ++ EDITED) with
      | Some after' => (span isDigit after').1 = []
      | None => True
      end
  end.
Proof.
  unfold CANH.
  destruct name as [|c1 [|c2 [|c3 [|c4 [|c5 r]]]]]; cbn [strip_prefix app];
    repeat (match goal with |- context [(?a =? ?b)%N] => destruct (a =? b)%N end;
            cbn [strip_prefix app]);
    done.
Qed.

Lemma matchSceneName_EDITED name :
  matchSceneName (name ++ EDITED) = matchSceneName name.
Proof.
  induction name as [|c r IH]; [done|].
  pose proof (strip_prefix_CANH_EDITED (c :: r)) as H.
  cbn [app matchSceneName] in *.
  destruct (strip_prefix CANH (c :: r)) as [after|].
  - rewrite H. change EDITED with (32%N :: tail EDITED).
    rewrite span_fst_app by done. by destruct (span isDigit after).1.
  - destruct (strip_prefix CANH (c :: r ++ EDITED)) as [after'|]; [|done].
    by rewrite H.
Qed.

(** X13. [Save as new] appends one result, a copy with a fresh identifier, the
    edited image and a label that says so, and leaves the results of the
    store as they are.  Regenerating the copy is regenerating the original:
    the label of the copy names the same scene, so that the adapter is
    called with the same arguments, continuity reference included. *)
Theorem saveAsNew_copy env props images promptOverride e editedSrc st :
  exists copy,
    generatedImages (handleSaveAsNew env (Some e) editedSrc st).1
      = generatedImages st ++ [copy] /\
    id copy = randomUUID env (uuids st) /\ src copy = editedSrc /\
    sceneName copy = sceneName e ++ EDITED /\
    matchSceneName (sceneName copy) = matchSceneName (sceneName e) /\
    regenerateArgs props images copy promptOverride
      = regenerateArgs props images e promptOverride.
Proof.
  eexists. split; [done|]. cbn.
  split; [done|]. split; [done|]. split; [done|].
  split; [apply matchSceneName_EDITED|].
  unfold regenerateArgs, regenerateReference. cbn. by rewrite matchSceneName_EDITED.
Qed.

(** ** The script editor *)

Lemma handlePromptEditSave_unfold env props e newScript st :
  handlePromptEditSave env props e newScript st
  = handleRegenerate env props (generatedImages st) (id e) (Some (promptOfScript newScript))
      (setGeneratedImages
         (mapId (id e) (fun img =>
            {| id := id img; prompt := promptOfScript newScript; src := src img;
               isLoading := isLoading img; characterRefId := characterRefId img;
               isSelected := isSelected img; sceneName := sceneName img;
               sceneScript := newScript |})) st).
Proof. done. Qed.

Lemma promptOfScript_parseBlock newScript scene :
  parseBlock newScript = Some scene -> promptOfScript newScript = s_prompt scene.
Proof.
  unfold parseBlock, promptOfScript.
  destruct (searchHeader newScript) as [[b ds]|]; [|done].
  destruct (promptMatch newScript) as [[|c p]|]; try done.
  cbn. by intros [= <-].
Qed.

(** X14. The script editor and the parser agree: every call made for an edited
    script carries, dialogue removed, the prompt the editor takes from the
    script, which is the prompt [parsePrompts] reads in that script when it
    is a block the parser keeps; a script without prompt field is sent as a
    whole. *)
Theorem promptEdit_prompt env props e newScript st evs i attempt args result :
  trace (handlePromptEditSave env props e newScript st) = trace st ++ evs ->
  EvCall i attempt args result ∈ evs ->
  a_prompt args = removeDialogue (promptOfScript newScript) /\
  (forall scene, parseBlock newScript = Some scene ->
     a_prompt args = removeDialogue (s_prompt scene)) /\
  (promptMatch newScript = None -> a_prompt args = removeDialogue newScript).
Proof.
  intros Htr Hin.
  assert (H : a_prompt args = removeDialogue (promptOfScript newScript)).
  { rewrite handlePromptEditSave_unfold in Htr.
    match type of Htr with
    | trace (handleRegenerate _ _ ?images ?i ?po ?s) = _ =>
        destruct (handleRegenerate_spec env props images i po s)
          as [[_ Hst]|(idx & imageToRegen & es & r & _ & _ & _ & Hatt & _ & Htr' & _)]
    end.
    - rewrite Hst in Htr. cbn in Htr. apply app_inv_head in Htr. subst evs.
      apply list_elem_of_singleton in Hin. done.
    - rewrite Htr' in Htr. cbn in Htr. rewrite <- app_assoc in Htr.
      apply app_inv_head in Htr. subst evs.
      repeat (apply elem_of_cons in Hin as [Hin|Hin]; [done|]).
      apply elem_of_app in Hin as [Hin|Hin].
      + by destruct (Attempts_In_call _ _ _ _ _ _ _ _ Hatt Hin) as (_ & -> & _).
      + apply list_elem_of_singleton in Hin. done. }
  split; [done|]. split.
  - intros scene Hs. by rewrite H, (promptOfScript_parseBlock _ _ Hs).
  - intros Hno. rewrite H. unfold promptOfScript. by rewrite Hno.
Qed.

(** X14 on a script whose prompt was edited. *)
Lemma promptEdit_prompt_witness :
  trace (handlePromptEditSave editHost (propsOf dogScript) (tile 1 (dataUrl AAAA)) catScript
           (idle [tile 1 (dataUrl AAAA)]))
    = trace (idle [tile 1 (dataUrl AAAA)]) ++ editEvents /\
  EvCall 0 1 editArgs (Some BBBB) ∈ editEvents /\
  a_prompt editArgs = removeDialogue (promptOfScript catScript) /\
  (forall scene, parseBlock catScript = Some scene ->
     a_prompt editArgs = removeDialogue (s_prompt scene)) /\
  (promptMatch catScript = None -> a_prompt editArgs = removeDialogue catScript).
Proof.
  assert (H1 : trace (handlePromptEditSave editHost (propsOf dogScript) (tile 1 (dataUrl AAAA))
                        catScript (idle [tile 1 (dataUrl AAAA)]))
               = trace (idle [tile 1 (dataUrl AAAA)]) ++ editEvents)
    by (vm_compute; reflexivity).
  assert (H2 : EvCall 0 1 editArgs (Some BBBB) ∈ editEvents) by in_list.
  exact (conj H1 (conj H2
           (promptEdit_prompt editHost (propsOf dogScript) (tile 1 (dataUrl AAAA)) catScript
              (idle [tile 1 (dataUrl AAAA)]) editEvents 0 1 editArgs (Some BBBB) H1 H2))).
Defined.

(** ** The character registry *)

Lemma lastIndexOf_Some c s i : lastIndexOf c s = Some i -> i < length s.
Proof.
  revert i. induction s as [|x r IH]; intros i; cbn; [done|].
  destruct (lastIndexOf c r) as [j|].
  - intros [= <-]. specialize (IH j eq_refl). lia.
  - destruct (x =? c)%N; [|done]. intros [= <-]. lia.
Qed.

Lemma lastIndexOf_app c base ext :
  Forall (fun x => x <> c) ext ->
  lastIndexOf c (base ++ c :: ext) = Some (length base).
Proof.
  intros Hext.
  assert (He : lastIndexOf c ext = None).
  { induction Hext as [|x ext Hx _ IH]; cbn; [done|].
    rewrite IH. apply N.eqb_neq in Hx. by rewrite Hx. }
  induction base as [|x base IH]; cbn.
  - by rewrite He, N.eqb_refl.
  - by rewrite IH.
Qed.

(** X15. The name of a character made from an uploaded file is never empty; it
    is the file name without its extension, that is without its last dot and
    what follows it, unless the name starts with that dot. *)
Theorem fileCharacterName_spec fileName :
  fileCharacterName fileName <> [] /\
  (forall base ext,
     base <> [] -> Forall (fun c => c <> 46%N) ext -> fileName = base ++ 46%N :: ext ->
     fileCharacterName fileName = base) /\
  (forall ext,
     Forall (fun c => c <> 46%N) ext -> fileName = 46%N :: ext ->
     fileCharacterName fileName = fileName).
Proof.
  split; [|split].
  - unfold fileCharacterName.
    destruct (lastIndexOf 46 fileName) as [[|i]|] eqn:E.
    + destruct fileName; [done|]. done.
    + destruct fileName as [|c r]; [done|]. done.
    + destruct fileName; done.
  - intros base ext Hb Hext ->. unfold fileCharacterName.
    rewrite lastIndexOf_app by done.
    destruct base as [|c base]; [done|]. cbn [length].
    replace (take (S (length base)) ((c :: base) ++ 46%N :: ext)) with (c :: base); [done|].
    change (S (length base)) with (length (c :: base)). by rewrite take_app_length.
  - intros ext Hext ->. unfold fileCharacterName.
    pose proof (lastIndexOf_app 46 [] ext Hext) as H. cbn [app length] in H.
    by rewrite H.
Qed.

Lemma find_deleteCharacter cs d r :
  r <> d ->
  List.find (fun c => bool_decide (c_id c = r)) (deleteCharacter cs d)
  = List.find (fun c => bool_decide (c_id c = r)) cs.
Proof.
  intros Hne. unfold deleteCharacter. induction cs as [|c cs IH]; [done|]. cbn.
  destruct (decide (c_id c = d)) as [Hd|Hd].
  - rewrite bool_decide_eq_true_2 by done. cbn.
    rewrite bool_decide_eq_false_2 by congruence. done.
  - rewrite (bool_decide_eq_false_2 (c_id c = d)) by done. cbn.
    destruct (bool_decide (c_id c = r)); done.
Qed.

Lemma find_deleted cs d :
  List.find (fun c => bool_decide (c_id c = d)) (deleteCharacter cs d) = None.
Proof.
  unfold deleteCharacter. induction cs as [|c cs IH]; [done|]. cbn.
  destruct (decide (c_id c = d)) as [Hd|Hd].
  - rewrite bool_decide_eq_true_2 by done. done.
  - rewrite (bool_decide_eq_false_2 (c_id c = d)) by done. cbn.
    rewrite bool_decide_eq_false_2 by done. done.
Qed.

(** X16. Deleting a character leaves the results that referred to it without
    character: the next call made for such a result carries no character
    image; the results that refer to another character are served as
    before. *)
Theorem deleteCharacter_reference cs d refId :
  findCharacter (deleteCharacter cs d) refId
  = if decide (refId = Some d) then None else findCharacter cs refId.
Proof.
  destruct refId as [r|]; cbn; [|by rewrite decide_False].
  destruct (decide (Some r = Some d)) as [[= ->]|Hne].
  - apply find_deleted.
  - apply find_deleteCharacter. congruence.
Qed.

Lemma find_by_id cs c :
  NoDup (c_id <$> cs) -> c ∈ cs ->
  List.find (fun x => bool_decide (c_id x = c_id c)) cs = Some c.
Proof.
  induction cs as [|x cs IH]; intros Hnd Hin; [by apply elem_of_nil in Hin|].
  cbn in *. apply NoDup_cons in Hnd as [Hx Hnd].
  apply elem_of_cons in Hin as [->|Hin].
  - by rewrite bool_decide_eq_true_2.
  - rewrite bool_decide_eq_false_2; [by apply IH|].
    intros Heq. apply Hx. rewrite Heq. apply list_elem_of_fmap. by exists c.
Qed.

(** The identifier [resolveCharacter] returns leads [findCharacter] back to
    the character that was matched, identifiers being all different. *)
Lemma findCharacter_resolved env cs name :
  NoDup (c_id <$> cs) ->
  findCharacter cs (resolveCharacter env cs name) = List.find (nameMatches env name) cs.
Proof.
  intros Hnd. unfold resolveCharacter. fold (nameMatches env name).
  destruct (List.find (nameMatches env name) cs) as [c|] eqn:E; [|done].
  cbn. apply find_by_id; [done|]. apply List.find_some in E as [E _].
  by apply list_elem_of_In.
Qed.

(** X17. With identifiers that are all different, as random identifiers are,
    every adapter call of a full run is made for a scene of the batch and
    carries, as character, the first character of the registry whose name,
    case apart, occurs in the character field of that scene, and none when
    no name occurs in it; the request the service builds from the call
    starts with the image of that character, followed by the image of the
    previous scene, if any, and the text. *)
Theorem resolveCharacter_findCharacter env props st evs i attempt args result :
  NoDup (c_id <$> characters props) ->
  trace (handleGenerate env props st) = trace st ++ evs ->
  EvCall i attempt args result ∈ evs ->
  exists scene,
    scenesOf props !! i = Some scene /\
    a_characterRef args
    = List.find (nameMatches env (characterName scene)) (characters props) /\
    GeminiService.requestParts args
    = from_option
        (fun c => [GeminiService.inlineDataPart (mimeType c) (Some (imageBase64 c))]) []
        (List.find (nameMatches env (characterName scene)) (characters props))
      ++ from_option
           (fun p => [GeminiService.inlineDataPart GeminiService.IMAGE_PNG
                        (JsText.split 44 p !! 1)]) []
           (GeminiService.previousImage args)
      ++ [GeminiService.textPart (GeminiService.finalPrompt args)].
Proof.
  intros Hnd Htr Hin.
  destruct (decide (scenesOf props = [])) as [He|Hne].
  { rewrite handleGenerate_trace_empty in Htr by done.
    apply app_inv_head in Htr. subst evs.
    apply list_elem_of_singleton in Hin. done. }
  destruct (handleGenerate_summary env props st Hne) as (evsL & rs & stL & Hsum & Hst & Htr').
  rewrite Htr' in Htr. apply app_inv_head in Htr. subst evs.
  assert (Hin' : EvCall i attempt args result ∈ evsL).
  { apply elem_of_app in Hin as [H|H]; [|done].
    repeat (apply elem_of_cons in H as [H|H]; [done|]). by apply elem_of_nil in H. }
  destruct (Summary_call _ _ _ _ _ _ _ _ _ Hsum _ _ _ _ Hin') as (image & r & Hi & Hargs & _).
  apply initialImages_lookup_scene in Hi as (scene & Hs & ->).
  exists scene. split; [done|].
  assert (Hc : a_characterRef args
               = List.find (nameMatches env (characterName scene)) (characters props)).
  { rewrite Hargs. cbn [a_characterRef callArgs characterRefId initialImage].
    by apply findCharacter_resolved. }
  split; [done|].
  unfold GeminiService.requestParts. rewrite Hc.
  by destruct (List.find _ (characters props)), (GeminiService.previousImage args).
Qed.

(** X17 on the run of three scenes with Ben and Anna in the registry, for
    the call of the first scene. *)
Lemma resolveCharacter_findCharacter_witness :
  NoDup (c_id <$> characters castProps) /\
  trace (handleGenerate chainHost castProps (idle [])) = trace (idle []) ++ castEvents /\
  EvCall 0 1 castArgs (Some AAAA) ∈ castEvents /\
  exists scene,
    scenesOf castProps !! 0 = Some scene /\
    a_characterRef castArgs
    = List.find (nameMatches chainHost (characterName scene)) (characters castProps) /\
    GeminiService.requestParts castArgs
    = from_option
        (fun c => [GeminiService.inlineDataPart (mimeType c) (Some (imageBase64 c))]) []
        (List.find (nameMatches chainHost (characterName scene)) (characters castProps))
      ++ from_option
           (fun p => [GeminiService.inlineDataPart GeminiService.IMAGE_PNG
                        (JsText.split 44 p !! 1)]) []
           (GeminiService.previousImage castArgs)
      ++ [GeminiService.textPart (GeminiService.finalPrompt castArgs)].
Proof.
  assert (H1 : NoDup (c_id <$> characters castProps)).
  { vm_compute. repeat constructor; [|by intros ?%elem_of_nil].
    intros [?|?%elem_of_nil]%elem_of_cons; done. }
  assert (H2 : trace (handleGenerate chainHost castProps (idle []))
               = trace (idle []) ++ castEvents) by (vm_compute; reflexivity).
  assert (H3 : EvCall 0 1 castArgs (Some AAAA) ∈ castEvents) by in_list.
  exact (conj H1 (conj H2 (conj H3
           (resolveCharacter_findCharacter chainHost castProps (idle []) castEvents
              0 1 castArgs (Some AAAA) H1 H2 H3)))).
Defined.

(** The character sent with the calls of that run is Anna, the second of the
    registry: Ben does not occur in the character field. *)
Example generate_cast :
  (fun e => match e with
            | EvCall i _ args _ => Some (i, c_name <$> a_characterRef args)
            | _ => None
            end) <$> filter (fun e => isCall e = true) castEvents
  = [Some (0, Some (utf16 "Anna")); Some (1, Some (utf16 "Anna"));
     Some (2, Some (utf16 "Anna"))].
Proof. by vm_compute. Qed.

(** The order of the registry decides, not the order of the names in the
    scene. *)
Example resolveCharacter_registry_order :
  resolveCharacter chainHost [anna; ben] (utf16 "Ben and Anna") = Some (c_id anna).
Proof. by vm_compute. Qed.

Lemma includes_empty s : includes s [] = true.
Proof. by destruct s. Qed.

Lemma find_is_Some {A} (f : A -> bool) (l : list A) x :
  x ∈ l -> f x = true -> is_Some (List.find f l).
Proof.
  induction l as [|y l IH]; intros Hin Hx; [by apply elem_of_nil in Hin|].
  cbn. destruct (f y) eqn:E; [by eexists|].
  apply elem_of_cons in Hin as [->|Hin]; [congruence|by apply IH].
Qed.

(** X18. A character whose name has been cleared in the registry matches
    every scene: from then on no scene of a run is left without character,
    whatever its character field, and when the cleared character is the
    first of the registry every result refers to it. *)
Theorem cleared_name_matches_all env cs i name :
  toLowerCase env [] = [] ->
  i ∈ c_id <$> cs ->
  is_Some (resolveCharacter env (updateCharacterName cs i []) name) /\
  (forall c rest, cs = c :: rest -> c_id c = i ->
     resolveCharacter env (updateCharacterName cs i []) name = Some i).
Proof.
  intros Hlow Hin. split.
  - apply list_elem_of_fmap in Hin as (c & -> & Hc).
    unfold resolveCharacter. apply fmap_is_Some.
    apply (find_is_Some _ _
             {| c_id := c_id c; c_name := []; imageBase64 := imageBase64 c;
                mimeType := mimeType c |}).
    + unfold updateCharacterName. apply list_elem_of_fmap. exists c.
      by rewrite decide_True.
    + cbn. by rewrite Hlow, includes_empty.
  - intros c rest -> Hc. unfold resolveCharacter, updateCharacterName. cbn.
    rewrite decide_True by done. cbn. by rewrite Hlow, includes_empty, Hc.
Qed.

(** X18 on a registry of two characters, the name of the second cleared. *)
Lemma cleared_name_matches_all_witness :
  toLowerCase chainHost [] = [] /\
  c_id ben ∈ c_id <$> [anna; ben] /\
  is_Some (resolveCharacter chainHost (updateCharacterName [anna; ben] (c_id ben) [])
             (utf16 "Claire")) /\
  (forall c rest, [anna; ben] = c :: rest -> c_id c = c_id ben ->
     resolveCharacter chainHost (updateCharacterName [anna; ben] (c_id ben) [])
       (utf16 "Claire") = Some (c_id ben)).
Proof.
  assert (H1 : toLowerCase chainHost [] = []) by reflexivity.
  assert (H2 : c_id ben ∈ c_id <$> [anna; ben]) by in_list.
  exact (conj H1 (conj H2
           (cleared_name_matches_all chainHost [anna; ben] (c_id ben) (utf16 "Claire") H1 H2))).
Defined.

(** That registry, before and after, for a scene that names nobody in it. *)
Example cleared_name_evaluated :
  resolveCharacter chainHost [anna; ben] (utf16 "Claire") = None /\
  resolveCharacter chainHost (updateCharacterName [anna; ben] (c_id ben) []) (utf16 "Claire")
    = Some (c_id ben).
Proof. by vm_compute. Qed.

(** ** The download button *)

Lemma underscoreRuns_word b s :
  Forall (fun c => isAlnum c || isWhiteSpace c = true) s ->
  Forall (fun c => isWordChar c = true) (underscoreRuns b s).
Proof.
  intros H. revert b. induction H as [|c s Hc _ IH]; intros b; cbn; [constructor|].
  destruct (isWhiteSpace c) eqn:Ew.
  - destruct b; [apply IH|]. constructor; [done|apply IH].
  - constructor; [|apply IH]. unfold isWordChar.
    rewrite orb_false_r in Hc. by rewrite Hc.
Qed.

Lemma filter_Forall {A} (f : A -> bool) (l : list A) :
  Forall (fun x => f x = true) (List.filter f l).
Proof.
  induction l as [|x l IH]; cbn; [constructor|].
  destruct (f x) eqn:E; [by constructor|done].
Qed.

(** X19. The name of a downloaded file is made of ASCII letters, digits and
    underscores, followed by [.png], whatever the label of the result. *)
Theorem downloadName_safe env name :
  exists base,
    downloadName env name = base ++ DOT_PNG /\
    Forall (fun c => isWordChar c = true) base.
Proof.
  eexists. split; [done|]. apply underscoreRuns_word. apply filter_Forall.
Qed.

(** The label of every scene gives a name without the accented letter. *)
Example downloadName_label :
  downloadName chainHost (utf16 "Cảnh 12") = utf16 "cnh_12.png".
Proof. by vm_compute. Qed.

(** ** The adapter *)

Lemma split_free sep s : Forall (fun c => c <> sep) s -> split sep s = [s].
Proof.
  induction 1 as [|c s Hc _ IH]; cbn; [done|].
  apply N.eqb_neq in Hc. by rewrite Hc, IH.
Qed.

Lemma split_app sep a b :
  Forall (fun c => c <> sep) a -> split sep (a ++ sep :: b) = a :: split sep b.
Proof.
  induction 1 as [|c a Hc _ IH]; cbn.
  - by rewrite N.eqb_refl.
  - apply N.eqb_neq in Hc. by rewrite Hc, IH.
Qed.

(** [dataUrl(p).split(',')[1]] is [p] for a payload without comma. *)
Lemma split_dataUrl p : commaFree p -> split 44 (dataUrl p) !! 1 = Some p.
Proof.
  intros Hp. unfold dataUrl.
  change DATA_URL_PREFIX with (removelast DATA_URL_PREFIX ++ [44%N]).
  rewrite <- app_assoc. cbn [app].
  rewrite split_app by (vm_compute; repeat constructor; discriminate).
  by rewrite split_free.
Qed.

Lemma requestParts_none args :
  a_previousImage args = None ->
  GeminiService.requestParts args
  = characterParts args ++ [GeminiService.textPart (GeminiService.finalPrompt args)].
Proof.
  intros H. unfold GeminiService.requestParts, GeminiService.previousImage, characterParts.
  rewrite H. by destruct (a_characterRef args).
Qed.

Lemma requestParts_dataUrl args p :
  a_previousImage args = Some (dataUrl p) -> commaFree p ->
  GeminiService.requestParts args
  = characterParts args
    ++ [GeminiService.inlineDataPart GeminiService.IMAGE_PNG (Some p);
        GeminiService.textPart (GeminiService.finalPrompt args)].
Proof.
  intros H Hp. unfold GeminiService.requestParts, GeminiService.previousImage, characterParts.
  rewrite H. change (dataUrl p) with (100%N :: tail DATA_URL_PREFIX ++ p).
  cbv iota beta.
  change (100%N :: tail DATA_URL_PREFIX ++ p) with (dataUrl p).
  rewrite split_dataUrl by done. by destruct (a_characterRef args).
Qed.

Lemma requestParts_marker args s :
  a_previousImage args = Some s -> s <> [] -> commaFree s ->
  GeminiService.requestParts args
  = characterParts args
    ++ [GeminiService.inlineDataPart GeminiService.IMAGE_PNG None;
        GeminiService.textPart (GeminiService.finalPrompt args)].
Proof.
  intros H Hne Hs. unfold GeminiService.requestParts, GeminiService.previousImage, characterParts.
  rewrite H. destruct s as [|c s]; [done|].
  rewrite split_free by done. by destruct (a_characterRef args).
Qed.

(** X20. From the controller to the service, in a full run: the request made
    for a scene after the first holds, between the image of the character,
    if any, and the text, the very payload the adapter returned for the
    scene before, as a PNG image; and no image of a previous scene when that
    scene failed.  Payloads are taken without comma, as base64 is. *)
Theorem generate_request_reference env props st evs j attempt args result :
  trace (handleGenerate env props st) = trace st ++ evs ->
  (forall k a x p, EvCall k a x (Some p) ∈ evs -> commaFree p) ->
  EvCall (S j) attempt args result ∈ evs ->
  (exists a' args' p,
      p <> [] /\ EvCall j a' args' (Some p) ∈ evs /\
      GeminiService.requestParts args
      = characterParts args
        ++ [GeminiService.inlineDataPart GeminiService.IMAGE_PNG (Some p);
            GeminiService.textPart (GeminiService.finalPrompt args)])
  \/
  ((forall p a' args', EvCall j a' args' (Some p) ∈ evs -> p = []) /\
   GeminiService.requestParts args
   = characterParts args ++ [GeminiService.textPart (GeminiService.finalPrompt args)]).
Proof.
  intros Htr Hfree Hin.
  destruct (decide (scenesOf props = [])) as [He|Hne].
  { rewrite handleGenerate_trace_empty in Htr by done.
    apply app_inv_head in Htr. subst evs.
    apply list_elem_of_singleton in Hin. done. }
  destruct (handleGenerate_summary env props st Hne) as (evsL & rs & stL & Hsum & Hst & Htr').
  rewrite Htr' in Htr. apply app_inv_head in Htr. subst evs.
  assert (HinL : forall k a x y,
            EvCall k a x y ∈ [EvPublish []; EvPublish (initialImages env props st)] ++ evsL ->
            EvCall k a x y ∈ evsL).
  { intros k a x y H. apply elem_of_app in H as [H|H]; [|done].
    repeat (apply elem_of_cons in H as [H|H]; [done|]). by apply elem_of_nil in H. }
  pose proof (HinL _ _ _ _ Hin) as Hin'.
  destruct (Summary_call _ _ _ _ _ _ _ _ _ Hsum _ _ _ _ Hin') as (image & r & Hi & Hargs & Hatt & Hr).
  assert (Hj : j < length rs).
  { destruct Hr as [Hr|[Hr _]]; [apply lookup_lt_Some in Hr|]; lia. }
  destruct (lookup_lt_is_Some_2 rs j Hj) as [rj Hrj].
  destruct (Summary_done _ _ _ _ _ _ _ _ _ Hsum _ _ Hrj) as (imj & b & _ & _ & Hattj & _).
  assert (Hprev : a_previousImage args = chainEntry rj).
  { rewrite Hargs. cbn. rewrite Hrj. cbn. unfold entry. cbn. by destruct (chainEntry rj). }
  destruct (chainEntry rj) as [u|] eqn:Hc.
  - left. apply chainEntry_Some in Hc as (p & -> & Hp & ->).
    destruct (Attempts_result _ _ _ _ p Hattj eq_refl) as (a' & Ha').
    assert (Hev : EvCall j a' (callArgs env props imj (reference fullRun rs j) false) (Some p)
                    ∈ [EvPublish []; EvPublish (initialImages env props st)] ++ evsL).
    { do 2 apply list_elem_of_further. by eapply sceneEvents_subseteq. }
    eexists a', _, p. split; [done|]. split; [exact Hev|].
    apply requestParts_dataUrl; [done|]. by eapply Hfree.
  - right. split; [|by apply requestParts_none].
    intros p a' args' H. apply HinL in H.
    assert (Hs : EvCall j a' args' (Some p) ∈ sceneEvents j evsL)
      by (by apply elem_of_sceneEvents).
    destruct (Attempts_In_call _ _ _ _ _ _ _ _ Hattj Hs) as (_ & _ & _ & Hres).
    specialize (Hres p eq_refl).
    apply chainEntry_None in Hc as [->| ->]; congruence.
Qed.

Lemma payloadsCommaFree_spec evs :
  payloadsCommaFree evs = true ->
  forall k a x p, EvCall k a x (Some p) ∈ evs -> commaFree p.
Proof.
  intros H k a x p Hin. unfold payloadsCommaFree in H.
  rewrite forallb_forall in H. apply list_elem_of_In in Hin.
  specialize (H _ Hin). cbn in H. rewrite forallb_forall in H.
  apply Forall_forall. intros c Hc. apply list_elem_of_In in Hc.
  specialize (H _ Hc). apply negb_true_iff in H. by apply N.eqb_neq.
Qed.

(** X20 on the run of three scenes, for the call of the third scene. *)
Lemma generate_request_reference_witness :
  trace (handleGenerate chainHost chainProps (idle [])) = trace (idle []) ++ chainEvents /\
  (forall k a x p, EvCall k a x (Some p) ∈ chainEvents -> commaFree p) /\
  EvCall 2 1 chainArgs (Some BBBB) ∈ chainEvents /\
  ((exists a' args' p,
       p <> [] /\ EvCall 1 a' args' (Some p) ∈ chainEvents /\
       GeminiService.requestParts chainArgs
       = characterParts chainArgs
         ++ [GeminiService.inlineDataPart GeminiService.IMAGE_PNG (Some p);
             GeminiService.textPart (GeminiService.finalPrompt chainArgs)])
   \/
   ((forall p a' args', EvCall 1 a' args' (Some p) ∈ chainEvents -> p = []) /\
    GeminiService.requestParts chainArgs
    = characterParts chainArgs
      ++ [GeminiService.textPart (GeminiService.finalPrompt chainArgs)])).
Proof.
  assert (H1 : trace (handleGenerate chainHost chainProps (idle []))
               = trace (idle []) ++ chainEvents) by (vm_compute; reflexivity).
  assert (H2 : forall k a x p, EvCall k a x (Some p) ∈ chainEvents -> commaFree p)
    by (apply payloadsCommaFree_spec; vm_compute; reflexivity).
  assert (H3 : EvCall 2 1 chainArgs (Some BBBB) ∈ chainEvents) by in_list.
  exact (conj H1 (conj H2 (conj H3
           (generate_request_reference chainHost chainProps (idle []) chainEvents 1 1
              chainArgs (Some BBBB) H1 H2 H3)))).
Defined.

(** X21. From the controller to the service, in a regenerate-all run: after a
    scene that failed, the request made for the next scene announces the
    image of the previous scene and holds an image part for it, which has no
    data: the failure marker, taken for a data URL, has no comma to split
    at. *)
Theorem regenerateAll_request_after_failure env props st evs j attempt args result img :
  canRegenerateAll st ->
  trace (handleRegenerateAll env props st) = trace st ++ evs ->
  EvCall (S j) attempt args result ∈ evs ->
  generatedImages (handleRegenerateAll env props st) !! j = Some img ->
  src img = ERROR ->
  GeminiService.previousImage args = Some ERROR /\
  GeminiService.requestParts args
  = characterParts args
    ++ [GeminiService.inlineDataPart GeminiService.IMAGE_PNG None;
        GeminiService.textPart (GeminiService.finalPrompt args)].
Proof.
  intros Hcan Htr Hin Himg Hsrc.
  destruct (regenerateAll_reference env props st evs j attempt args result Hcan Htr Hin)
    as (img' & Himg' & Hprev).
  rewrite Himg in Himg'. injection Himg' as <-. rewrite Hsrc in Hprev.
  split.
  - unfold GeminiService.previousImage. by rewrite Hprev.
  - apply (requestParts_marker args ERROR); [done|done|].
    vm_compute. repeat constructor; discriminate.
Qed.

(** X21 on a regenerate-all run in which every call fails. *)
Lemma regenerateAll_request_after_failure_witness :
  canRegenerateAll (idle twoTiles) /\
  trace (handleRegenerateAll failHost chainProps (idle twoTiles))
    = trace (idle twoTiles) ++ failEvents /\
  EvCall 1 1 failArgs None ∈ failEvents /\
  generatedImages (handleRegenerateAll failHost chainProps (idle twoTiles)) !! 0
    = Some (tile 1 ERROR) /\
  src (tile 1 ERROR) = ERROR /\
  GeminiService.previousImage failArgs = Some ERROR /\
  GeminiService.requestParts failArgs
  = characterParts failArgs
    ++ [GeminiService.inlineDataPart GeminiService.IMAGE_PNG None;
        GeminiService.textPart (GeminiService.finalPrompt failArgs)].
Proof.
  assert (H1 : canRegenerateAll (idle twoTiles)) by (split; [reflexivity|discriminate]).
  assert (H2 : trace (handleRegenerateAll failHost chainProps (idle twoTiles))
               = trace (idle twoTiles) ++ failEvents) by (vm_compute; reflexivity).
  assert (H3 : EvCall 1 1 failArgs None ∈ failEvents) by in_list.
  assert (H4 : generatedImages (handleRegenerateAll failHost chainProps (idle twoTiles)) !! 0
               = Some (tile 1 ERROR)) by (vm_compute; reflexivity).
  assert (H5 : src (tile 1 ERROR) = ERROR) by reflexivity.
  exact (conj H1 (conj H2 (conj H3 (conj H4 (conj H5
           (regenerateAll_request_after_failure failHost chainProps (idle twoTiles) failEvents
              0 1 failArgs None (tile 1 ERROR) H1 H2 H3 H4 H5)))))).
Defined.

(** X22. What the adapter tells its caller: it resolves only with the data of
    the first part, among the parts of the first candidate of the response,
    that holds inline data, the request being the one described above; and
    whatever goes wrong, a missing key, a rejection by the service or a
    response without image, it rejects with one and the same message. *)
Theorem generateImage_settles host ai args :
  match (GeminiService.generateImage host ai args).1 with
  | GeminiService.Rejected message => message = GeminiService.FAILED
  | GeminiService.Resolved data =>
      exists key response before part blob after,
        GeminiService.getAiInstance host ai = Some key /\
        GeminiService.generateContent host key
          {| GeminiService.r_model := GeminiService.MODEL;
             GeminiService.r_parts := GeminiService.requestParts args;
             GeminiService.r_aspectRatio := a_aspectRatio args |} = Some response /\
        GeminiService.responseParts response = before ++ part :: after /\
        Forall (fun p => GeminiService.p_inlineData p = None) before /\
        GeminiService.p_inlineData part = Some blob /\
        data = GeminiService.b_data blob
  end.
Proof.
  unfold GeminiService.generateImage.
  destruct (GeminiService.getAiInstance host ai) as [key|] eqn:Ek; [|done].
  destruct (GeminiService.generateContent host key _) as [response|] eqn:Er; [|done].
  destruct (List.find _ (GeminiService.responseParts response)) as [part|] eqn:Ef; [|done].
  cbn. apply find_first in Ef as (before & after & Hl & Hb & Hp).
  apply bool_decide_eq_true in Hp as [blob Hblob].
  exists key, response, before, part, blob, after.
  split; [done|]. split; [exact Er|]. split; [done|]. split.
  - eapply Forall_impl; [exact Hb|]. cbn. intros p H.
    apply bool_decide_eq_false in H. destruct (GeminiService.p_inlineData p); [|done].
    destruct H. by eexists.
  - split; [done|]. by rewrite Hblob.
Qed.

(** ** The fields of a block *)

Lemma lazyUntil_line (stop : jsstring -> bool) text rest :
  (forall x r, stop (x :: r) = true -> x = 10%N) ->
  Forall (fun x => x <> 10%N) text -> stop rest = true ->
  lazyUntil stop (text ++ rest) = text.
Proof.
  intros Hstop Htext Hrest. induction Htext as [|x t Hx _ IH]; cbn [app].
  - destruct rest as [|c r]; [done|]. cbn. by rewrite Hrest.
  - cbn. destruct (stop (x :: t ++ rest)) eqn:E; [|by rewrite IH].
    by apply Hstop in E.
Qed.

Lemma promptStop_newline x r : promptStop (x :: r) = true -> x = 10%N.
Proof.
  intros H. destruct (decide (x = 10%N)) as [|Hne]; [done|]. exfalso.
  unfold promptStop in H.
  assert (Hs : forall p, startsWith (x :: r) (10%N :: p) = false).
  { intros p. destruct (startsWith (x :: r) (10%N :: p)) eqn:E; [|done].
    apply startsWith_head in E. congruence. }
  change NL_NHAN_VAT with (10%N :: NHAN_VAT) in H.
  change NL_THOI_LUONG with (10%N :: tail NL_THOI_LUONG) in H.
  change NL_KEN_BURNS with (10%N :: tail NL_KEN_BURNS) in H.
  by rewrite !Hs in H.
Qed.

Lemma startsWith_app p r : startsWith (p ++ r) p = true.
Proof.
  unfold startsWith. destruct (strip_prefix p (p ++ r)) as [x|] eqn:E; [done|].
  assert (H : strip_prefix p (p ++ r) = Some r) by (by apply strip_prefix_Some).
  congruence.
Qed.

(** The lookahead of the prompt holds in front of a line that starts with
    one of the three field labels. *)
Lemma promptStop_label label r :
  label ∈ fieldLabels -> promptStop (10%N :: label ++ r) = true.
Proof.
  intros Hl. cbn [promptStop].
  apply elem_of_cons in Hl as [->|Hl];
    [|apply elem_of_cons in Hl as [->|Hl]; [|apply list_elem_of_singleton in Hl as ->]].
  - change (10%N :: utf16 "Nhân vật:" ++ r) with (NL_NHAN_VAT ++ r).
    by rewrite startsWith_app.
  - change (10%N :: utf16 "Thời lượng ảnh:" ++ r) with (NL_THOI_LUONG ++ r).
    rewrite (startsWith_app NL_THOI_LUONG). by rewrite orb_true_r.
  - change (10%N :: utf16 "Ken Burns Effect:" ++ r) with (NL_KEN_BURNS ++ r).
    rewrite (startsWith_app NL_KEN_BURNS). by rewrite orb_true_r.
Qed.

(** X23. The prompt of a scene is what follows the first prompt label of its
    block, white space skipped, up to the end of the block or to a line that
    starts with one of the labels [Nhân vật:], [Thời lượng ảnh:] and
    [Ken Burns Effect:]; here for a prompt on one line.  It is the prompt of
    the scene [parsePrompts] makes of the block, white space trimmed. *)
Theorem prompt_field block before ws c text rest :
  find_sub PROMPT_LABEL block = Some (before, ws ++ c :: text ++ rest) ->
  Forall (fun x => isWhiteSpace x = true) ws ->
  isWhiteSpace c = false ->
  Forall (fun x => x <> 10%N) text ->
  (rest = [] \/
   exists label r,
     label ∈ [utf16 "Nhân vật:"; utf16 "Thời lượng ảnh:"; utf16 "Ken Burns Effect:"] /\
     rest = 10%N :: label ++ r) ->
  promptMatch block = Some (c :: text) /\
  (forall scene, parseBlock block = Some scene -> s_prompt scene = trim (c :: text)).
Proof.
  intros Hf Hws Hc Htext Hlabel.
  assert (Hrest : promptStop rest = true).
  { destruct Hlabel as [->|(label & r & Hl & ->)]; [done|]. by apply promptStop_label. }
  assert (H : promptMatch block = Some (c :: text)).
  { unfold promptMatch. rewrite Hf.
    rewrite (span_run isWhiteSpace ws c (text ++ rest)) by done.
    cbn [snd]. f_equal.
    apply (lazyUntil_line promptStop (c :: text) rest); [apply promptStop_newline| |done].
    constructor; [|done]. intros ->. by vm_compute in Hc. }
  split; [done|]. intros scene. unfold parseBlock. rewrite H.
  destruct (searchHeader block) as [[b ds]|]; [|done]. cbn. by intros [= <-].
Qed.

(** X23 on a block in which the duration of the image follows the prompt. *)
Lemma prompt_field_witness :
  find_sub PROMPT_LABEL durationBlock
  = Some (utf16 "Cảnh 4: d" ++ [10%N],
          [32%N] ++ 65%N :: tail A_DOG_RUNS
            ++ 10%N :: utf16 "Thời lượng ảnh: 5 giây" ++ [10%N] ++ utf16 "Nhân vật: Anna") /\
  Forall (fun x => isWhiteSpace x = true) [32%N] /\
  isWhiteSpace 65 = false /\
  Forall (fun x => x <> 10%N) (tail A_DOG_RUNS) /\
  (10%N :: utf16 "Thời lượng ảnh: 5 giây" ++ [10%N] ++ utf16 "Nhân vật: Anna" = [] \/
   exists label r,
     label ∈ [utf16 "Nhân vật:"; utf16 "Thời lượng ảnh:"; utf16 "Ken Burns Effect:"] /\
     10%N :: utf16 "Thời lượng ảnh: 5 giây" ++ [10%N] ++ utf16 "Nhân vật: Anna"
     = 10%N :: label ++ r) /\
  promptMatch durationBlock = Some (65%N :: tail A_DOG_RUNS) /\
  (forall scene, parseBlock durationBlock = Some scene ->
     s_prompt scene = trim (65%N :: tail A_DOG_RUNS)).
Proof.
  assert (H1 : find_sub PROMPT_LABEL durationBlock
               = Some (utf16 "Cảnh 4: d" ++ [10%N],
                       [32%N] ++ 65%N :: tail A_DOG_RUNS
                         ++ 10%N :: utf16 "Thời lượng ảnh: 5 giây" ++ [10%N]
                         ++ utf16 "Nhân vật: Anna"))
    by (vm_compute; reflexivity).
  assert (H2 : Forall (fun x => isWhiteSpace x = true) [32%N])
    by (repeat constructor).
  assert (H3 : isWhiteSpace 65 = false) by reflexivity.
  assert (H4 : Forall (fun x => x <> 10%N) (tail A_DOG_RUNS))
    by (vm_compute; repeat constructor; discriminate).
  assert (H5 : 10%N :: utf16 "Thời lượng ảnh: 5 giây" ++ [10%N] ++ utf16 "Nhân vật: Anna" = [] \/
               exists label r,
                 label ∈ [utf16 "Nhân vật:"; utf16 "Thời lượng ảnh:";
                          utf16 "Ken Burns Effect:"] /\
                 10%N :: utf16 "Thời lượng ảnh: 5 giây" ++ [10%N] ++ utf16 "Nhân vật: Anna"
                 = 10%N :: label ++ r).
  { right. exists (utf16 "Thời lượng ảnh:"), (utf16 " 5 giây" ++ [10%N] ++ utf16 "Nhân vật: Anna").
    split; [right; left|vm_compute; reflexivity]. }
  exact (conj H1 (conj H2 (conj H3 (conj H4 (conj H5
           (prompt_field durationBlock _ [32%N] 65 (tail A_DOG_RUNS) _
              H1 H2 H3 H4 H5)))))).
Defined.

(** The prompt stops at each of the three labels, and only at the start of
    a line. *)
Example promptMatch_labels :
  promptMatch plainBlock = Some (utf16 "A dog runs.") /\
  promptMatch durationBlock = Some (utf16 "A dog runs.") /\
  promptMatch effectBlock = Some (utf16 "A dog runs.") /\
  promptMatch (utf16 "Prompt (Câu lệnh tiếng Anh): A dog. Ken Burns Effect: none")
  = Some (utf16 "A dog. Ken Burns Effect: none") /\
  s_prompt <$> parsePrompts (durationBlock ++ effectBlock)
  = [utf16 "A dog runs."; utf16 "A dog runs."].
Proof. repeat split; by vm_compute. Qed.

Lemma afterLabel_hit k s cap : lineCapture (drop k s) = Some cap -> afterLabel k s = Some cap.
Proof. intros H. destruct k; cbn [afterLabel]; by rewrite H. Qed.

Lemma characterMatch_first s before after cap :
  find_sub NHAN_VAT s = Some (before, after) ->
  afterLabel (length (span isWhiteSpace after).1) after = Some cap ->
  characterMatch s = Some cap.
Proof.
  revert before. induction s as [|c r IH]; intros before; [done|].
  cbn [find_sub characterMatch].
  destruct (strip_prefix NHAN_VAT (c :: r)) as [x|].
  - intros [= <- <-] H. by rewrite H.
  - destruct (find_sub NHAN_VAT r) as [[b a]|]; [|done].
    intros [= <- <-] H. by apply (IH b).
Qed.

(** X24. The character of a scene is what follows the first character
    label of its block, white space skipped, up to the end of the line.  The
    white space skipped may hold line ends: when the field is left empty,
    the text of the next line that is not blank is taken for the name of the
    character. *)
Theorem character_field block before ws c line rest :
  find_sub NHAN_VAT block = Some (before, ws ++ c :: line ++ rest) ->
  Forall (fun x => isWhiteSpace x = true) ws ->
  isWhiteSpace c = false ->
  Forall (fun x => isLineTerminator x = false) line ->
  rest = [] \/ (exists r, rest = 10%N :: r) ->
  characterMatch block = Some (c :: line) /\
  (forall scene, parseBlock block = Some scene -> characterName scene = trim (c :: line)).
Proof.
  intros Hf Hws Hc Hline Hrest.
  assert (Hlt : isLineTerminator c = false).
  { destruct (isLineTerminator c) eqn:E; [|done]. unfold isWhiteSpace in Hc.
    rewrite E in Hc. by rewrite !orb_true_r in Hc. }
  assert (H : characterMatch block = Some (c :: line)).
  { eapply characterMatch_first; [exact Hf|].
    rewrite (span_run isWhiteSpace ws c (line ++ rest)) by done. cbn [fst].
    apply afterLabel_hit. rewrite drop_app_length. unfold lineCapture.
    change (c :: line ++ rest) with ((c :: line) ++ rest).
    rewrite (span_app_stop (fun x => negb (isLineTerminator x)) (c :: line) rest).
    - by destruct Hrest as [->|[r ->]].
    - constructor; [by rewrite Hlt|].
      eapply Forall_impl; [exact Hline|]. cbn. by intros x ->.
    - by destruct Hrest as [->|[r ->]]. }
  split; [done|]. intros scene. unfold parseBlock. rewrite H.
  destruct (searchHeader block) as [[b ds]|]; [|done].
  destruct (promptMatch block) as [[|x p]|]; try done. cbn. by intros [= <-].
Qed.

(** X24 on a block whose character field is left empty. *)
Lemma character_field_witness :
  find_sub NHAN_VAT emptyFieldBlock
    = Some (EMPTY_FIELD_HEAD, [10%N] ++ 84%N :: tail DURATION_LINE ++ []) /\
  Forall (fun x => isWhiteSpace x = true) [10%N] /\
  isWhiteSpace 84 = false /\
  Forall (fun x => isLineTerminator x = false) (tail DURATION_LINE) /\
  (@nil N = [] \/ (exists r, @nil N = 10%N :: r)) /\
  characterMatch emptyFieldBlock = Some (84%N :: tail DURATION_LINE) /\
  (forall scene, parseBlock emptyFieldBlock = Some scene ->
     characterName scene = trim (84%N :: tail DURATION_LINE)).
Proof.
  assert (H1 : find_sub NHAN_VAT emptyFieldBlock
               = Some (EMPTY_FIELD_HEAD, [10%N] ++ 84%N :: tail DURATION_LINE ++ []))
    by (vm_compute; reflexivity).
  assert (H2 : Forall (fun x => isWhiteSpace x = true) [10%N]) by (repeat constructor).
  assert (H3 : isWhiteSpace 84 = false) by reflexivity.
  assert (H4 : Forall (fun x => isLineTerminator x = false) (tail DURATION_LINE))
    by (vm_compute; repeat constructor).
  assert (H5 : @nil N = [] \/ (exists r, @nil N = 10%N :: r)) by (left; reflexivity).
  exact (conj H1 (conj H2 (conj H3 (conj H4 (conj H5
           (character_field emptyFieldBlock EMPTY_FIELD_HEAD [10%N] 84 (tail DURATION_LINE) []
              H1 H2 H3 H4 H5)))))).
Defined.

(** That block, parsed: the duration is the character. *)
Example character_field_evaluated :
  characterName <$> parsePrompts emptyFieldBlock = [DURATION_LINE].
Proof. by vm_compute. Qed.

(** ** What every call carries *)

(** X25. Whatever the procedure, every call of the adapter carries the
    story context cleaned of scene text, so without any scene header, the
    art style and the aspect ratio of the application as they are, a prompt
    that went through [removeDialogue], and the variant flag, which is set
    exactly when the call is not made by a full run. *)
Theorem run_call_args proc env props st evs i attempt args result :
  trace (run proc env props st) = trace st ++ evs ->
  EvCall i attempt args result ∈ evs ->
  a_storyContext args = cleanStoryContext (storyContext props) /\
  searchHeader (a_storyContext args) = None /\
  a_artStyle args = artStyle props /\
  a_aspectRatio args = aspectRatio props /\
  a_isVariant args = match proc with FullRun => false | _ => true end /\
  exists p, a_prompt args = removeDialogue p.
Proof.
  intros Htr Hin.
  assert (H : a_storyContext args = cleanStoryContext (storyContext props) /\
              a_artStyle args = artStyle props /\
              a_aspectRatio args = aspectRatio props /\
              a_isVariant args = match proc with FullRun => false | _ => true end /\
              exists p, a_prompt args = removeDialogue p).
  { destruct proc as [| |imageId promptOverride]; cbn [run] in Htr.
    - destruct (decide (scenesOf props = [])) as [He|Hne].
      { rewrite handleGenerate_trace_empty in Htr by done.
        apply app_inv_head in Htr. subst evs.
        apply list_elem_of_singleton in Hin. done. }
      destruct (handleGenerate_summary env props st Hne)
        as (evsL & rs & stL & Hsum & Hst & Htr').
      rewrite Htr' in Htr. apply app_inv_head in Htr. subst evs.
      repeat (apply elem_of_cons in Hin as [Hin|Hin]; [done|]).
      destruct (Summary_call _ _ _ _ _ _ _ _ _ Hsum _ _ _ _ Hin) as (image & r & _ & -> & _).
      cbn. repeat split; try done. by eexists.
    - destruct (decide (canRegenerateAll st)) as [Hcan|Hno].
      + destruct (handleRegenerateAll_summary env props st Hcan)
          as (evsL & rs & stL & Hsum & Hst & Htr').
        rewrite Htr' in Htr. apply app_inv_head in Htr. subst evs.
        apply elem_of_cons in Hin as [Hin|Hin]; [done|].
        destruct (Summary_call _ _ _ _ _ _ _ _ _ Hsum _ _ _ _ Hin) as (image & r & _ & -> & _).
        cbn. repeat split; try done. by eexists.
      + exfalso. assert (Hst : handleRegenerateAll env props st = st).
        { unfold handleRegenerateAll. destruct (isGenerating st) eqn:Hg; [done|].
          cbn. destruct (decide (generatedImages st = [])) as [Hnil|Hnn].
          - by rewrite bool_decide_eq_true_2.
          - destruct Hno. by split. }
        rewrite Hst in Htr. rewrite <- (app_nil_r (trace st)) in Htr at 1.
        apply app_inv_head in Htr. subst evs. by apply elem_of_nil in Hin.
    - destruct (handleRegenerate_spec env props (generatedImages st) imageId promptOverride st)
        as [[_ Hst]|(idx & imageToRegen & es & r & _ & _ & _ & Hatt & _ & Htr' & _)].
      { rewrite Hst in Htr. rewrite <- (app_nil_r (trace st)) in Htr at 1.
        apply app_inv_head in Htr. subst evs. by apply elem_of_nil in Hin. }
      rewrite Htr' in Htr. apply app_inv_head in Htr. subst evs.
      apply elem_of_cons in Hin as [Hin|Hin]; [done|].
      apply elem_of_app in Hin as [Hin|Hin];
        [|apply list_elem_of_singleton in Hin; done].
      destruct (Attempts_In_call _ _ _ _ _ _ _ _ Hatt Hin) as (_ & -> & _).
      cbn. repeat split; try done. by eexists. }
  destruct H as (H1 & H2 & H3 & H4 & H5). split; [done|]. split; [|done].
  rewrite H1. apply cleanStoryContext_headerFree.
Qed.

(** X25 on the run of three scenes, for the call of the third scene. *)
Lemma run_call_args_witness :
  trace (run FullRun chainHost chainProps (idle [])) = trace (idle []) ++ chainEvents /\
  EvCall 2 1 chainArgs (Some BBBB) ∈ chainEvents /\
  a_storyContext chainArgs = cleanStoryContext (storyContext chainProps) /\
  searchHeader (a_storyContext chainArgs) = None /\
  a_artStyle chainArgs = artStyle chainProps /\
  a_aspectRatio chainArgs = aspectRatio chainProps /\
  a_isVariant chainArgs = false /\
  exists p, a_prompt chainArgs = removeDialogue p.
Proof.
  assert (H1 : trace (run FullRun chainHost chainProps (idle []))
               = trace (idle []) ++ chainEvents) by (vm_compute; reflexivity).
  assert (H2 : EvCall 2 1 chainArgs (Some BBBB) ∈ chainEvents) by in_list.
  exact (conj H1 (conj H2
           (run_call_args FullRun chainHost chainProps (idle []) chainEvents 2 1 chainArgs
              (Some BBBB) H1 H2))).
Defined.

(** ** The stop button and single-scene regeneration *)

(** X26. Single-scene regeneration does not look at the stop button: what
    the user does during its awaits changes neither the calls it makes nor
    what it writes to the store. *)
Theorem regenerate_ignores_stop stop env props images imageId promptOverride st :
  trace (handleRegenerate (withUser stop env) props images imageId promptOverride st)
    = trace (handleRegenerate env props images imageId promptOverride st) /\
  generatedImages (handleRegenerate (withUser stop env) props images imageId promptOverride st)
    = generatedImages (handleRegenerate env props images imageId promptOverride st).
Proof.
  unfold handleRegenerate.
  destruct (findIndex _ images) as [idx|]; [|done].
  destruct (images !! idx) as [imageToRegen|]; [|done].
  unfold MAX_ATTEMPTS. cbn.
  repeat (match goal with
          | |- context [generateImage env ?k ?a] =>
              destruct (generateImage env k a) eqn:?; cbn
          end); done.
Qed.

